(** * The quest execution engine of game_core (app/quest/quest.py)

    A shallow embedding of [semver_safe] and of the [Quest] class: the
    constructor, [load], [load_storage_model], [load_stages] and
    [execute_stages], together with the part of the Python standard library
    the class drives ([graphlib.TopologicalSorter]).

    Conventions of the embedding.
    - A Python [dict] is an association list in insertion order with unique
      keys ([PyDict]); iteration order is list order.
    - A raised exception is a value of [exn]; a method that can raise after
      mutating [self] returns the mutated object together with the outcome.
    - An attribute that has not been assigned yet is [None].
    - The calls made on stage objects are recorded in a ghost trace of
      [Event]s so that statements about "what was called, and when" can be
      written down. *)

From Stdlib Require Import List String Ascii ZArith Bool Arith Lia Relations.
From Stdlib Require Import DecimalString.
Import ListNotations.

Local Open Scope string_scope.
Local Open Scope list_scope.

Set Implicit Arguments.

(** ** Exceptions *)

(** Exceptions of Python and of the libraries ([graphlib.CycleError],
    [pydantic.ValidationError]). *)
Inductive builtin_exn : Type :=
| ValueError (msg : string)
| KeyError (key : string)
| AssertionError (msg : string)
| AttributeError (name : string)
| CycleError (msg : string) (cycle : list string)
| ValidationError (msg : string).

(** Exceptions seen by the callers of [Quest]; [cause] is the exception
    named after [from] in [raise ... from err]. *)
Inductive exn : Type :=
| Builtin (e : builtin_exn)
| QuestLoadError (msg : string) (cause : option builtin_exn)
| QuestDefinitionError (msg : string) (cause : option builtin_exn).

Coercion Builtin : builtin_exn >-> exn.

(** Outcome of a call: it returns, or it raises.  The loops whose number
    of iterations is not structural are run on a budget computed from their
    state; [OutOfFuel] stands for a loop that overran it (the lemmas
    [find_cycle_spec] and [execute_stages_terminates] show that none
    does). *)
Inductive result (A : Type) : Type :=
| Ok (a : A)
| Raise (e : exn)
| OutOfFuel.
Arguments Ok {A} a.
Arguments Raise {A} e.
Arguments OutOfFuel {A}.

(** ** Python dictionaries, in insertion order *)

Module PyDict.
Section Dict.
Variable V : Type.

Definition dict := list (string * V).

(** [d.get(k)] *)
Fixpoint get (d : dict) (k : string) : option V :=
match d with
| [] => None
| (k', v) :: r => if String.eqb k' k then Some v else get r k
end.

(** [k in d] *)
Definition contains (d : dict) (k : string) : bool :=
match get d k with Some _ => true | None => false end.

(** [d[k] = v]: an existing key keeps its place, a new key goes last. *)
Fixpoint set (d : dict) (k : string) (v : V) : dict :=
match d with
| [] => [(k, v)]
| (k', v') :: r =>
    if String.eqb k' k then (k', v) :: r else (k', v') :: set r k v
end.

(** [del d[k]] *)
Fixpoint del (d : dict) (k : string) : dict :=
match d with
| [] => []
| (k', v') :: r => if String.eqb k' k then r else (k', v') :: del r k
end.

Definition keys (d : dict) : list string := map fst d.
Definition values (d : dict) : list V := map snd d.
End Dict.
End PyDict.

Import PyDict.

(** Concatenation of the pieces of an f-string. *)
Definition cat (l : list string) : string :=
  fold_right String.append "" l.

(** [x in l] for a list (or tuple, or set) of strings. *)
Definition mem (x : string) (l : list string) : bool :=
  existsb (String.eqb x) l.

(** ** graphlib.TopologicalSorter (CPython, Lib/graphlib.py) *)

Module graphlib.

Definition _NODE_OUT : Z := -1.
Definition _NODE_DONE : Z := -2.

(** [_NodeInfo]; the [node] slot is the key under which the record is
  stored in [_node2info]. *)
Record _NodeInfo : Type := mkNodeInfo {
npredecessors : Z;
successors : list string
}.

Record TopologicalSorter : Type := mkSorter {
_node2info : dict _NodeInfo;
_ready_nodes : option (list string);
_npassedout : Z;
_nfinished : Z
}.

(** [TopologicalSorter()] *)
Definition new : TopologicalSorter :=
mkSorter [] None 0 0.

(** [_get_nodeinfo]: the record of [node], created empty when absent.  The
  record is shared with the dictionary, so the dictionary after the call
  is returned instead and updated in place with [modify]. *)
Definition _get_nodeinfo (n2i : dict _NodeInfo) (node : string)
: dict _NodeInfo :=
match get n2i node with
| Some _ => n2i
| None => set n2i node (mkNodeInfo 0 [])
end.

Definition modify (n2i : dict _NodeInfo) (node : string)
  (f : _NodeInfo -> _NodeInfo) : dict _NodeInfo :=
match get n2i node with
| Some i => set n2i node (f i)
| None => n2i
end.

Definition add_successor (node : string) (n2i : dict _NodeInfo)
  (pred : string) : dict _NodeInfo :=
modify (_get_nodeinfo n2i pred) pred
  (fun i => mkNodeInfo (npredecessors i) (successors i ++ [node])).

(** [add(node, *predecessors)] *)
Definition add (ts : TopologicalSorter) (node : string)
  (predecessors : list string) : result TopologicalSorter :=
match _ready_nodes ts with
| Some _ => Raise (ValueError "Nodes cannot be added after a call to prepare()")
| None =>
    let n2i := _get_nodeinfo (_node2info ts) node in
    let n2i := modify n2i node
      (fun i => mkNodeInfo (npredecessors i + Z.of_nat (List.length predecessors))
                           (successors i)) in
    let n2i := fold_left (add_successor node) predecessors n2i in
    Ok (mkSorter n2i (_ready_nodes ts) (_npassedout ts) (_nfinished ts))
end.

(** *** [_find_cycle]

  The two parallel lists [stack] and [itstack] are kept as one list of
  frames (a node and what is left of the iterator over its successors),
  most recent frame first; [node2stacki] maps a node on the stack to its
  index counted from the bottom. *)

Record dfs : Type := mkDfs {
frames : list (string * list string);
seen : list string;
node2stacki : dict nat
}.

(** The inner [while stack: ... else: break]: [None] is the [else] branch
  (the stack ran empty), otherwise the next node to look at. *)
Fixpoint backtrack (fr : list (string * list string)) (n2s : dict nat)
: option (string * list (string * list string) * dict nat) :=
match fr with
| [] => None
| (top, its) :: fr' =>
    match its with
    | nxt :: its' => Some (nxt, (top, its') :: fr', n2s)
    | [] => backtrack fr' (del n2s top)
    end
end.

Inductive search : Type :=
| Overrun
| Failed (e : exn)
| Found (cycle : list string)
| Exhausted (seen : list string).

(** [stack[i:] + [node]] for a stack kept most recent first. *)
Definition stack_from (fr : list (string * list string)) (i : nat)
  (node : string) : list string :=
rev (firstn (List.length fr - i) (map fst fr)) ++ [node].

(** The [while True] loop started on [node]. *)
Fixpoint visit (fuel : nat) (n2i : dict _NodeInfo) (node : string) (st : dfs)
: search :=
match fuel with
| O => Overrun
| S fuel' =>
    let continue (st' : dfs) :=
      match backtrack (frames st') (node2stacki st') with
      | None => Exhausted (seen st')
      | Some (nxt, fr, n2s) => visit fuel' n2i nxt (mkDfs fr (seen st') n2s)
      end in
    if mem node (seen st) then
      match get (node2stacki st) node with
      | Some i => Found (stack_from (frames st) i node)
      | None => continue st
      end
    else
      match get n2i node with
      | None => Failed (KeyError node)
      | Some info =>
          continue (mkDfs ((node, successors info) :: frames st)
                          (node :: seen st)
                          (set (node2stacki st) node (List.length (frames st))))
      end
end.

(** Number of edges: an upper bound on the iterations of one [while True]. *)
Definition edge_count (n2i : dict _NodeInfo) : nat :=
list_sum (map (fun kv => List.length (successors (snd kv))) n2i).

(** The [for node in n2i] loop. *)
Fixpoint find_from (n2i : dict _NodeInfo) (roots : list string)
  (seen0 : list string) : search :=
match roots with
| [] => Exhausted seen0
| node :: rest =>
    if mem node seen0 then find_from n2i rest seen0
    else
      match visit (S (edge_count n2i)) n2i node (mkDfs [] seen0 []) with
      | Exhausted seen1 => find_from n2i rest seen1
      | r => r
      end
end.

Definition _find_cycle (ts : TopologicalSorter) : search :=
find_from (_node2info ts) (keys (_node2info ts)) [].

(** [prepare()]: the ready list is set before cycles are looked for, so it
  stays set when [CycleError] is raised. *)
Definition prepare (ts : TopologicalSorter)
: TopologicalSorter * result unit :=
match _ready_nodes ts with
| Some _ => (ts, Raise (ValueError "cannot prepare() more than once"))
| None =>
    let ready :=
      map fst (filter (fun kv => Z.eqb (npredecessors (snd kv)) 0)
                      (_node2info ts)) in
    let ts' := mkSorter (_node2info ts) (Some ready)
                        (_npassedout ts) (_nfinished ts) in
    match _find_cycle ts' with
    | Found cycle => (ts', Raise (CycleError "nodes are in a cycle" cycle))
    | Failed e => (ts', Raise e)
    | Overrun => (ts', OutOfFuel)
    | Exhausted _ => (ts', Ok tt)
    end
end.

(** [get_ready()] *)
Fixpoint mark_out (n2i : dict _NodeInfo) (nodes : list string)
: dict _NodeInfo * result unit :=
match nodes with
| [] => (n2i, Ok tt)
| node :: rest =>
    match get n2i node with
    | None => (n2i, Raise (KeyError node))
    | Some i => mark_out (set n2i node (mkNodeInfo _NODE_OUT (successors i))) rest
    end
end.

Definition get_ready (ts : TopologicalSorter)
: TopologicalSorter * result (list string) :=
match _ready_nodes ts with
| None => (ts, Raise (ValueError "prepare() must be called first"))
| Some ready =>
    match mark_out (_node2info ts) ready with
    | (n2i, Ok _) =>
        (mkSorter n2i (Some [])
           (_npassedout ts + Z.of_nat (List.length ready)) (_nfinished ts),
         Ok ready)
    | (n2i, Raise e) =>
        (mkSorter n2i (Some ready) (_npassedout ts) (_nfinished ts), Raise e)
    | (n2i, OutOfFuel) =>
        (mkSorter n2i (Some ready) (_npassedout ts) (_nfinished ts), OutOfFuel)
    end
end.

(** [is_active()] *)
Definition is_active (ts : TopologicalSorter) : result bool :=
match _ready_nodes ts with
| None => Raise (ValueError "prepare() must be called first")
| Some ready =>
    Ok (Z.ltb (_nfinished ts) (_npassedout ts)
        || match ready with [] => false | _ => true end)
end.

(** The loop over [nodeinfo.successors] in [done]. *)
Fixpoint release (n2i : dict _NodeInfo) (ready : list string)
  (succs : list string) : dict _NodeInfo * list string * result unit :=
match succs with
| [] => (n2i, ready, Ok tt)
| successor :: rest =>
    match get n2i successor with
    | None => (n2i, ready, Raise (KeyError successor))
    | Some si =>
        let n := (npredecessors si - 1)%Z in
        let n2i' := set n2i successor (mkNodeInfo n (successors si)) in
        release n2i' (if Z.eqb n 0 then ready ++ [successor] else ready) rest
    end
end.

(** [done(node)] with one node, as [Quest.execute_stages] calls it. *)
Definition done (ts : TopologicalSorter) (node : string)
: TopologicalSorter * result unit :=
match _ready_nodes ts with
| None => (ts, Raise (ValueError "prepare() must be called first"))
| Some ready =>
    match get (_node2info ts) node with
    | None => (ts, Raise (ValueError "node was not added using add()"))
    | Some nodeinfo =>
        let stat := npredecessors nodeinfo in
        if negb (Z.eqb stat _NODE_OUT) then
          if Z.leb 0 stat then
            (ts, Raise (ValueError "node was not passed out (still not ready)"))
          else if Z.eqb stat _NODE_DONE then
            (ts, Raise (ValueError "node was already marked done"))
          else (ts, Raise (AssertionError "unknown status"))
        else
          let n2i := set (_node2info ts) node
                       (mkNodeInfo _NODE_DONE (successors nodeinfo)) in
          match release n2i ready (successors nodeinfo) with
          | (n2i', ready', Ok _) =>
              (mkSorter n2i' (Some ready') (_npassedout ts)
                        (_nfinished ts + 1), Ok tt)
          | (n2i', ready', r) =>
              (mkSorter n2i' (Some ready') (_npassedout ts) (_nfinished ts), r)
          end
    end
end.

End graphlib.

(** ** semver.VersionInfo *)

Module semver.

Record VersionInfo : Type := mkVersion {
major : Z;
minor : Z;
patch : Z;
prerelease : option string;
build : option string
}.

(** [__str__] *)
Definition str (v : VersionInfo) : string :=
let num (z : Z) := NilZero.string_of_int (Z.to_int z) in
cat [num (major v); "."; num (minor v); "."; num (patch v);
     match prerelease v with Some p => cat ["-"; p] | None => "" end;
     match build v with Some b => cat ["+"; b] | None => "" end].

End semver.

Import semver.

(** ** app/quest/quest.py *)

(** [semver_safe]: whether semver loading is going to be safe. *)
Definition semver_safe (start dest : VersionInfo) : bool :=
  if negb (Z.eqb (major start) (major dest)) then false
  else
    (* check it's not a downgrade of minor version *)
    if Z.gtb (minor start) (minor dest) then false
    else true.

(** [StorageModel] (app/quest/models.py), with the four fields
    [get_storage_model] fills in. *)
Record StorageModel : Type := mkStorageModel {
  sm_version : string;
  sm_completed_stages : list string;
  sm_serialized_data : string;
  sm_complete : bool
}.

(** The calls [execute_stages] makes on a stage. *)
Inductive Hook : Type :=
| Instantiate   (* StageClass(self) *)
| Prepare       (* stage.prepare() *)
| Condition     (* stage.condition() *)
| Execute       (* stage.execute() *)
| IsDone.       (* stage.is_done() *)

(** Ghost trace of a pass: what the graph handed out, what was marked done
    in it, and every call on a stage with what it returned (for the two
    predicates) and the value of [complete] when it returned. *)
Inductive Event : Type :=
| Ready (node : string)
| MarkedDone (node : string)
| Called (node : string) (h : Hook) (ret : option bool) (complete_after : bool).

Inductive signal : Type :=
| Fallthrough   (* the [for] loop ran to its end *)
| Returned.     (* [return] *)

Section Quest.

(** Instances of the quest's [QuestDataModel]. *)
Variable QD : Type.
(** What stage code can reach outside the quest object. *)
Variable Ext : Type.
(** The attributes of a stage instance. *)
Variable Loc : Type.
(** Documents of the store, as [to_dict()] returns them. *)
Variable Doc : Type.
(** [app.tick.TickType] *)
Variable TickType : Type.

(** [StorageModel.parse_obj]; [inl] is the text of a [ValidationError]. *)
Variable parse_obj : Doc -> string + StorageModel.
(** [VersionInfo.parse]; [None] is its [ValueError]. *)
Variable VersionInfo_parse : string -> option VersionInfo.

(** The constructed instance: [__init__] returns once [load] has assigned
    every attribute. *)
Record Quest : Type := mkQuest {
  key : string;
  quest_data : QD;
  completed_stages : list string;
  complete : bool;
  graph : graphlib.TopologicalSorter
}.

(** What a call on a stage leaves behind. *)
Record Effect (R : Type) : Type := mkEffect {
  eff_ret : R;
  eff_self : Loc;
  eff_quest_data : QD;
  eff_complete : bool;
  eff_ext : Ext
}.

(** Modelled from the spec: the [Stage] base class (app/quest/stage.py is
    not among the sources).  A stage declares [children] and implements
    [prepare], [condition], [execute] and [is_done]; an instance is bound
    to its quest.  Each call sees the quest, the instance and the outside
    world; it may change the instance, the quest's payload, its [complete]
    flag and the outside world. *)
Record Stage : Type := mkStage {
  children : list string;
  stage_init : Quest -> Ext -> Effect unit;
  prepare : Quest -> Loc -> Ext -> Effect unit;
  condition : Quest -> Loc -> Ext -> Effect bool;
  execute : Quest -> Loc -> Ext -> Effect unit;
  is_done : Quest -> Loc -> Ext -> Effect bool
}.

(** The class attributes of a concrete quest. *)
Record QuestClass : Type := mkQuestClass {
  cls_name : string;                               (* __name__ *)
  version : VersionInfo;
  stages : dict Stage;
  QuestDataModel : QD;                             (* QuestDataModel() *)
  parse_raw : string -> string + QD;               (* QuestDataModel.parse_raw *)
  json : QD -> string                              (* quest_data.json() *)
}.

Variable cls : QuestClass.
(** The collection "quest" of the document store. *)
Variable db : string -> option Doc.

(** [__repr__] *)
Definition repr (k : string) : string :=
  String.append (cls_name cls)
    (String.append "(key=" (String.append k ")")).

(** The attributes of an instance while it is being loaded. *)
Record Attrs : Type := mkAttrs {
  a_key : string;
  a_quest_data : option QD;
  a_completed_stages : option (list string);
  a_complete : option bool;
  a_graph : option graphlib.TopologicalSorter
}.

Definition unloaded (k : string) : Attrs :=
  mkAttrs k None None None None.

Definition set_graph (q : Quest) (g : graphlib.TopologicalSorter) : Quest :=
  mkQuest (key q) (quest_data q) (completed_stages q) (complete q) g.

Definition attrs_of (q : Quest) : Attrs :=
  mkAttrs (key q) (Some (quest_data q)) (Some (completed_stages q))
          (Some (complete q)) (Some (graph q)).

(** The instance once every attribute is assigned; reading an attribute
    that is not raises [AttributeError]. *)
Definition instance (a : Attrs) : result Quest :=
  match a_quest_data a, a_completed_stages a, a_complete a, a_graph a with
  | Some d, Some cs, Some c, Some g => Ok (mkQuest (a_key a) d cs c g)
  | None, _, _, _ => Raise (AttributeError "quest_data")
  | _, None, _, _ => Raise (AttributeError "completed_stages")
  | _, _, None, _ => Raise (AttributeError "complete")
  | _, _, _, None => Raise (AttributeError "graph")
  end.

(** [str] of [CycleError("nodes are in a cycle", cycle)]: the [repr] of
    the pair of its arguments (stage names are Python identifiers, whose
    [repr] is the name between single quotes). *)
Definition quote (s : string) : string := cat ["'"; s; "'"].

Definition str_CycleError (msg : string) (cycle : list string) : string :=
  cat ["("; quote msg; ", ["; String.concat ", " (map quote cycle); "])"].

(** [load_storage_model]: load save data back into structure. *)
Definition load_storage_model (a : Attrs) (storage_model : StorageModel)
  : Attrs * result unit :=
  (* check save version is safe before upgrading *)
  match VersionInfo_parse (sm_version storage_model) with
  | None =>
      (a, Raise (ValueError
            (cat [sm_version storage_model; " is not valid SemVer string"])))
  | Some save_semver =>
      if negb (semver_safe save_semver (version cls)) then
        (a, Raise (QuestLoadError
              (cat [repr (a_key a); " Unsafe version mismatch in! ";
                    semver.str save_semver; " -> ";
                    semver.str (version cls)]) None))
      else
        match parse_raw cls (sm_serialized_data storage_model) with
        | inl err =>
            (a, Raise (QuestLoadError
                  (cat [repr (a_key a); " data validation error! "; err])
                  (Some (ValidationError err))))
        | inr d =>
            let a := mkAttrs (a_key a) (Some d) (a_completed_stages a)
                             (a_complete a) (a_graph a) in
            let a := mkAttrs (a_key a) (a_quest_data a)
                             (Some (sm_completed_stages storage_model))
                             (a_complete a) (a_graph a) in
            let a := mkAttrs (a_key a) (a_quest_data a)
                             (a_completed_stages a)
                             (Some (sm_complete storage_model)) (a_graph a) in
            (a, Ok tt)
        end
  end.

(** [get_storage_model]: updates save data with new version and output. *)
Definition get_storage_model (q : Quest) : StorageModel :=
  mkStorageModel (semver.str (version cls)) (completed_stages q)
                 (json cls (quest_data q)) (complete q).

(** [load_stages], the loop over [StageClass.children]. *)
Fixpoint add_children (k : string) (g : graphlib.TopologicalSorter)
    (stage_name : string) (chs : list string)
  : graphlib.TopologicalSorter * result unit :=
  match chs with
  | [] => (g, Ok tt)
  | child_name :: rest =>
      if negb (contains (stages cls) child_name) then
        (g, Raise (QuestDefinitionError
              (cat [repr k; " does not have stage named '"; child_name; "'"])
              None))
      else
        match graphlib.add g child_name [stage_name] with
        | Ok g' => add_children k g' stage_name rest
        | Raise e => (g, Raise e)
        | OutOfFuel => (g, OutOfFuel)
        end
  end.

(** [load_stages], the loop over [self.stages.items()]. *)
Fixpoint add_stages (k : string) (g : graphlib.TopologicalSorter)
    (items : list (string * Stage))
  : graphlib.TopologicalSorter * result unit :=
  match items with
  | [] => (g, Ok tt)
  | (stage_name, StageClass) :: rest =>
      match add_children k g stage_name (children StageClass) with
      | (g', Ok _) => add_stages k g' rest
      | (g', r) => (g', r)
      end
  end.

Definition with_graph (a : Attrs) (g : graphlib.TopologicalSorter) : Attrs :=
  mkAttrs (a_key a) (a_quest_data a) (a_completed_stages a) (a_complete a)
          (Some g).

(** [load_stages]: loads the stages. *)
Definition load_stages (a : Attrs) : Attrs * result unit :=
  (* load graph *)
  match add_stages (a_key a) graphlib.new (stages cls) with
  | (g, Ok _) =>
      match graphlib.prepare g with
      | (g', Raise (Builtin (CycleError msg cycle))) =>
          (with_graph a g',
           Raise (QuestDefinitionError
             (cat [repr (a_key a); " prepare failed! ";
                   str_CycleError msg cycle])
             (Some (CycleError msg cycle))))
      | (g', r) => (with_graph a g', r)
      end
  | (g, r) => (with_graph a g, r)
  end.

(** [load]: load data from storage. *)
Definition load (a : Attrs) : Attrs * result unit :=
  match db (a_key a) with
  | Some quest_doc =>
      match parse_obj quest_doc with
      | inl err =>
          (a, Raise (QuestLoadError
                (cat [repr (a_key a); " Storage model validation error! "; err])
                (Some (ValidationError err))))
      | inr storage_model =>
          match load_storage_model a storage_model with
          | (a', Ok _) => load_stages a'
          | (a', r) => (a', r)
          end
      end
  | None =>
      let a := mkAttrs (a_key a) (Some (QuestDataModel cls))
                       (a_completed_stages a) (a_complete a) (a_graph a) in
      let a := mkAttrs (a_key a) (a_quest_data a) (Some [])
                       (a_complete a) (a_graph a) in
      let a := mkAttrs (a_key a) (a_quest_data a) (a_completed_stages a)
                       (Some false) (a_graph a) in
      load_stages a
  end.

(** [Quest.__init__].  The object under construction is returned next to
    the outcome, with the attributes assigned so far. *)
Definition Quest_init (k : string) : option Attrs * result Quest :=
  if String.eqb k "" then (None, Raise (ValueError "Key can't be blank"))
  else
    match load (unloaded k) with
    | (a, Ok _) => (Some a, instance a)
    | (a, Raise e) => (Some a, Raise e)
    | (a, OutOfFuel) => (Some a, OutOfFuel)
    end.

(** The quest after a call on one of its stages. *)
Definition after (q : Quest) (R : Type) (e : Effect R) : Quest :=
  mkQuest (key q) (eff_quest_data e) (completed_stages q) (eff_complete e)
          (graph q).

Definition called (node : string) (h : Hook) (ret : option bool)
    (R : Type) (e : Effect R) : Event :=
  Called node h ret (eff_complete e).

(** The body of the [for] loop of [execute_stages] from
    [StageClass = self.stages[node]] on. *)
Definition run_stage (node : string) (StageClass : Stage) (q : Quest)
    (x : Ext) : Quest * Ext * list Event * result unit :=
  (* instantiate stage and execute *)
  let e0 := stage_init StageClass q x in
  let q0 := after q e0 in
  let e1 := prepare StageClass q0 (eff_self e0) (eff_ext e0) in
  let q1 := after q0 e1 in
  let e2 := condition StageClass q1 (eff_self e1) (eff_ext e1) in
  let q2 := after q1 e2 in
  let t2 := [called node Instantiate None e0; called node Prepare None e1;
             called node Condition (Some (eff_ret e2)) e2] in
  if eff_ret e2 then
    let e3 := execute StageClass q2 (eff_self e2) (eff_ext e2) in
    let q3 := after q2 e3 in
    let e4 := is_done StageClass q3 (eff_self e3) (eff_ext e3) in
    let q4 := after q3 e4 in
    let t4 := t2 ++ [called node Execute None e3;
                     called node IsDone (Some (eff_ret e4)) e4] in
    if eff_ret e4 then
      let q5 := mkQuest (key q4) (quest_data q4)
                        (completed_stages q4 ++ [node]) (complete q4)
                        (graph q4) in
      match graphlib.done (graph q5) node with
      | (g, Ok _) => (set_graph q5 g, eff_ext e4, t4 ++ [MarkedDone node], Ok tt)
      | (g, r) => (set_graph q5 g, eff_ext e4, t4, r)
      end
    else (q4, eff_ext e4, t4, Ok tt)
  else (q2, eff_ext e2, t2, Ok tt).

(** [for node in ready_nodes] *)
Fixpoint for_nodes (ready_nodes : list string) (q : Quest) (x : Ext)
  : Quest * Ext * list Event * result signal :=
  match ready_nodes with
  | [] => (q, x, [], Ok Fallthrough)
  | node :: rest =>
      (* skip if completed, avoids triggering two final stages *)
      if complete q then (q, x, [], Ok Returned)
      else if mem node (completed_stages q) then
        match graphlib.done (graph q) node with
        | (g, Ok _) =>
            let '(q', x', t, r) := for_nodes rest (set_graph q g) x in
            (q', x', MarkedDone node :: t, r)
        | (g, Raise e) => (set_graph q g, x, [], Raise e)
        | (g, OutOfFuel) => (set_graph q g, x, [], OutOfFuel)
        end
      else
        match get (stages cls) node with
        | None => (q, x, [], Raise (KeyError node))
        | Some StageClass =>
            match run_stage node StageClass q x with
            | (q1, x1, t1, Ok _) =>
                let '(q', x', t, r) := for_nodes rest q1 x1 in
                (q', x', t1 ++ t, r)
            | (q1, x1, t1, Raise e) => (q1, x1, t1, Raise e)
            | (q1, x1, t1, OutOfFuel) => (q1, x1, t1, OutOfFuel)
            end
        end
  end.

(** [while self.graph.is_active()] *)
Fixpoint while_active (fuel : nat) (q : Quest) (x : Ext)
  : Quest * Ext * list Event * result unit :=
  match fuel with
  | O => (q, x, [], OutOfFuel)
  | S fuel' =>
      match graphlib.is_active (graph q) with
      | Ok true =>
          match graphlib.get_ready (graph q) with
          | (g, Ok ready_nodes) =>
              let q1 := set_graph q g in
              match ready_nodes with
              | [] => (q1, x, [], Ok tt)        (* break *)
              | _ =>
                  match for_nodes ready_nodes q1 x with
                  | (q2, x2, t, Ok Fallthrough) =>
                      let '(q', x', t', r) := while_active fuel' q2 x2 in
                      (q', x', map Ready ready_nodes ++ t ++ t', r)
                  | (q2, x2, t, Ok Returned) =>
                      (q2, x2, map Ready ready_nodes ++ t, Ok tt)
                  | (q2, x2, t, Raise e) =>
                      (q2, x2, map Ready ready_nodes ++ t, Raise e)
                  | (q2, x2, t, OutOfFuel) =>
                      (q2, x2, map Ready ready_nodes ++ t, OutOfFuel)
                  end
              end
          | (g, Raise e) => (set_graph q g, x, [], Raise e)
          | (g, OutOfFuel) => (set_graph q g, x, [], OutOfFuel)
          end
      | Ok false => (q, x, [], Ok tt)
      | Raise e => (q, x, [], Raise e)
      | OutOfFuel => (q, x, [], OutOfFuel)
      end
  end.

(** Every batch but the last takes a node out of those still waiting or
    ready, so this many turns of the [while] loop are enough. *)
Definition budget (g : graphlib.TopologicalSorter) : nat :=
  S (List.length (graphlib._node2info g)
     + match graphlib._ready_nodes g with
       | Some ready => List.length ready
       | None => 0
       end).

(** [execute_stages]: executes stages; [tick_type] is accepted and not
    looked at. *)
Definition execute_stages (q : Quest) (tick_type : TickType) (x : Ext)
  : Quest * Ext * list Event * result unit :=
  while_active (budget (graph q)) q x.

End Quest.

(** ** Concrete quests for the examples *)

Module Demo.

(** The payload counts the stages executed; the outside world is the log
    of their names. *)
Definition QD : Type := nat.
Definition Ext : Type := list string.
Definition Loc : Type := unit.
Definition Doc : Type := StorageModel.
Inductive TickType : Type := FULL | ISSUE.

Definition quiet (R : Type) (r : R) (q : Quest QD) (x : Ext) : Effect QD Ext Loc R :=
  mkEffect r tt (quest_data q) (complete q) x.

(** A stage whose [condition] and [is_done] answer [cond] and [fin], and
    whose [execute] logs its name and, when [last], concludes the quest. *)
Definition stage (name : string) (chs : list string) (cond fin last : bool)
  : Stage QD Ext Loc :=
  mkStage chs
    (fun q x => quiet tt q x)
    (fun q _ x => quiet tt q x)
    (fun q _ x => quiet cond q x)
    (fun q _ x => mkEffect tt tt (S (quest_data q)) (last || complete q)
                           (x ++ [name]))
    (fun q _ x => quiet fin q x).

Definition split_dots (s : string) : list string :=
  let fix go (acc : string) (s : string) : list string :=
    match s with
    | EmptyString => [acc]
    | String c r =>
        if Ascii.eqb c "." then acc :: go "" r
        else go (String.append acc (String c "")) r
    end in
  go "" s.

(** A parser for plain ["major.minor.patch"] strings. *)
Definition parse_plain (s : string) : option VersionInfo :=
  match map (fun p => option_map Z.of_uint (NilEmpty.uint_of_string p))
            (split_dots s) with
  | [Some a; Some b; Some c] => Some (mkVersion a b c None None)
  | _ => None
  end.

Definition parse_obj (d : Doc) : string + StorageModel := inr d.

Definition parse_raw (s : string) : string + QD :=
  match NilEmpty.uint_of_string s with
  | Some n => inr (Nat.of_uint n)
  | None => inl "value is not a valid integer"
  end.

Definition json (d : QD) : string := NilEmpty.string_of_uint (Nat.to_uint d).

Definition quest (v : string) (sts : dict (Stage QD Ext Loc))
  : QuestClass QD Ext Loc :=
  mkQuestClass "DemoQuest"
    (match parse_plain v with
     | Some v => v
     | None => mkVersion 0 0 0 None None
     end)
    sts 0 parse_raw json.

Definition empty_db : string -> option Doc := fun _ => None.

Definition db_with (k : string) (d : Doc) : string -> option Doc :=
  fun k' => if String.eqb k' k then Some d else None.

Definition construct (c : QuestClass QD Ext Loc) (db : string -> option Doc)
    (k : string) :=
  Quest_init parse_obj parse_plain c db k.

(** The trace of the first pass over a freshly constructed quest. *)
Definition first_pass (c : QuestClass QD Ext Loc) (db : string -> option Doc)
    (k : string) : option (list string * bool * list Event) :=
  match snd (construct c db k) with
  | Ok q =>
      let '(q', _, t, _) := execute_stages c q FULL [] in
      Some (completed_stages q', complete q', t)
  | _ => None
  end.

Definition v120 := mkVersion 1 2 0 None None.
Definition v130 := mkVersion 1 3 0 None None.
Definition v200 := mkVersion 2 0 0 None None.
Definition v199 := mkVersion 1 9 9 None None.

(** [A] lists [B] as its child. *)
Definition A_then_B : QuestClass QD Ext Loc :=
  quest "0.1.0" [("A", stage "A" ["B"] true true false);
                 ("B", stage "B" [] true true false)].

(** [B] lists [A] as its child: the mapping of the scenario "A has no
    dependencies, B depends on A" when [children] is read as the
    dependency list. *)
Definition B_lists_A : QuestClass QD Ext Loc :=
  quest "0.1.0" [("A", stage "A" [] true true false);
                 ("B", stage "B" ["A"] true true false)].

(** [A] and [B] list each other. *)
Definition cyclic : QuestClass QD Ext Loc :=
  quest "0.1.0" [("A", stage "A" ["B"] true true false);
                 ("B", stage "B" ["A"] true true false)].

(** [A] lists a child that is not a stage. *)
Definition dangling : QuestClass QD Ext Loc :=
  quest "0.1.0" [("A", stage "A" ["X"] true true false)].

(** [Start] is followed by [F1] and [F2]; [F1] concludes the quest. *)
Definition fork : QuestClass QD Ext Loc :=
  quest "0.1.0" [("Start", stage "Start" ["F1"; "F2"] true true false);
                 ("F1", stage "F1" [] true true true);
                 ("F2", stage "F2" [] true true false)].

(** [A] executes and does not report done. *)
Definition stuck : QuestClass QD Ext Loc :=
  quest "0.1.0" [("A", stage "A" ["B"] true false false);
                 ("B", stage "B" [] true true false)].

Definition old_code : QuestClass QD Ext Loc :=
  quest "1.9.9" [("A", stage "A" ["B"] true true false);
                 ("B", stage "B" [] true true false)].

Definition key : string := "g:DemoQuest".

(** Snapshots: one saved by newer code, one of a concluded quest. *)
Definition newer_doc : Doc := mkStorageModel "2.0.0" [] "0" false.
Definition concluded_doc : Doc := mkStorageModel "0.1.0" ["A"; "B"] "2" true.

End Demo.


(** * Properties *)

(** ** Strings and dictionaries *)

Lemma length_append (s t : string) :
  String.length (String.append s t) = String.length s + String.length t.
Proof.
  induction s as [|c s IH]; simpl; [reflexivity | now rewrite IH].
Qed.

Lemma mem_In (x : string) (l : list string) : mem x l = true <-> In x l.
Proof.
  unfold mem. rewrite existsb_exists. split.
  - intros (y & Hy & E). apply String.eqb_eq in E. now subst.
  - intros H. exists x. split; [assumption | apply String.eqb_refl].
Qed.

Lemma mem_not_In (x : string) (l : list string) : mem x l = false <-> ~ In x l.
Proof.
  rewrite <- mem_In. destruct (mem x l); split; congruence.
Qed.

(** ** [semver_safe] *)

(** C2: a snapshot version [start] is safe to load against the code's
    version [dest] exactly when the majors are equal and the snapshot's
    minor does not exceed the code's; the patch (and the prerelease and
    build tags) never influence the answer; 1.2.0 loads against 1.2.0 and
    1.3.0, 1.3.0 does not load against 1.2.0, nor 2.0.0 against 1.9.9. *)
Theorem semver_safe_spec :
  (forall start dest,
      semver_safe start dest = true <->
      major start = major dest /\ (minor start <= minor dest)%Z) /\
  (forall M m p pre b M' m' p' pre' b' q qpre qb q' qpre' qb',
      semver_safe (mkVersion M m p pre b) (mkVersion M' m' p' pre' b') =
      semver_safe (mkVersion M m q qpre qb) (mkVersion M' m' q' qpre' qb')) /\
  semver_safe Demo.v120 Demo.v120 = true /\
  semver_safe Demo.v120 Demo.v130 = true /\
  semver_safe Demo.v130 Demo.v120 = false /\
  semver_safe Demo.v200 Demo.v199 = false.
Proof.
  split; [|split; [|repeat split]].
  - intros start dest. unfold semver_safe.
    destruct (Z.eqb_spec (major start) (major dest)) as [E|E]; simpl.
    + destruct (Z.gtb_spec (minor start) (minor dest)); split.
      * discriminate.
      * intros [_ H']. lia.
      * intros _. split; [assumption | lia].
      * reflexivity.
    + split; [discriminate | intros [H _]; contradiction].
  - intros. reflexivity.
Qed.


(** ** Dictionary laws *)

Lemma get_In (V : Type) (d : dict V) (k : string) (v : V) :
  get d k = Some v -> In (k, v) d.
Proof.
  induction d as [|[k' v'] d IH]; simpl; [discriminate|].
  destruct (String.eqb_spec k' k) as [->|N].
  - intros [= ->]. now left.
  - intros H. right. auto.
Qed.

Lemma In_contains (V : Type) (d : dict V) (k : string) (v : V) :
  In (k, v) d -> contains d k = true.
Proof.
  unfold contains. induction d as [|[k' v'] d IH]; simpl; [contradiction|].
  intros [[= -> ->]|H].
  - now rewrite String.eqb_refl.
  - destruct (String.eqb k' k); [reflexivity | auto].
Qed.

Lemma contains_In (V : Type) (d : dict V) (k : string) :
  contains d k = true -> exists v, In (k, v) d.
Proof.
  unfold contains. destruct (get d k) as [v|] eqn:E; [|discriminate].
  intros _. exists v. now apply get_In.
Qed.


Section DictFacts.
Variable V : Type.
Implicit Types (d : dict V) (k : string) (v : V).

Lemma get_set d k v k' :
  get (set d k v) k' = if String.eqb k k' then Some v else get d k'.
Proof.
  induction d as [|[k0 v0] d IH]; simpl.
  - reflexivity.
  - destruct (String.eqb_spec k0 k) as [->|N]; simpl.
    + destruct (String.eqb k k'); reflexivity.
    + destruct (String.eqb_spec k0 k') as [->|N'].
      * destruct (String.eqb_spec k k'); [congruence | reflexivity].
      * apply IH.
Qed.

Lemma get_set_same d k v : get (set d k v) k = Some v.
Proof. rewrite get_set. now rewrite String.eqb_refl. Qed.

Lemma get_set_other d k v k' : k <> k' -> get (set d k v) k' = get d k'.
Proof.
  intros N. rewrite get_set. now destruct (String.eqb_spec k k').
Qed.

Lemma get_None d k : get d k = None <-> ~ In k (keys d).
Proof.
  induction d as [|[k0 v0] d IH]; simpl.
  - tauto.
  - destruct (String.eqb_spec k0 k) as [->|N].
    + split; [discriminate | intros H; exfalso; apply H; now left].
    + rewrite IH. tauto.
Qed.

Lemma get_Some_keys d k v : get d k = Some v -> In k (keys d).
Proof.
  intros H. destruct (in_dec string_dec k (keys d)) as [I|I]; [assumption|].
  apply get_None in I. congruence.
Qed.

Lemma contains_keys d k : contains d k = true <-> In k (keys d).
Proof.
  unfold contains. destruct (get d k) eqn:E.
  - split; [intros _; eapply get_Some_keys; eassumption | reflexivity].
  - apply get_None in E. split; [discriminate | contradiction].
Qed.

Lemma keys_set d k v :
  keys (set d k v) = if contains d k then keys d else keys d ++ [k].
Proof.
  unfold contains. induction d as [|[k0 v0] d IH]; simpl.
  - reflexivity.
  - destruct (String.eqb_spec k0 k) as [->|N]; simpl.
    + reflexivity.
    + rewrite IH. now destruct (get d k).
Qed.

Lemma In_keys_set d k v k' :
  In k' (keys (set d k v)) <-> k' = k \/ In k' (keys d).
Proof.
  rewrite keys_set. destruct (contains d k) eqn:E.
  - apply contains_keys in E. split; [tauto | intros [->|]; assumption].
  - rewrite in_app_iff. simpl. intuition congruence.
Qed.

Lemma NoDup_keys_set d k v : NoDup (keys d) -> NoDup (keys (set d k v)).
Proof.
  intros H. rewrite keys_set. destruct (contains d k) eqn:E; [assumption|].
  apply NoDup_app; [assumption | repeat constructor; intros [] |].
  intros a Ha [<-|[]]. apply contains_keys in Ha. congruence.
Qed.

Lemma get_NoDup_In d k v : NoDup (keys d) -> In (k, v) d -> get d k = Some v.
Proof.
  induction d as [|[k0 v0] d IH]; simpl; [contradiction|].
  intros H [[= -> ->]|I].
  - now rewrite String.eqb_refl.
  - inversion H as [|? ? Hn Hd]; subst.
    destruct (String.eqb_spec k0 k) as [->|N]; [|auto].
    exfalso. apply Hn. change k with (fst (k, v)). now apply in_map.
Qed.

Lemma get_del_other d k k' : k <> k' -> get (del d k) k' = get d k'.
Proof.
  intros N. induction d as [|[k0 v0] d IH]; simpl; [reflexivity|].
  destruct (String.eqb_spec k0 k) as [->|N0]; simpl.
  - now destruct (String.eqb_spec k k').
  - now rewrite IH.
Qed.

Lemma In_keys_del d k k' : In k' (keys (del d k)) -> In k' (keys d).
Proof.
  induction d as [|[k0 v0] d IH]; simpl; [tauto|].
  destruct (String.eqb k0 k); simpl; tauto.
Qed.

Lemma NoDup_keys_del d k : NoDup (keys d) -> NoDup (keys (del d k)).
Proof.
  induction d as [|[k0 v0] d IH]; simpl; [intros; constructor|].
  intros H. inversion H as [|? ? Hn Hd]; subst.
  destruct (String.eqb k0 k); simpl; [assumption|].
  constructor; [|auto]. intros I. apply Hn. eapply In_keys_del; eassumption.
Qed.

Lemma get_del_same d k : NoDup (keys d) -> get (del d k) k = None.
Proof.
  induction d as [|[k0 v0] d IH]; simpl; [reflexivity|].
  intros H. inversion H as [|? ? Hn Hd]; subst.
  destruct (String.eqb_spec k0 k) as [->|N]; simpl.
  - now apply get_None.
  - destruct (String.eqb_spec k0 k); [congruence | auto].
Qed.
End DictFacts.


(** ** Building the graph: what [load_stages] can raise *)

Lemma add_unprepared (g : graphlib.TopologicalSorter) (n : string)
    (preds : list string) :
  graphlib._ready_nodes g = None ->
  exists g', graphlib.add g n preds = Ok g' /\ graphlib._ready_nodes g' = None.
Proof.
  intros H. unfold graphlib.add. rewrite H. eexists. split; reflexivity.
Qed.

(** The outcomes of the two loops of [load_stages]: the graph with all edges
    added, or a definition error about a child that is not a stage. *)
Inductive missing_child (QD Ext Loc : Type) (cls : QuestClass QD Ext Loc)
    (k : string) (items : list (string * Stage QD Ext Loc))
  : result unit -> Prop :=
| MissingChild (stage_name child_name : string) (S : Stage QD Ext Loc) :
    In (stage_name, S) items ->
    In child_name (children S) ->
    contains (stages cls) child_name = false ->
    missing_child cls k items
      (Raise (QuestDefinitionError
         (cat [repr cls k; " does not have stage named '"; child_name; "'"])
         None)).

Section LoadFacts.

Context {QD Ext Loc Doc : Type}.
Variable parse_obj : Doc -> string + StorageModel.
Variable VersionInfo_parse : string -> option VersionInfo.
Variable cls : QuestClass QD Ext Loc.
Variable db : string -> option Doc.

Local Abbreviation load_storage_model := (load_storage_model VersionInfo_parse cls).
Local Abbreviation load := (load parse_obj VersionInfo_parse cls db).
Local Abbreviation Quest_init := (Quest_init parse_obj VersionInfo_parse cls db).
Local Abbreviation load_stages := (load_stages cls).

Lemma add_children_cases (k : string) (g : graphlib.TopologicalSorter)
    (stage_name : string) (S : Stage QD Ext Loc) (chs : list string) :
  graphlib._ready_nodes g = None ->
  incl chs (children S) ->
  forall g' r, add_children cls k g stage_name chs = (g', r) ->
  graphlib._ready_nodes g' = None /\
  (r = Ok tt /\ (forall c, In c chs -> contains (stages cls) c = true)
   \/ missing_child cls k [(stage_name, S)] r).
Proof.
  revert g. induction chs as [|c chs IH]; intros g Hg Hincl g' r; simpl.
  - intros [= <- <-]. split; [assumption|]. left. split; [reflexivity|].
    intros ? [].
  - destruct (contains (stages cls) c) eqn:Ec; simpl.
    + destruct (add_unprepared g c [stage_name] Hg) as (g1 & -> & Hg1).
      intros H. apply IH in H; try assumption.
      * destruct H as [H1 [[-> H2]|H2]]; split; auto.
        left. split; [reflexivity|]. intros c' [<-|Hc']; auto.
      * intros x Hx. apply Hincl. now right.
    + intros [= <- <-]. split; [assumption|]. right.
      apply MissingChild with (stage_name := stage_name) (S := S).
      * now left.
      * apply Hincl. now left.
      * assumption.
Qed.

Lemma missing_child_incl (k : string) (l l' : list (string * Stage QD Ext Loc))
    (r : result unit) :
  incl l l' -> missing_child cls k l r -> missing_child cls k l' r.
Proof.
  intros Hi H. destruct H as [s c S H1 H2 H3].
  apply MissingChild with (stage_name := s) (S := S); auto.
Qed.

Lemma add_stages_cases (k : string) (items : list (string * Stage QD Ext Loc)) :
  forall g, graphlib._ready_nodes g = None ->
  forall g' r, add_stages cls k g items = (g', r) ->
  graphlib._ready_nodes g' = None /\
  (r = Ok tt /\
   (forall s S c, In (s, S) items -> In c (children S) ->
                  contains (stages cls) c = true)
   \/ missing_child cls k items r).
Proof.
  induction items as [|[s S] items IH]; intros g Hg g' r; simpl.
  - intros [= <- <-]. split; [assumption|]. left. split; [reflexivity|].
    intros ? ? ? [].
  - destruct (add_children cls k g s (children S)) as [g1 r1] eqn:E1.
    apply add_children_cases with (S := S) in E1; try assumption;
      [|apply incl_refl].
    destruct E1 as [Hg1 [[-> Hall]|Hm]].
    + intros H. apply IH in H; [|assumption].
      destruct H as [Hg' [[-> Hall']|Hm']]; split; auto.
      * left. split; [reflexivity|].
        intros s' S' c [[= <- <-]|Hin] Hc; eauto.
      * right. eapply missing_child_incl; [|eassumption].
        intros x Hx. now right.
    + pose proof Hm as Hm'. inversion Hm' as [s' c' S' H1 H2 H3 Er]; subst r1.
      intros [= <- <-]. split; [assumption|]. right.
      eapply missing_child_incl; [|eassumption].
      intros x [<-|[]]. now left.
Qed.
End LoadFacts.

(** ** Paths and cycles *)

Section Paths.
Variable R : string -> string -> Prop.

(** Consecutive elements are related. *)
Fixpoint path (l : list string) : Prop :=
  match l with
  | a :: (b :: _) as t => R a b /\ path t
  | _ => True
  end.

(** A closed walk [u; ...; u] along [R]. *)
Definition is_cycle (c : list string) : Prop :=
  path c /\ exists u mid, c = u :: mid ++ [u].

Lemma path_app_r (l1 l2 : list string) : path (l1 ++ l2) -> path l2.
Proof.
  induction l1 as [|a l1 IH]; simpl; [auto|].
  destruct (l1 ++ l2) eqn:E.
  - destruct l1; [simpl in E; subst; simpl; auto | discriminate].
  - intros [_ H]. auto.
Qed.

Lemma path_snoc (l : list string) (a b : string) :
  path (l ++ [a]) -> R a b -> path ((l ++ [a]) ++ [b]).
Proof.
  induction l as [|c l IH]; simpl.
  - auto.
  - destruct (l ++ [a]) eqn:E; [destruct l; discriminate|].
    simpl. intros [H1 H2] H. split; [assumption|]. now apply IH.
Qed.

Lemma path_clos_trans (l : list string) (a b : string) :
  path (a :: l ++ [b]) -> clos_trans string R a b.
Proof.
  revert a. induction l as [|c l IH]; intros a; simpl.
  - intros [H _]. now apply t_step.
  - intros [H1 H2]. eapply t_trans; [apply t_step; eassumption|]. now apply IH.
Qed.

Lemma is_cycle_clos_trans (c : list string) :
  is_cycle c -> exists u, In u c /\ clos_trans string R u u.
Proof.
  intros [Hp (u & mid & ->)]. exists u. split; [now left|].
  eapply path_clos_trans; eassumption.
Qed.

(** What is reachable from a set closed under [R] stays in it. *)
Lemma closed_reach (B : string -> Prop) :
  (forall u v, B u -> R u v -> B v) ->
  forall u v, clos_trans string R u v -> B u -> B v.
Proof.
  intros Hc u v H. induction H; eauto.
Qed.

Lemma closed_reach_rt (B : string -> Prop) :
  (forall u v, B u -> R u v -> B v) ->
  forall u v, clos_refl_trans string R u v -> B u -> B v.
Proof.
  intros Hc u v H. induction H; eauto.
Qed.
End Paths.

(** ** [_find_cycle]: a depth-first search that finds a cycle when there is
    one *)

Lemma nth_error_snoc_neq (l : list string) (x u : string) (i : nat) :
  u <> x -> (nth_error (l ++ [x]) i = Some u <-> nth_error l i = Some u).
Proof.
  intros N. destruct (Nat.lt_ge_cases i (List.length l)) as [L|L].
  - now rewrite nth_error_app1.
  - rewrite nth_error_app2 by assumption.
    assert (nth_error l i = None) as -> by now apply nth_error_None.
    destruct (i - List.length l) as [|[|n]]; simpl; split; congruence.
Qed.

Lemma nth_error_snoc_eq (l : list string) (x : string) (i : nat) :
  ~ In x l -> (nth_error (l ++ [x]) i = Some x <-> i = List.length l).
Proof.
  intros N. split.
  - intros H. destruct (Nat.lt_ge_cases i (List.length l)) as [L|L].
    + rewrite nth_error_app1 in H by assumption.
      apply nth_error_In in H. contradiction.
    + rewrite nth_error_app2 in H by assumption.
      destruct (i - List.length l) as [|[|n]] eqn:E; simpl in H;
        [lia | discriminate | discriminate].
  - intros ->. rewrite nth_error_app2 by lia. now rewrite Nat.sub_diag.
Qed.

Definition frames_weight (fr : list (string * list string)) : nat :=
  list_sum (map (fun f => List.length (snd f)) fr).

(** Edges leaving the nodes that have not been seen yet. *)
Definition unseen_weight (d : dict graphlib._NodeInfo) (seen : list string)
  : nat :=
  list_sum (map (fun kv => if mem (fst kv) seen then 0
                           else List.length (graphlib.successors (snd kv))) d).

Lemma unseen_weight_cons (k : string) (i : graphlib._NodeInfo)
    (d : dict graphlib._NodeInfo) (seen : list string) :
  unseen_weight ((k, i) :: d) seen =
  (if mem k seen then 0 else List.length (graphlib.successors i))
  + unseen_weight d seen.
Proof. reflexivity. Qed.

Lemma mem_cons (k x : string) (l : list string) :
  mem k (x :: l) = String.eqb k x || mem k l.
Proof. reflexivity. Qed.

Lemma unseen_weight_mono (d : dict graphlib._NodeInfo) (seen : list string)
    (x : string) :
  unseen_weight d (x :: seen) <= unseen_weight d seen.
Proof.
  induction d as [|[k i] d IH]; [apply Nat.le_refl|].
  rewrite !unseen_weight_cons, mem_cons.
  destruct (String.eqb k x); simpl; destruct (mem k seen); lia.
Qed.

Lemma unseen_weight_push (d : dict graphlib._NodeInfo) (seen : list string)
    (node : string) (info : graphlib._NodeInfo) :
  get d node = Some info -> mem node seen = false ->
  List.length (graphlib.successors info) + unseen_weight d (node :: seen)
  <= unseen_weight d seen.
Proof.
  intros Hg Hm. induction d as [|[k i] d IH]; simpl in Hg; [discriminate|].
  rewrite !unseen_weight_cons, mem_cons.
  destruct (String.eqb_spec k node) as [->|N].
  - injection Hg as ->. rewrite Hm. simpl.
    pose proof (unseen_weight_mono d seen node) as M. lia.
  - simpl. specialize (IH Hg). destruct (mem k seen); lia.
Qed.

Lemma unseen_weight_edge_count (d : dict graphlib._NodeInfo) (seen : list string) :
  unseen_weight d seen <= graphlib.edge_count d.
Proof.
  induction d as [|[k i] d IH]; [apply Nat.le_refl|].
  rewrite unseen_weight_cons. unfold graphlib.edge_count in *. simpl.
  destruct (mem k seen); lia.
Qed.

Lemma backtrack_weight (fr : list (string * list string)) :
  forall n2s nxt fr' n2s',
    graphlib.backtrack fr n2s = Some (nxt, fr', n2s') ->
    S (frames_weight fr') <= frames_weight fr.
Proof.
  unfold frames_weight.
  induction fr as [|[top its] fr IH]; intros n2s nxt fr' n2s'; simpl.
  - discriminate.
  - destruct its as [|c its].
    + intros H. apply IH in H. simpl. lia.
    + intros [= <- <- <-]. simpl. lia.
Qed.

Lemma backtrack_nonempty (fr : list (string * list string)) :
  forall n2s nxt fr' n2s',
    graphlib.backtrack fr n2s = Some (nxt, fr', n2s') -> fr' <> [].
Proof.
  induction fr as [|[top its] fr IH]; intros n2s nxt fr' n2s'; simpl.
  - discriminate.
  - destruct its as [|c its].
    + apply IH.
    + intros [= <- <- <-]. discriminate.
Qed.

Section FindCycle.

Variable n2i : dict graphlib._NodeInfo.

(** The successors of a node, and the edge relation of the graph. *)
Definition succs (u : string) : list string :=
  match get n2i u with
  | Some i => graphlib.successors i
  | None => []
  end.

Definition edge (u v : string) : Prop := In v (succs u).

(** Every successor has a record of its own ([add] creates both ends of
    an edge). *)
Definition closed_graph : Prop :=
  forall u v, edge u v -> contains n2i v = true.

Definition stack_of (fr : list (string * list string)) : list string :=
  map fst fr.

(** Seen and no longer on the stack. *)
Definition black (seen : list string) (fr : list (string * list string))
    (u : string) : Prop :=
  In u seen /\ ~ In u (stack_of fr).

(** Each frame is in the middle of its successors: those already handed
    out are finished, but for the last one, which is the frame above (or
    the node under examination). *)
Fixpoint chain (B : string -> Prop) (child : string)
    (fr : list (string * list string)) : Prop :=
  match fr with
  | [] => True
  | (u, its) :: rest =>
      (exists finished, succs u = finished ++ child :: its /\
                        forall c, In c finished -> B c)
      /\ chain B u rest
  end.

Definition settled (B : string -> Prop) (fr : list (string * list string))
  : Prop :=
  match fr with
  | [] => True
  | (u, its) :: rest =>
      (exists finished, succs u = finished ++ its /\
                        forall c, In c finished -> B c)
      /\ chain B u rest
  end.

Record dfs_inv (st : graphlib.dfs) : Prop := mkDfsInv {
  inv_nodup : NoDup (stack_of (graphlib.frames st));
  inv_seen : incl (stack_of (graphlib.frames st)) (graphlib.seen st);
  inv_keys : NoDup (keys (graphlib.node2stacki st));
  inv_index : forall u i,
      get (graphlib.node2stacki st) u = Some i <->
      nth_error (rev (stack_of (graphlib.frames st))) i = Some u;
  inv_closed : forall u v,
      black (graphlib.seen st) (graphlib.frames st) u -> edge u v ->
      black (graphlib.seen st) (graphlib.frames st) v;
  inv_acyclic : forall u,
      black (graphlib.seen st) (graphlib.frames st) u ->
      ~ clos_trans string edge u u
}.

(** A set of nodes closed under the edges and free of cycles. *)
Definition finished_set (sn : list string) : Prop :=
  (forall u v, In u sn -> edge u v -> In v sn) /\
  (forall u, In u sn -> ~ clos_trans string edge u u).

Lemma chain_mono (B B' : string -> Prop) (child : string)
    (fr : list (string * list string)) :
  (forall u, B u -> B' u) -> chain B child fr -> chain B' child fr.
Proof.
  intros HB. revert child. induction fr as [|[u its] fr IH]; intros child; simpl.
  - auto.
  - intros [(fin & E & Hf) Hc]. split; [|auto]. exists fin. split; auto.
Qed.

Lemma chain_path (B : string -> Prop) (child : string)
    (fr : list (string * list string)) :
  chain B child fr -> path edge (rev (stack_of fr) ++ [child]).
Proof.
  revert child. induction fr as [|[u its] fr IH]; intros child; simpl.
  - auto.
  - intros [(fin & E & _) Hc]. apply path_snoc; [now apply IH|].
    unfold edge. rewrite E. apply in_or_app. right. now left.
Qed.

Lemma chain_edge (B : string -> Prop) (child u : string) (its : list string)
    (fr : list (string * list string)) :
  chain B child ((u, its) :: fr) -> edge u child.
Proof.
  intros [(fin & E & _) _]. unfold edge. rewrite E.
  apply in_or_app. right. now left.
Qed.

Lemma backtrack_spec (fr : list (string * list string)) :
  forall seen n2s,
    dfs_inv (graphlib.mkDfs fr seen n2s) ->
    settled (black seen fr) fr ->
    match graphlib.backtrack fr n2s with
    | None => finished_set seen
    | Some (nxt, fr', n2s') =>
        dfs_inv (graphlib.mkDfs fr' seen n2s') /\
        chain (black seen fr') nxt fr'
    end.
Proof.
  induction fr as [|[top its] rest IH]; intros seen n2s Hinv Hset; simpl.
  - destruct Hinv as [_ _ _ _ Hc Ha]. simpl in *. split.
    + intros u v Hu He. apply (Hc u v); [split; auto | assumption].
    + intros u Hu. apply Ha. split; auto.
  - destruct its as [|nxt its'].
    + (* the top frame is exhausted: pop it *)
      destruct Hinv as [Hnd Hseen Hkeys Hidx Hc Ha]. simpl in *.
      inversion Hnd as [|? ? Hnotin Hnd']; subst.
      destruct Hset as [(fin & Efin & Hfin) Hchain].
      rewrite app_nil_r in Efin.
      assert (Htop : In top seen) by (apply Hseen; now left).
      assert (Hmono : forall u, black seen ((top, []) :: rest) u ->
                                black seen rest u).
      { intros u [H1 H2]. split; [assumption|]. intros H. apply H2. now right. }
      assert (Hsplit : forall u, black seen rest u ->
                                 u = top \/ black seen ((top, []) :: rest) u).
      { intros u [H1 H2]. destruct (string_dec u top) as [->|N]; [now left|].
        right. split; [assumption|]. simpl. intros [E|H]; [congruence | auto]. }
      assert (Hc' : forall u v, black seen rest u -> edge u v ->
                                black seen rest v).
      { intros u v Hu He. destruct (Hsplit u Hu) as [->|Hb].
        - apply Hmono, Hfin. unfold edge in He. now rewrite Efin in He.
        - apply Hmono. eapply Hc; eassumption. }
      apply IH.
      * constructor; simpl.
        -- assumption.
        -- intros u Hu. apply Hseen. now right.
        -- now apply NoDup_keys_del.
        -- intros u i. destruct (string_dec u top) as [->|N].
           ++ rewrite get_del_same by assumption. split; [discriminate|].
              intros H. apply nth_error_In, in_rev in H. contradiction.
           ++ rewrite get_del_other by congruence. rewrite Hidx.
              now apply nth_error_snoc_neq.
        -- assumption.
        -- intros u Hu Hcyc. destruct (Hsplit u Hu) as [->|Hb].
           ++ apply clos_trans_t1n in Hcyc.
              assert (Hv : exists v, edge top v /\ clos_refl_trans string edge v top).
              { inversion Hcyc as [? He|v ? He Hr]; subst.
                - exists top. split; [assumption | apply rt_refl].
                - exists v. split; [assumption|].
                  apply clos_t_clos_rt, clos_t1n_trans. exact Hr. }
              destruct Hv as (v & He & Hr).
              assert (Hbv : black seen ((top, []) :: rest) v).
              { apply Hfin. unfold edge in He. now rewrite Efin in He. }
              assert (Hbt : black seen ((top, []) :: rest) top).
              { eapply closed_reach_rt; [exact Hc | exact Hr | exact Hbv]. }
              destruct Hbt as [_ Hbt]. apply Hbt. now left.
           ++ eapply Ha; eassumption.
      * destruct rest as [|[u its_u] rest']; simpl; [exact I|].
        simpl in Hchain. destruct Hchain as [(fin_u & Eu & Hfu) Hch].
        split.
        -- exists (fin_u ++ [top]). split.
           ++ now rewrite <- app_assoc.
           ++ intros c Hc0. apply in_app_or in Hc0. destruct Hc0 as [Hc0|[<-|[]]].
              ** apply Hmono. auto.
              ** split; assumption.
        -- eapply chain_mono; [|eassumption]. exact Hmono.
    + (* hand out the next successor of the top frame *)
      split.
      * destruct Hinv as [Hnd Hseen Hkeys Hidx Hc Ha]. now constructor.
      * simpl. exact Hset.
Qed.

Hypothesis Hclosed : closed_graph.

Local Arguments graphlib.backtrack : simpl never.

Lemma visit_spec (fuel : nat) :
  forall node st,
    dfs_inv st ->
    chain (black (graphlib.seen st) (graphlib.frames st)) node (graphlib.frames st) ->
    contains n2i node = true ->
    frames_weight (graphlib.frames st) + unseen_weight n2i (graphlib.seen st) < fuel ->
    match graphlib.visit fuel n2i node st with
    | graphlib.Overrun => False
    | graphlib.Failed _ => False
    | graphlib.Found c => is_cycle edge c
    | graphlib.Exhausted sn =>
        finished_set sn /\ incl (graphlib.seen st) sn /\ In node sn
    end.
Proof.
  induction fuel as [|fuel IH]; intros node st Hinv Hchain Hnode Hfuel;
    [lia|].
  (* what happens after the node has been dealt with *)
  assert (Hcont : forall st',
    dfs_inv st' ->
    settled (black (graphlib.seen st') (graphlib.frames st')) (graphlib.frames st') ->
    incl (graphlib.seen st) (graphlib.seen st') ->
    In node (graphlib.seen st') ->
    frames_weight (graphlib.frames st') + unseen_weight n2i (graphlib.seen st') < S fuel ->
    match
      match graphlib.backtrack (graphlib.frames st') (graphlib.node2stacki st') with
      | None => graphlib.Exhausted (graphlib.seen st')
      | Some (nxt, fr, n2s) =>
          graphlib.visit fuel n2i nxt (graphlib.mkDfs fr (graphlib.seen st') n2s)
      end
    with
    | graphlib.Overrun => False
    | graphlib.Failed _ => False
    | graphlib.Found c => is_cycle edge c
    | graphlib.Exhausted sn =>
        finished_set sn /\ incl (graphlib.seen st) sn /\ In node sn
    end).
  { intros [fr' seen' n2s'] Hinv' Hset' Hincl Hin Hw. simpl in *.
    pose proof (backtrack_spec Hinv' Hset') as Hb.
    destruct (graphlib.backtrack fr' n2s') as [[[nxt fr''] n2s'']|] eqn:Eb.
    - destruct Hb as [Hinv'' Hchain''].
      pose proof (backtrack_weight _ _ Eb) as Hbw.
      assert (Hnxt : contains n2i nxt = true).
      { destruct fr'' as [|[u its] fr''];
          [exfalso; exact (backtrack_nonempty _ _ Eb eq_refl)|].
        eapply Hclosed, chain_edge. exact Hchain''. }
      specialize (IH nxt (graphlib.mkDfs fr'' seen' n2s'') Hinv'' Hchain'' Hnxt).
      simpl in IH. specialize (IH ltac:(lia)).
      destruct (graphlib.visit fuel n2i nxt (graphlib.mkDfs fr'' seen' n2s''));
        try assumption.
      destruct IH as (H1 & H2 & H3). repeat split; try apply H1.
      + intros u Hu. auto.
      + auto.
    - repeat split; try apply Hb; assumption. }
  simpl. destruct (mem node (graphlib.seen st)) eqn:Em.
  - apply mem_In in Em.
    destruct (get (graphlib.node2stacki st) node) as [i|] eqn:Ei.
    + (* the node is on the stack: a cycle *)
      apply (inv_index Hinv) in Ei.
      unfold graphlib.stack_from.
      replace (List.length (graphlib.frames st))
        with (List.length (stack_of (graphlib.frames st)))
        by apply length_map.
      fold (stack_of (graphlib.frames st)). rewrite <- skipn_rev.
      destruct (nth_error_split _ _ Ei) as (l1 & l2 & E & Hl).
      pose proof (chain_path _ _ _ Hchain) as Hp.
      rewrite E in *. rewrite <- Hl.
      rewrite skipn_app, skipn_all, Nat.sub_diag. simpl.
      split.
      * rewrite <- app_assoc in Hp. apply path_app_r in Hp. exact Hp.
      * exists node, l2. reflexivity.
    + (* the node is finished already *)
      assert (Hb : black (graphlib.seen st) (graphlib.frames st) node).
      { split; [assumption|]. intros H. apply in_rev in H.
        apply In_nth_error in H. destruct H as [i H].
        apply (inv_index Hinv) in H. congruence. }
      apply Hcont; try assumption.
      * destruct (graphlib.frames st) as [|[u its] rest]; simpl; [exact I|].
        simpl in Hchain. destruct Hchain as [(fin & E & Hf) Hch].
        split; [|assumption]. exists (fin ++ [node]). split.
        -- now rewrite <- app_assoc.
        -- intros c Hc. apply in_app_or in Hc. destruct Hc as [Hc|[<-|[]]]; auto.
      * apply incl_refl.
  - apply mem_not_In in Em.
    destruct (get n2i node) as [info|] eqn:Eg;
      [|unfold contains in Hnode; rewrite Eg in Hnode; discriminate].
    destruct Hinv as [Hnd Hseen Hkeys Hidx Hc Ha].
    assert (Hns : ~ In node (stack_of (graphlib.frames st))) by auto.
    assert (Hsame : forall u,
      black (node :: graphlib.seen st)
            ((node, graphlib.successors info) :: graphlib.frames st) u <->
      black (graphlib.seen st) (graphlib.frames st) u).
    { intros u. unfold black. simpl. split.
      - intros [[<-|H1] H2]; [exfalso; apply H2; now left|].
        split; [assumption|]. intros H. apply H2. now right.
      - intros [H1 H2]. split; [now right|].
        intros [<-|H]; [contradiction | contradiction]. }
    apply (Hcont (graphlib.mkDfs
                    ((node, graphlib.successors info) :: graphlib.frames st)
                    (node :: graphlib.seen st)
                    (set (graphlib.node2stacki st) node
                         (List.length (graphlib.frames st))))); simpl.
    + constructor; simpl.
      * constructor; assumption.
      * intros u [<-|Hu]; [now left | right; auto].
      * now apply NoDup_keys_set.
      * intros u i. rewrite get_set.
        replace (List.length (graphlib.frames st))
          with (List.length (rev (stack_of (graphlib.frames st))))
          by (rewrite length_rev; apply length_map).
        destruct (String.eqb_spec node u) as [<-|N].
        -- rewrite nth_error_snoc_eq by (rewrite <- in_rev; assumption).
           split; [intros [= <-]; reflexivity | intros ->; reflexivity].
        -- rewrite nth_error_snoc_neq by congruence. apply Hidx.
      * intros u v Hu He. apply Hsame. apply Hsame in Hu. eapply Hc; eassumption.
      * intros u Hu. apply Hsame in Hu. now apply Ha.
    + split.
      * exists []. split; [|intros ? []]. unfold succs. now rewrite Eg.
      * eapply chain_mono; [|exact Hchain]. intros u Hu. now apply Hsame.
    + intros u Hu. now right.
    + now left.
    + pose proof (unseen_weight_push n2i (graphlib.seen st) node Eg) as Hp.
      rewrite (proj2 (mem_not_In _ _) Em) in Hp. specialize (Hp eq_refl).
      unfold frames_weight in *. simpl. lia.
Qed.

Lemma find_from_spec (roots : list string) :
  forall seen0,
    (forall r, In r roots -> contains n2i r = true) ->
    finished_set seen0 ->
    match graphlib.find_from n2i roots seen0 with
    | graphlib.Overrun => False
    | graphlib.Failed _ => False
    | graphlib.Found c => is_cycle edge c
    | graphlib.Exhausted sn =>
        finished_set sn /\ incl seen0 sn /\ incl roots sn
    end.
Proof.
  induction roots as [|node rest IH]; intros seen0 Hroots Hfin;
    cbn [graphlib.find_from].
  - repeat split; try apply Hfin; [apply incl_refl | intros ? []].
  - destruct (mem node seen0) eqn:Em.
    + specialize (IH seen0 (fun r H => Hroots r (or_intror H)) Hfin).
      destruct (graphlib.find_from n2i rest seen0); try assumption.
      destruct IH as (H1 & H2 & H3). repeat split; try apply H1; auto.
      intros u [<-|Hu]; [apply H2; now apply mem_In | auto].
    + assert (Hinv : dfs_inv (graphlib.mkDfs [] seen0 [])).
      { destruct Hfin as [Hc Ha]. constructor; simpl.
        - constructor.
        - intros ? [].
        - constructor.
        - intros u i. split; [discriminate|]. now destruct i.
        - intros u v [Hu _] He. split; [eauto | intros []].
        - intros u [Hu _]. auto. }
      pose proof (@visit_spec (S (graphlib.edge_count n2i)) node
                    (graphlib.mkDfs [] seen0 []) Hinv I
                    (Hroots node (or_introl eq_refl))) as Hv.
      pose proof (unseen_weight_edge_count n2i seen0) as Hw.
      cbn [graphlib.frames graphlib.seen] in Hv.
      specialize (Hv ltac:(unfold frames_weight; simpl; lia)).
      destruct (graphlib.visit (S (graphlib.edge_count n2i)) n2i node
                  (graphlib.mkDfs [] seen0 [])) as [| |c|seen1];
        try assumption.
      destruct Hv as (Hf1 & Hi1 & Hn1).
      specialize (IH seen1 (fun r H => Hroots r (or_intror H)) Hf1).
      destruct (graphlib.find_from n2i rest seen1); try assumption.
      destruct IH as (H1 & H2 & H3). repeat split; try apply H1.
      * intros u Hu. auto.
      * intros u [<-|Hu]; auto.
Qed.

(** [_find_cycle] returns within its budget, with a cycle of the graph
    if there is one and with nothing otherwise. *)
Lemma find_cycle_spec (ts : graphlib.TopologicalSorter) :
  graphlib._node2info ts = n2i ->
  match graphlib._find_cycle ts with
  | graphlib.Overrun => False
  | graphlib.Failed _ => False
  | graphlib.Found c => is_cycle edge c
  | graphlib.Exhausted _ => forall u, ~ clos_trans string edge u u
  end.
Proof.
  intros E. unfold graphlib._find_cycle. rewrite E.
  assert (Hfin0 : finished_set []) by (split; [intros ? ? [] | intros ? []]).
  pose proof (@find_from_spec (keys n2i) []
                (fun r H => proj2 (contains_keys n2i r) H) Hfin0) as H.
  destruct (graphlib.find_from n2i (keys n2i) []); try assumption.
  destruct H as ((_ & Ha) & _ & Hk).
  intros u Hcyc. apply (Ha u); [|assumption].
  apply Hk. apply clos_trans_t1n in Hcyc.
  assert (He : exists v, edge u v) by (inversion Hcyc; eauto).
  destruct He as (v & He). unfold edge, succs in He.
  destruct (get n2i u) eqn:Eg; [|contradiction].
  eapply get_Some_keys; eassumption.
Qed.

End FindCycle.

(** ** The bookkeeping of the sorter *)

(** Sums over the records of the graph. *)
Definition dsum (f : graphlib._NodeInfo -> nat) (d : dict graphlib._NodeInfo)
  : nat :=
  list_sum (map (fun kv => f (snd kv)) d).

Lemma dsum_set_present (f : graphlib._NodeInfo -> nat)
    (d : dict graphlib._NodeInfo) (k : string) (v v' : graphlib._NodeInfo) :
  get d k = Some v -> dsum f (set d k v') + f v = dsum f d + f v'.
Proof.
  unfold dsum. induction d as [|[k0 v0] d IH]; simpl; [discriminate|].
  destruct (String.eqb_spec k0 k) as [->|N]; simpl.
  - intros [= ->]. lia.
  - intros H. specialize (IH H). lia.
Qed.

Lemma dsum_set_absent (f : graphlib._NodeInfo -> nat)
    (d : dict graphlib._NodeInfo) (k : string) (v' : graphlib._NodeInfo) :
  get d k = None -> dsum f (set d k v') = dsum f d + f v'.
Proof.
  unfold dsum. induction d as [|[k0 v0] d IH]; simpl; [lia|].
  destruct (String.eqb_spec k0 k) as [->|N]; simpl.
  - discriminate.
  - intros H. specialize (IH H). lia.
Qed.

(** How many times [n] is listed as a successor of a record that is not
    done yet. *)
Definition waits_on (n : string) (i : graphlib._NodeInfo) : nat :=
  if Z.eqb (graphlib.npredecessors i) graphlib._NODE_DONE then 0
  else count_occ string_dec (graphlib.successors i) n.

(** The number of edges into [n] whose source is not done yet. *)
Definition pending (d : dict graphlib._NodeInfo) (n : string) : nat :=
  dsum (waits_on n) d.

(** [npredecessors] of a node: a count, or one of the two marks. *)
Definition status (d : dict graphlib._NodeInfo) (n : string) : option Z :=
  option_map graphlib.npredecessors (get d n).

Lemma pending_set_same (d : dict graphlib._NodeInfo) (k : string)
    (v v' : graphlib._NodeInfo) (n : string) :
  get d k = Some v -> waits_on n v' = waits_on n v ->
  pending (set d k v') n = pending d n.
Proof.
  intros Hg Hw. pose proof (dsum_set_present (waits_on n) d k v' Hg) as H.
  unfold pending. lia.
Qed.

Lemma pending_zero (d : dict graphlib._NodeInfo) (n p : string)
    (i : graphlib._NodeInfo) :
  pending d n = 0 -> In (p, i) d -> In n (graphlib.successors i) ->
  graphlib.npredecessors i = graphlib._NODE_DONE.
Proof.
  unfold pending, dsum. induction d as [|[k v] d IH]; simpl; [contradiction|].
  intros Hs [[= -> ->]|Hin] Hn.
  - unfold waits_on in Hs.
    destruct (Z.eqb_spec (graphlib.npredecessors i) graphlib._NODE_DONE);
      [assumption|].
    apply (count_occ_In string_dec) in Hn. lia.
  - apply IH; [lia | assumption | assumption].
Qed.

(** The sorter between [prepare] and the end of its life. *)
Record sorter_wf (ts : graphlib.TopologicalSorter) : Prop := mkSorterWf {
  wf_keys : NoDup (keys (graphlib._node2info ts));
  wf_closed : closed_graph (graphlib._node2info ts);
  wf_count : forall n i,
      get (graphlib._node2info ts) n = Some i ->
      (0 <= graphlib.npredecessors i)%Z ->
      graphlib.npredecessors i = Z.of_nat (pending (graphlib._node2info ts) n);
  wf_mark : forall n i,
      get (graphlib._node2info ts) n = Some i ->
      (graphlib.npredecessors i < 0)%Z ->
      (graphlib.npredecessors i = graphlib._NODE_OUT \/
       graphlib.npredecessors i = graphlib._NODE_DONE) /\
      pending (graphlib._node2info ts) n = 0;
  wf_ready : exists ready,
      graphlib._ready_nodes ts = Some ready /\ NoDup ready /\
      forall n, In n ready <-> status (graphlib._node2info ts) n = Some 0%Z
}.

(** *** [get_ready] *)

Definition not_done (d : dict graphlib._NodeInfo) (n : string) : Prop :=
  exists i, get d n = Some i /\ graphlib.npredecessors i <> graphlib._NODE_DONE.

Lemma succs_set (d : dict graphlib._NodeInfo) (k : string)
    (i : graphlib._NodeInfo) (z : Z) (n : string) :
  get d k = Some i ->
  succs (set d k (graphlib.mkNodeInfo z (graphlib.successors i))) n = succs d n.
Proof.
  intros Hg. unfold succs. rewrite get_set.
  destruct (String.eqb_spec k n) as [<-|N]; [now rewrite Hg | reflexivity].
Qed.

Lemma status_set (d : dict graphlib._NodeInfo) (k : string)
    (i : graphlib._NodeInfo) (n : string) :
  status (set d k i) n =
  if String.eqb k n then Some (graphlib.npredecessors i) else status d n.
Proof.
  unfold status. rewrite get_set. now destruct (String.eqb k n).
Qed.

Lemma keys_set_present (d : dict graphlib._NodeInfo) (k : string)
    (i v : graphlib._NodeInfo) :
  get d k = Some i -> keys (set d k v) = keys d.
Proof.
  intros Hg. rewrite keys_set. unfold contains. now rewrite Hg.
Qed.

Lemma mark_out_spec (nodes : list string) :
  forall d,
    (forall n, In n nodes -> not_done d n) ->
    exists d',
      graphlib.mark_out d nodes = (d', Ok tt) /\
      keys d' = keys d /\
      (forall n, succs d' n = succs d n) /\
      (forall n, pending d' n = pending d n) /\
      (forall n, status d' n =
                 if mem n nodes then Some graphlib._NODE_OUT else status d n).
Proof.
  induction nodes as [|node rest IH]; intros d Hst; simpl.
  - exists d. repeat split; reflexivity.
  - destruct (Hst node (or_introl eq_refl)) as (i & Eg & Hn). rewrite Eg.
    set (v := graphlib.mkNodeInfo graphlib._NODE_OUT (graphlib.successors i)).
    destruct (IH (set d node v)) as (d' & E & Hk & Hs & Hp & Hs').
    { intros n Hin. unfold not_done. rewrite get_set.
      destruct (String.eqb_spec node n) as [<-|N].
      - exists v. split; [reflexivity | discriminate].
      - apply Hst. now right. }
    exists d'. split; [exact E|]. split; [|split; [|split]].
    + rewrite Hk. eapply keys_set_present; eassumption.
    + intros n. rewrite Hs. now apply succs_set.
    + intros n. rewrite Hp. apply pending_set_same with (v := i); [assumption|].
      unfold waits_on, v. simpl.
      destruct (Z.eqb_spec (graphlib.npredecessors i) graphlib._NODE_DONE);
        [contradiction | reflexivity].
    + intros n. rewrite Hs', status_set. rewrite (String.eqb_sym n node).
      destruct (String.eqb node n); simpl; [|reflexivity].
      now destruct (mem n rest).
Qed.

Lemma status_Some (d : dict graphlib._NodeInfo) (n : string) (z : Z) :
  status d n = Some z <->
  exists i, get d n = Some i /\ graphlib.npredecessors i = z.
Proof.
  unfold status. destruct (get d n) as [i|]; simpl.
  - split; [intros [= <-]; eauto | intros (i' & [= <-] & <-); reflexivity].
  - split; [discriminate | intros (i' & ? & _); discriminate].
Qed.

Lemma closed_graph_ext (d d' : dict graphlib._NodeInfo) :
  keys d' = keys d -> (forall n, succs d' n = succs d n) ->
  closed_graph d -> closed_graph d'.
Proof.
  intros Hk Hs Hc u v He. unfold edge in He. rewrite Hs in He.
  apply contains_keys. rewrite Hk. apply contains_keys. eapply Hc. exact He.
Qed.

Lemma get_ready_spec (ts : graphlib.TopologicalSorter) :
  sorter_wf ts ->
  exists ts' ready,
    graphlib.get_ready ts = (ts', Ok ready) /\
    graphlib._ready_nodes ts = Some ready /\
    graphlib._ready_nodes ts' = Some [] /\
    sorter_wf ts' /\
    keys (graphlib._node2info ts') = keys (graphlib._node2info ts) /\
    (forall n, succs (graphlib._node2info ts') n = succs (graphlib._node2info ts) n) /\
    (forall n, pending (graphlib._node2info ts') n = pending (graphlib._node2info ts) n) /\
    (forall n, status (graphlib._node2info ts') n =
               if mem n ready then Some graphlib._NODE_OUT
               else status (graphlib._node2info ts) n).
Proof.
  intros [Hk Hc Hcount Hmark (ready & Er & Hnd & Hr)].
  unfold graphlib.get_ready. rewrite Er.
  destruct (@mark_out_spec ready (graphlib._node2info ts))
    as (d' & E & Hk' & Hs' & Hp' & Hst').
  { intros n Hn. apply Hr, status_Some in Hn. destruct Hn as (i & Hg & Hz).
    exists i. split; [assumption|]. rewrite Hz. discriminate. }
  rewrite E. eexists. exists ready. split; [reflexivity|].
  split; [reflexivity|]. split; [reflexivity|]. simpl.
  split; [|repeat split; assumption].
  constructor; simpl.
  - now rewrite Hk'.
  - eapply closed_graph_ext; eassumption.
  - intros n i Hg Hpos.
    assert (Hs : status d' n = Some (graphlib.npredecessors i))
      by (apply status_Some; eauto).
    rewrite Hst' in Hs. destruct (mem n ready).
    + injection Hs as Hs. unfold graphlib._NODE_OUT in Hs. lia.
    + apply status_Some in Hs. destruct Hs as (i0 & Hg0 & Hz0).
      rewrite Hp', <- Hz0. apply Hcount; [assumption | lia].
  - intros n i Hg Hneg.
    assert (Hs : status d' n = Some (graphlib.npredecessors i))
      by (apply status_Some; eauto).
    rewrite Hst' in Hs. destruct (mem n ready) eqn:Em.
    + injection Hs as Hs. split; [now left|].
      apply mem_In, Hr, status_Some in Em. destruct Em as (i0 & Hg0 & Hz0).
      rewrite Hp'. pose proof (Hcount n i0 Hg0) as H0. lia.
    + apply status_Some in Hs. destruct Hs as (i0 & Hg0 & Hz0).
      rewrite Hp', <- Hz0. apply (Hmark n i0); [assumption | lia].
  - exists []. split; [reflexivity|]. split; [constructor|].
    intros n. split; [intros []|]. intros Hs. rewrite Hst' in Hs.
    destruct (mem n ready) eqn:Em; [discriminate|].
    apply Hr in Hs. apply mem_In in Hs. congruence.
Qed.

(** *** [done] *)

(** The loop of [done] over the successors still to release, [rest]:
    [P] is the number of pending edges once the loop is over. *)
Record release_inv (P : string -> nat) (d1 d' : dict graphlib._NodeInfo)
    (ready' rest : list string) : Prop := mkReleaseInv {
  ri_keys : keys d' = keys d1;
  ri_succs : forall n, succs d' n = succs d1 n;
  ri_pending : forall n, pending d' n = P n;
  ri_count : forall n i,
      get d' n = Some i -> (0 <= graphlib.npredecessors i)%Z ->
      graphlib.npredecessors i = Z.of_nat (P n + count_occ string_dec rest n);
  ri_mark : forall n i,
      get d' n = Some i -> (graphlib.npredecessors i < 0)%Z ->
      (graphlib.npredecessors i = graphlib._NODE_OUT \/
       graphlib.npredecessors i = graphlib._NODE_DONE) /\
      P n = 0 /\ count_occ string_dec rest n = 0;
  ri_nodup : NoDup ready';
  ri_ready : forall n, In n ready' <-> status d' n = Some 0%Z;
  ri_rest : forall s, In s rest -> contains d' s = true
}.

Lemma release_spec (P : string -> nat) (d1 : dict graphlib._NodeInfo)
    (rest : list string) :
  forall d' ready',
    release_inv P d1 d' ready' rest ->
    exists d'' ready'',
      graphlib.release d' ready' rest = (d'', ready'', Ok tt) /\
      release_inv P d1 d'' ready'' [] /\
      (forall n z, (z < 0)%Z ->
                   (status d'' n = Some z <-> status d' n = Some z)) /\
      incl ready' ready''.
Proof.
  induction rest as [|s rest IH]; intros d' ready' Hinv; simpl.
  - exists d', ready'. split; [reflexivity|]. split; [assumption|].
    split; [tauto | apply incl_refl].
  - destruct Hinv as [Hk Hs Hp Hcount Hmark Hnd Hr Hrest].
    pose proof (Hrest s (or_introl eq_refl)) as Hc. unfold contains in Hc.
    destruct (get d' s) as [si|] eqn:Eg; [clear Hc | discriminate].
    assert (Hpos : (1 <= graphlib.npredecessors si)%Z).
    { destruct (Z.lt_ge_cases (graphlib.npredecessors si) 0) as [L|L].
      - destruct (Hmark s si Eg L) as (_ & _ & H0).
        rewrite count_occ_cons_eq in H0 by reflexivity. discriminate.
      - rewrite (Hcount s si Eg L).
        rewrite count_occ_cons_eq by reflexivity. lia. }
    set (z := (graphlib.npredecessors si - 1)%Z).
    set (v := graphlib.mkNodeInfo z (graphlib.successors si)).
    assert (Hs_nr : ~ In s ready').
    { intros H. apply Hr, status_Some in H. destruct H as (i & Hi & Hz).
      rewrite Eg in Hi. injection Hi as <-. lia. }
    destruct (IH (set d' s v) (if Z.eqb z 0 then ready' ++ [s] else ready'))
      as (d'' & ready'' & E & Hinv'' & Hneg & Hincl).
    { constructor.
      - rewrite <- Hk. eapply keys_set_present; eassumption.
      - intros n. rewrite <- Hs. now apply succs_set.
      - intros n. rewrite <- Hp. apply pending_set_same with (v := si);
          [assumption|]. unfold waits_on, v, graphlib._NODE_DONE. simpl.
        destruct (Z.eqb_spec z (-2)); [lia|].
        destruct (Z.eqb_spec (graphlib.npredecessors si) (-2)); [lia | reflexivity].
      - intros n i Hg Hge. rewrite get_set in Hg.
        destruct (String.eqb_spec s n) as [<-|N].
        + injection Hg as <-. simpl. unfold z.
          rewrite (Hcount s si Eg) by lia.
          rewrite count_occ_cons_eq by reflexivity. lia.
        + rewrite (Hcount n i Hg Hge).
          now rewrite count_occ_cons_neq by assumption.
      - intros n i Hg Hlt. rewrite get_set in Hg.
        destruct (String.eqb_spec s n) as [<-|N].
        + injection Hg as <-. simpl in Hlt. unfold z in Hlt. lia.
        + destruct (Hmark n i Hg Hlt) as (H1 & H2 & H3).
          rewrite count_occ_cons_neq in H3 by assumption. auto.
      - destruct (Z.eqb z 0); [|assumption].
        apply NoDup_app; [assumption | repeat constructor; intros [] |].
        intros a Ha [<-|[]]. contradiction.
      - intros n. rewrite status_set. simpl.
        destruct (String.eqb_spec s n) as [<-|N].
        + destruct (Z.eqb_spec z 0) as [->|Nz].
          * split; [reflexivity|]. intros _. apply in_or_app. right. now left.
          * split; [contradiction | congruence].
        + rewrite <- Hr. destruct (Z.eqb z 0); [|reflexivity].
          rewrite in_app_iff. simpl. intuition congruence.
      - intros s' Hs'. apply contains_keys.
        rewrite (@keys_set_present d' s si v Eg). apply contains_keys.
        apply Hrest. now right. }
    rewrite E.
    exists d'', ready''. split; [reflexivity|]. split; [assumption|]. split.
    + intros n zz Hzz. rewrite Hneg by assumption. rewrite status_set.
      destruct (String.eqb_spec s n) as [<-|N]; [|reflexivity].
      simpl. unfold status. rewrite Eg. simpl. unfold z.
      split; intros [= H]; lia.
    + intros a Ha. apply Hincl. destruct (Z.eqb z 0); [|assumption].
      apply in_or_app. now left.
Qed.

Lemma done_spec (ts : graphlib.TopologicalSorter) (node : string) :
  sorter_wf ts ->
  status (graphlib._node2info ts) node = Some graphlib._NODE_OUT ->
  exists ts',
    graphlib.done ts node = (ts', Ok tt) /\
    sorter_wf ts' /\
    keys (graphlib._node2info ts') = keys (graphlib._node2info ts) /\
    (forall n, succs (graphlib._node2info ts') n = succs (graphlib._node2info ts) n) /\
    status (graphlib._node2info ts') node = Some graphlib._NODE_DONE /\
    (forall n z, n <> node -> (z < 0)%Z ->
       (status (graphlib._node2info ts') n = Some z <->
        status (graphlib._node2info ts) n = Some z)).
Proof.
  intros [Hk Hc Hcount Hmark (ready & Er & Hnd & Hr)] Hst.
  apply status_Some in Hst. destruct Hst as (nodeinfo & Eg & Hout).
  unfold graphlib.done. rewrite Er, Eg, Hout. simpl.
  set (d := graphlib._node2info ts) in *.
  set (v := graphlib.mkNodeInfo graphlib._NODE_DONE (graphlib.successors nodeinfo)).
  set (d1 := set d node v).
  assert (Hpend : forall n, pending d n =
                    pending d1 n + count_occ string_dec (graphlib.successors nodeinfo) n).
  { intros n. pose proof (dsum_set_present (waits_on n) d node v Eg) as H.
    unfold pending, d1. unfold waits_on at 2 4 in H. simpl in H.
    rewrite Hout in H. simpl in H. lia. }
  destruct (@release_spec (pending d1) d1 (graphlib.successors nodeinfo) d1 ready)
    as (d'' & ready'' & E & Hinv & Hneg & Hincl).
  { constructor; try reflexivity; try assumption.
    - intros n i Hg Hge. unfold d1 in Hg. rewrite get_set in Hg.
      destruct (String.eqb_spec node n) as [<-|N].
      + injection Hg as <-. simpl in Hge. unfold graphlib._NODE_DONE in Hge. lia.
      + rewrite (Hcount n i Hg Hge), Hpend. reflexivity.
    - intros n i Hg Hlt. unfold d1 in Hg. rewrite get_set in Hg.
      destruct (String.eqb_spec node n) as [<-|N].
      + injection Hg as <-. simpl. split; [now right|].
        destruct (Hmark node nodeinfo Eg) as (_ & H0);
          [rewrite Hout; reflexivity|].
        rewrite Hpend in H0. lia.
      + destruct (Hmark n i Hg Hlt) as (H1 & H0). split; [assumption|].
        rewrite Hpend in H0. lia.
    - intros n. rewrite Hr. unfold d1. rewrite status_set.
      destruct (String.eqb_spec node n) as [<-|N]; [|reflexivity].
      simpl. unfold status. rewrite Eg. simpl. rewrite Hout.
      split; discriminate.
    - intros s Hs. apply contains_keys. unfold d1.
      rewrite (@keys_set_present d node nodeinfo v Eg). apply contains_keys.
      apply (Hc node s). unfold edge, succs. fold d. now rewrite Eg. }
  rewrite E. destruct Hinv as [Hk' Hs' Hp' Hcount' Hmark' Hnd' Hr' _].
  assert (Hkd : keys d'' = keys d).
  { rewrite Hk'. unfold d1. eapply keys_set_present; eassumption. }
  assert (Hsd : forall n, succs d'' n = succs d n).
  { intros n. rewrite Hs'. unfold d1, v. now apply succs_set. }
  eexists. split; [reflexivity|]. simpl. split; [|split; [|split; [|split]]].
  - constructor; simpl.
    + now rewrite Hkd.
    + eapply closed_graph_ext; eassumption.
    + intros n i Hg Hge. rewrite (Hcount' n i Hg Hge). simpl.
      now rewrite Hp', Nat.add_0_r.
    + intros n i Hg Hlt. destruct (Hmark' n i Hg Hlt) as (H1 & H2 & _).
      now rewrite Hp'.
    + exists ready''. auto.
  - assumption.
  - assumption.
  - rewrite Hneg by reflexivity. unfold d1. rewrite status_set.
    now rewrite String.eqb_refl.
  - intros n z N Hz. rewrite Hneg by assumption. unfold d1.
    rewrite status_set. destruct (String.eqb_spec node n); [congruence | reflexivity].
Qed.

(** ** Building the graph: [add] and [prepare] *)

(** The graph while edges are being added: every count is the number of
    edges into its node. *)
Record built (d : dict graphlib._NodeInfo) : Prop := mkBuilt {
  b_keys : NoDup (keys d);
  b_closed : closed_graph d;
  b_count : forall n i,
      get d n = Some i ->
      (0 <= graphlib.npredecessors i)%Z /\
      graphlib.npredecessors i = Z.of_nat (pending d n)
}.

Lemma pending_absent (d : dict graphlib._NodeInfo) (n : string) :
  NoDup (keys d) -> closed_graph d -> get d n = None -> pending d n = 0.
Proof.
  intros Hk Hc Hn.
  assert (H : forall p i, In (p, i) d -> ~ In n (graphlib.successors i)).
  { intros p i Hin Hs. apply get_NoDup_In in Hin; [|assumption].
    assert (He : edge d p n) by (unfold edge, succs; now rewrite Hin).
    apply Hc in He. unfold contains in He. now rewrite Hn in He. }
  clear Hk Hc Hn. unfold pending, dsum.
  induction d as [|[k v] d IH]; simpl; [reflexivity|].
  rewrite IH by (intros p i Hin; apply (H p i); now right).
  unfold waits_on. destruct (Z.eqb _ _); [reflexivity|].
  rewrite (proj1 (count_occ_not_In string_dec _ _)); [reflexivity|].
  apply (H k v). now left.
Qed.

Lemma built_ensure (d : dict graphlib._NodeInfo) (node : string) :
  built d ->
  built (graphlib._get_nodeinfo d node) /\
  contains (graphlib._get_nodeinfo d node) node = true /\
  (forall n, succs (graphlib._get_nodeinfo d node) n = succs d n) /\
  (forall n, pending (graphlib._get_nodeinfo d node) n = pending d n) /\
  (forall n, In n (keys (graphlib._get_nodeinfo d node)) <-> n = node \/ In n (keys d)).
Proof.
  intros [Hk Hc Hcount]. unfold graphlib._get_nodeinfo.
  destruct (get d node) as [i|] eqn:Eg.
  - split; [now constructor|]. split; [unfold contains; now rewrite Eg|].
    split; [reflexivity|]. split; [reflexivity|].
    intros n. split; [tauto|]. intros [->|H]; [|assumption].
    eapply get_Some_keys; eassumption.
  - set (v := graphlib.mkNodeInfo 0 []).
    assert (Hs : forall n, succs (set d node v) n = succs d n).
    { intros n. unfold succs. rewrite get_set.
      destruct (String.eqb_spec node n) as [<-|N]; [now rewrite Eg | reflexivity]. }
    assert (Hp : forall n, pending (set d node v) n = pending d n).
    { intros n. unfold pending. rewrite dsum_set_absent by assumption.
      unfold waits_on, v. simpl. lia. }
    split; [|split; [|split; [|split]]]; try assumption.
    + constructor.
      * now apply NoDup_keys_set.
      * intros u w He. unfold edge in He. rewrite Hs in He.
        apply contains_keys, In_keys_set. right. apply contains_keys.
        eapply Hc. exact He.
      * intros n i Hg. rewrite get_set in Hg. rewrite Hp.
        destruct (String.eqb_spec node n) as [<-|N].
        -- injection Hg as <-. simpl.
           rewrite pending_absent by assumption. split; [lia | reflexivity].
        -- auto.
    + unfold contains. now rewrite get_set_same.
    + intros n. apply In_keys_set.
Qed.

(** [add(child, stage)]: one more edge from [stage] to [child]. *)
Lemma add_spec (d : dict graphlib._NodeInfo) (a b : Z) (child stage : string) :
  built d ->
  exists d',
    graphlib.add (graphlib.mkSorter d None a b) child [stage]
    = Ok (graphlib.mkSorter d' None a b) /\
    built d' /\
    (forall p, succs d' p =
               if String.eqb stage p then succs d p ++ [child] else succs d p) /\
    (forall n, In n (keys d') <-> n = child \/ n = stage \/ In n (keys d)).
Proof.
  intros Hb. unfold graphlib.add. simpl.
  destruct (built_ensure child Hb) as (Hb1 & Hc1 & Hs1 & Hp1 & Hk1).
  set (d1 := graphlib._get_nodeinfo d child) in *.
  unfold contains in Hc1. destruct (get d1 child) as [ci|] eqn:Eci; [|discriminate].
  unfold graphlib.modify. rewrite Eci.
  set (cv := graphlib.mkNodeInfo (graphlib.npredecessors ci + 1)
                                 (graphlib.successors ci)).
  set (d2 := set d1 child cv).
  destruct (b_count Hb1 _ Eci) as [Hci0 Hci].
  assert (Hp2 : forall n, pending d2 n = pending d1 n).
  { intros n. apply pending_set_same with (v := ci); [assumption|].
    unfold waits_on, cv, graphlib._NODE_DONE. simpl.
    destruct (Z.eqb_spec (graphlib.npredecessors ci + 1) (-2)); [lia|].
    destruct (Z.eqb_spec (graphlib.npredecessors ci) (-2)); [lia | reflexivity]. }
  assert (Hs2 : forall n, succs d2 n = succs d1 n).
  { intros n. unfold d2, cv. now apply succs_set. }
  assert (Hk2 : keys d2 = keys d1) by (eapply keys_set_present; eassumption).
  (* the count of [child] is one ahead of the edges until the edge is added *)
  assert (Hcount2 : forall n i, get d2 n = Some i ->
            (0 <= graphlib.npredecessors i)%Z /\
            graphlib.npredecessors i =
            Z.of_nat (pending d2 n + if String.eqb child n then 1 else 0)).
  { intros n i Hg. unfold d2 in Hg. rewrite get_set in Hg. rewrite Hp2.
    destruct (String.eqb_spec child n) as [<-|N].
    - injection Hg as <-. simpl. lia.
    - destruct (b_count Hb1 _ Hg). split; [assumption | lia]. }
  assert (Hb2k : NoDup (keys d2)) by (rewrite Hk2; apply (b_keys Hb1)).
  assert (Hb2c : closed_graph d2).
  { eapply closed_graph_ext; [exact Hk2 | exact Hs2 | apply (b_closed Hb1)]. }
  (* the record of [stage] *)
  unfold graphlib.add_successor.
  set (d3 := graphlib._get_nodeinfo d2 stage).
  assert (H3 : NoDup (keys d3) /\ closed_graph d3 /\
               (forall n, succs d3 n = succs d2 n) /\
               (forall n, pending d3 n = pending d2 n) /\
               (forall n, In n (keys d3) <-> n = stage \/ In n (keys d2)) /\
               (forall n i, get d3 n = Some i ->
                  (0 <= graphlib.npredecessors i)%Z /\
                  graphlib.npredecessors i =
                  Z.of_nat (pending d3 n + if String.eqb child n then 1 else 0)) /\
               exists si, get d3 stage = Some si).
  { unfold d3, graphlib._get_nodeinfo.
    destruct (get d2 stage) as [si|] eqn:Es.
    - split; [assumption|]. split; [assumption|].
      split; [reflexivity|]. split; [reflexivity|]. split.
      { intros n. split; [tauto|].
        intros [->|H]; [eapply get_Some_keys; eassumption | assumption]. }
      split; [exact Hcount2 | eauto].
    - set (v := graphlib.mkNodeInfo 0 []).
      assert (Hs : forall n, succs (set d2 stage v) n = succs d2 n).
      { intros n. unfold succs. rewrite get_set.
        destruct (String.eqb_spec stage n) as [<-|N]; [now rewrite Es | reflexivity]. }
      assert (Hp : forall n, pending (set d2 stage v) n = pending d2 n).
      { intros n. unfold pending. rewrite dsum_set_absent by assumption.
        unfold waits_on, v. simpl. lia. }
      split; [now apply NoDup_keys_set|]. split.
      { intros u w He. unfold edge in He. rewrite Hs in He.
        apply contains_keys, In_keys_set. right. apply contains_keys.
        eapply Hb2c. exact He. }
      split; [assumption|]. split; [assumption|].
      split; [intros n; apply In_keys_set|]. split.
      + intros n i Hg. rewrite get_set in Hg. rewrite Hp.
        destruct (String.eqb_spec stage n) as [<-|N].
        * injection Hg as <-. simpl.
          rewrite pending_absent by assumption.
          destruct (String.eqb_spec child stage) as [->|Ncs].
          -- unfold d2 in Es. rewrite get_set_same in Es. discriminate.
          -- split; [lia | reflexivity].
        * apply Hcount2; assumption.
      + exists v. apply get_set_same. }
  destruct H3 as (Hk3 & Hc3 & Hs3 & Hp3 & Hin3 & Hcount3 & si & Esi).
  unfold graphlib.modify. fold d3. rewrite Esi.
  set (sv := graphlib.mkNodeInfo (graphlib.npredecessors si)
                                 (graphlib.successors si ++ [child])).
  exists (set d3 stage sv). split; [reflexivity|].
  assert (Hs4 : forall p, succs (set d3 stage sv) p =
                          if String.eqb stage p then succs d p ++ [child]
                          else succs d p).
  { intros p. unfold succs at 1. rewrite get_set.
    destruct (String.eqb_spec stage p) as [<-|N].
    - simpl. rewrite <- Hs1, <- Hs2, <- Hs3. unfold succs. now rewrite Esi.
    - rewrite <- Hs1, <- Hs2, <- Hs3. reflexivity. }
  assert (Hk4 : forall n, In n (keys (set d3 stage sv)) <->
                          n = child \/ n = stage \/ In n (keys d)).
  { intros n. rewrite (@keys_set_present d3 stage si sv Esi).
    rewrite Hin3, Hk2, Hk1. tauto. }
  assert (Hp4 : forall n, pending (set d3 stage sv) n =
                          pending d3 n + if String.eqb child n then 1 else 0).
  { intros n. pose proof (dsum_set_present (waits_on n) d3 stage sv Esi) as H.
    destruct (Hcount3 _ _ Esi) as [Hsi0 _].
    unfold pending. unfold waits_on at 2 4 in H. unfold sv in H. simpl in H.
    unfold graphlib._NODE_DONE in H.
    destruct (Z.eqb_spec (graphlib.npredecessors si) (-2)); [lia|].
    rewrite count_occ_app in H. simpl in H.
    destruct (string_dec child n) as [->|N].
    - rewrite String.eqb_refl. unfold sv. lia.
    - destruct (String.eqb_spec child n); [contradiction | unfold sv; lia]. }
  split; [|split; assumption].
  constructor.
  - now apply NoDup_keys_set.
  - intros u w He. unfold edge in He. rewrite Hs4 in He.
    apply contains_keys, Hk4.
    destruct (String.eqb_spec stage u) as [<-|N].
    + apply in_app_or in He. destruct He as [He|[<-|[]]]; [|now left].
      right. right. apply contains_keys. eapply (b_closed Hb). exact He.
    + right. right. apply contains_keys. eapply (b_closed Hb). exact He.
  - intros n i Hg. rewrite Hp4. rewrite get_set in Hg.
    destruct (String.eqb_spec stage n) as [<-|N].
    + injection Hg as <-. simpl. apply Hcount3. assumption.
    + apply Hcount3. assumption.
Qed.

Lemma NoDup_map_fst_filter (V : Type) (f : string * V -> bool) (d : dict V) :
  NoDup (keys d) -> NoDup (map fst (filter f d)).
Proof.
  unfold keys. induction d as [|[k v] d IH]; simpl; [intros; constructor|].
  intros H. inversion H as [|? ? Hn Hd]; subst.
  destruct (f (k, v)); simpl; [|auto].
  constructor; [|auto]. intros Hin. apply Hn.
  apply in_map_iff in Hin. destruct Hin as ([k' v'] & E & Hin). simpl in E. subst.
  apply filter_In in Hin. destruct Hin as [Hin _].
  change k with (fst (k, v')). now apply in_map.
Qed.

(** [prepare] on a graph that was built with [add]: it hands the sorter
    over ready for use, or raises [CycleError] with a cycle of the graph. *)
Lemma prepare_spec (d : dict graphlib._NodeInfo) (a b : Z) :
  built d ->
  exists ready,
    fst (graphlib.prepare (graphlib.mkSorter d None a b))
    = graphlib.mkSorter d (Some ready) a b /\
    ((snd (graphlib.prepare (graphlib.mkSorter d None a b)) = Ok tt /\
      sorter_wf (graphlib.mkSorter d (Some ready) a b) /\
      forall u, ~ clos_trans string (edge d) u u)
     \/
     exists c,
       snd (graphlib.prepare (graphlib.mkSorter d None a b))
       = Raise (CycleError "nodes are in a cycle" c) /\
       is_cycle (edge d) c).
Proof.
  intros [Hk Hc Hcount]. unfold graphlib.prepare. simpl.
  set (ready := map fst (filter _ d)).
  set (ts' := graphlib.mkSorter d (Some ready) a b).
  exists ready.
  pose proof (@find_cycle_spec d Hc ts' eq_refl) as Hf.
  destruct (graphlib._find_cycle ts') as [| |c|sn]; try contradiction.
  - split; [reflexivity|]. right. exists c. split; [reflexivity | assumption].
  - split; [reflexivity|]. left. split; [reflexivity|]. split; [|assumption].
    constructor; simpl.
    + assumption.
    + assumption.
    + intros n i Hg _. apply (Hcount n i Hg).
    + intros n i Hg Hlt. destruct (Hcount n i Hg). lia.
    + exists ready. split; [reflexivity|]. split.
      * now apply NoDup_map_fst_filter.
      * intros n. unfold ready. rewrite in_map_iff. split.
        -- intros ([k v] & E & Hin). simpl in E. subst k.
           apply filter_In in Hin. destruct Hin as [Hin Hz]. simpl in Hz.
           apply Z.eqb_eq in Hz. apply status_Some. exists v.
           split; [now apply get_NoDup_In | assumption].
        -- intros Hs. apply status_Some in Hs. destruct Hs as (i & Hg & Hz).
           exists (n, i). split; [reflexivity|]. apply filter_In.
           split; [now apply get_In | simpl; now apply Z.eqb_eq].
Qed.

Section GraphOfStages.

Context {QD Ext Loc : Type}.
Variable cls : QuestClass QD Ext Loc.

(** [c] is listed among the [children] of the stage [p]. *)
Definition child_of (p c : string) : Prop :=
  exists S, In (p, S) (stages cls) /\ In c (children S).

(** Every child names a stage of the quest. *)
Definition children_declared : Prop :=
  forall s S c, In (s, S) (stages cls) -> In c (children S) ->
                contains (stages cls) c = true.

Lemma add_children_built (k stage : string) (a b : Z) (chs : list string) :
  forall d,
    built d ->
    (forall c, In c chs -> contains (stages cls) c = true) ->
    exists d',
      add_children cls k (graphlib.mkSorter d None a b) stage chs
      = (graphlib.mkSorter d' None a b, Ok tt) /\
      built d' /\
      (forall p c, In c (succs d' p) <->
                   In c (succs d p) \/ (p = stage /\ In c chs)) /\
      (forall n, In n (keys d') ->
                 In n (keys d) \/ In n chs \/ (n = stage /\ chs <> [])).
Proof.
  induction chs as [|c0 chs IH]; intros d Hb Hall; simpl.
  - exists d. split; [reflexivity|]. split; [assumption|]. split.
    + intros p c. tauto.
    + intros n H. now left.
  - rewrite (Hall c0 (or_introl eq_refl)). simpl.
    destruct (@add_spec d a b c0 stage Hb) as (d1 & E1 & Hb1 & Hs1 & Hk1).
    unfold graphlib.add in E1 |- *. simpl in E1 |- *.
    injection E1 as E1. rewrite E1.
    destruct (IH d1 Hb1 (fun c H => Hall c (or_intror H)))
      as (d' & E & Hb' & Hs' & Hk').
    exists d'. split; [exact E|]. split; [assumption|]. split.
    + intros p c. rewrite Hs', Hs1.
      destruct (String.eqb_spec stage p) as [<-|N].
      * rewrite in_app_iff. simpl. intuition (subst; auto).
      * intuition congruence.
    + intros n Hn. apply Hk' in Hn. destruct Hn as [Hn|[Hn|[-> _]]].
      * apply Hk1 in Hn. destruct Hn as [->|[->|Hn]].
        -- right. left. now left.
        -- right. right. split; [reflexivity | discriminate].
        -- now left.
      * right. left. now right.
      * right. right. split; [reflexivity | discriminate].
Qed.

Lemma add_stages_built (k : string) (a b : Z)
    (items : list (string * Stage QD Ext Loc)) :
  forall d,
    built d ->
    (forall s S c, In (s, S) items -> In c (children S) ->
                   contains (stages cls) c = true) ->
    exists d',
      add_stages cls k (graphlib.mkSorter d None a b) items
      = (graphlib.mkSorter d' None a b, Ok tt) /\
      built d' /\
      (forall p c, In c (succs d' p) <->
                   In c (succs d p) \/
                   exists S, In (p, S) items /\ In c (children S)) /\
      (forall n, In n (keys d') ->
                 In n (keys d) \/ (exists S, In (n, S) items) \/
                 exists s S, In (s, S) items /\ In n (children S)).
Proof.
  induction items as [|[s S] items IH]; intros d Hb Hall; simpl.
  - exists d. split; [reflexivity|]. split; [assumption|]. split.
    + intros p c. split; [tauto|]. intros [H|(? & [] & _)]; assumption.
    + intros n H. now left.
  - destruct (@add_children_built k s a b (children S) d Hb)
      as (d1 & E1 & Hb1 & Hs1 & Hk1).
    { intros c Hc. apply (Hall s S c); [now left | assumption]. }
    rewrite E1.
    destruct (IH d1 Hb1) as (d' & E & Hb' & Hs' & Hk').
    { intros s' S' c Hin Hc. apply (Hall s' S' c); [now right | assumption]. }
    exists d'. split; [exact E|]. split; [assumption|]. split.
    + intros p c. rewrite Hs', Hs1. split.
      * intros [[H|[-> H]]|(S' & Hin & Hc)].
        -- now left.
        -- right. exists S. split; [now left | assumption].
        -- right. exists S'. split; [now right | assumption].
      * intros [H|(S' & [[= <- <-]|Hin] & Hc)].
        -- left. now left.
        -- left. right. split; [reflexivity | assumption].
        -- right. exists S'. split; assumption.
    + intros n Hn. apply Hk' in Hn.
      destruct Hn as [Hn|[(S' & Hin)|(s' & S' & Hin & Hc)]].
      * apply Hk1 in Hn. destruct Hn as [Hn|[Hn|[-> _]]].
        -- now left.
        -- right. right. exists s, S. split; [now left | assumption].
        -- right. left. exists S. now left.
      * right. left. exists S'. now right.
      * right. right. exists s', S'. split; [now right | assumption].
Qed.

Lemma built_empty : built [].
Proof.
  constructor.
  - constructor.
  - intros u v [].
  - intros n i [=].
Qed.

End GraphOfStages.

Lemma path_ext (R R' : string -> string -> Prop) (l : list string) :
  (forall u v, R u v -> R' u v) -> path R l -> path R' l.
Proof.
  intros H. induction l as [|a l IH]; [auto|].
  destruct l as [|b l]; [simpl; auto|].
  intros [H1 H2]. split; [auto | now apply IH].
Qed.

Lemma is_cycle_ext (R R' : string -> string -> Prop) (c : list string) :
  (forall u v, R u v -> R' u v) -> is_cycle R c -> is_cycle R' c.
Proof.
  intros H [Hp He]. split; [eapply path_ext; eassumption | assumption].
Qed.

Lemma clos_trans_ext (R R' : string -> string -> Prop) (u v : string) :
  (forall u v, R u v -> R' u v) -> clos_trans string R u v ->
  clos_trans string R' u v.
Proof.
  intros H Hc. induction Hc; [apply t_step; auto | eapply t_trans; eassumption].
Qed.

Section LoadStages.

Context {QD Ext Loc : Type}.
Variable cls : QuestClass QD Ext Loc.

(** The sorter of a quest right after [load_stages]: its edges are the
    [children] declarations, nothing has been handed out yet. *)
Record graph_of_stages (g : graphlib.TopologicalSorter) : Prop := mkGraphOfStages {
  gs_wf : sorter_wf g;
  gs_edges : forall p c, edge (graphlib._node2info g) p c <-> child_of cls p c;
  gs_nodes : forall n, In n (keys (graphlib._node2info g)) ->
                       contains (stages cls) n = true;
  gs_acyclic : forall u, ~ clos_trans string (child_of cls) u u;
  gs_fresh : forall n z, status (graphlib._node2info g) n = Some z -> (0 <= z)%Z
}.

Inductive load_stages_outcome (a : Attrs QD) : Attrs QD * result unit -> Prop :=
| LS_missing (g : graphlib.TopologicalSorter) (r : result unit) :
    missing_child cls (a_key a) (stages cls) r ->
    load_stages_outcome a (with_graph a g, r)
| LS_cycle (g : graphlib.TopologicalSorter) (c : list string) :
    children_declared cls ->
    is_cycle (child_of cls) c ->
    load_stages_outcome a
      (with_graph a g,
       Raise (QuestDefinitionError
                (cat [repr cls (a_key a); " prepare failed! ";
                      str_CycleError "nodes are in a cycle" c])
                (Some (CycleError "nodes are in a cycle" c))))
| LS_ok (g : graphlib.TopologicalSorter) :
    children_declared cls ->
    graph_of_stages g ->
    load_stages_outcome a (with_graph a g, Ok tt).

Lemma load_stages_spec (a : Attrs QD) :
  load_stages_outcome a (load_stages cls a).
Proof.
  unfold load_stages.
  destruct (add_stages cls (a_key a) graphlib.new (stages cls)) as [g r] eqn:E.
  pose proof (add_stages_cases cls (a_key a) (stages cls) graphlib.new eq_refl E)
    as [_ [[-> Hall]|Hm]].
  - destruct (@add_stages_built _ _ _ cls (a_key a) 0%Z 0%Z (stages cls) []
                built_empty Hall) as (d & E' & Hb & Hs & Hk).
    unfold graphlib.new in E. rewrite E' in E. injection E as <-.
    destruct (@prepare_spec d 0%Z 0%Z Hb) as (ready & Ef & Hr).
    destruct (graphlib.prepare (graphlib.mkSorter d None 0 0)) as [g' r'].
    simpl in Ef, Hr. subst g'.
    assert (Hedge : forall p c, edge d p c <-> child_of cls p c).
    { intros p c. unfold edge. rewrite Hs. unfold succs. simpl. unfold child_of.
      tauto. }
    destruct Hr as [(-> & Hwf & Hac)|(c & -> & Hcyc)].
    + apply LS_ok; [exact Hall|]. constructor; simpl.
      * assumption.
      * assumption.
      * intros n Hn. apply Hk in Hn.
        destruct Hn as [[]|[(S & Hin)|(s & S & Hin & Hc)]].
        -- eapply In_contains; eassumption.
        -- eapply Hall; eassumption.
      * intros u Hu. apply (Hac u). eapply clos_trans_ext; [|exact Hu].
        intros ? ?. apply Hedge.
      * intros n z Hst. apply status_Some in Hst.
        destruct Hst as (i & Hg & <-). apply (b_count Hb _ Hg).
    + apply LS_cycle; [exact Hall|].
      eapply is_cycle_ext; [|exact Hcyc]. intros ? ?. apply Hedge.
  - inversion Hm; subst. apply LS_missing. assumption.
Qed.

End LoadStages.

(** ** Loading *)

(** The sections below abbreviate the methods applied to the quest class
    at hand; these tactics unfold the methods themselves. *)
Ltac unfold_load_storage_model := unfold load_storage_model.
Ltac unfold_load := unfold load.
Ltac unfold_Quest_init := unfold Quest_init.

Section Loading.

Context {QD Ext Loc Doc : Type}.
Variable parse_obj : Doc -> string + StorageModel.
Variable VersionInfo_parse : string -> option VersionInfo.
Variable cls : QuestClass QD Ext Loc.
Variable db : string -> option Doc.

Local Abbreviation load_storage_model :=
  (load_storage_model VersionInfo_parse cls).
Local Abbreviation load := (load parse_obj VersionInfo_parse cls db).
Local Abbreviation Quest_init := (Quest_init parse_obj VersionInfo_parse cls db).
Local Abbreviation load_stages := (load_stages cls).

(** How [load_storage_model] can end. *)
Inductive storage_outcome (a : Attrs QD) (sm : StorageModel)
  : Attrs QD * result unit -> Prop :=
| SO_unparsed :
    VersionInfo_parse (sm_version sm) = None ->
    storage_outcome a sm
      (a, Raise (ValueError (cat [sm_version sm; " is not valid SemVer string"])))
| SO_unsafe (v : VersionInfo) :
    VersionInfo_parse (sm_version sm) = Some v ->
    semver_safe v (version cls) = false ->
    storage_outcome a sm
      (a, Raise (QuestLoadError
                   (cat [repr cls (a_key a); " Unsafe version mismatch in! ";
                         semver.str v; " -> "; semver.str (version cls)])
                   None))
| SO_invalid (v : VersionInfo) (err : string) :
    VersionInfo_parse (sm_version sm) = Some v ->
    semver_safe v (version cls) = true ->
    parse_raw cls (sm_serialized_data sm) = inl err ->
    storage_outcome a sm
      (a, Raise (QuestLoadError
                   (cat [repr cls (a_key a); " data validation error! "; err])
                   (Some (ValidationError err))))
| SO_loaded (v : VersionInfo) (d : QD) :
    VersionInfo_parse (sm_version sm) = Some v ->
    semver_safe v (version cls) = true ->
    parse_raw cls (sm_serialized_data sm) = inr d ->
    storage_outcome a sm
      (mkAttrs (a_key a) (Some d) (Some (sm_completed_stages sm))
               (Some (sm_complete sm)) (a_graph a),
       Ok tt).

Lemma load_storage_model_spec (a : Attrs QD) (sm : StorageModel) :
  storage_outcome a sm (load_storage_model a sm).
Proof.
  unfold_load_storage_model.
  destruct (VersionInfo_parse (sm_version sm)) as [v|] eqn:Ev;
    [|now apply SO_unparsed].
  destruct (semver_safe v (version cls)) eqn:Es; simpl;
    [|now apply SO_unsafe].
  destruct (parse_raw cls (sm_serialized_data sm)) as [err|d] eqn:Ep.
  - now apply SO_invalid with (v := v).
  - simpl. now apply SO_loaded with (v := v).
Qed.

(** How [load] can end: on what was stored, or in [load_stages] once the
    three attributes are assigned. *)
Inductive load_outcome (a : Attrs QD) : Attrs QD * result unit -> Prop :=
| LO_schema (doc : Doc) (err : string) :
    db (a_key a) = Some doc -> parse_obj doc = inl err ->
    load_outcome a
      (a, Raise (QuestLoadError
                   (cat [repr cls (a_key a); " Storage model validation error! "; err])
                   (Some (ValidationError err))))
| LO_storage (doc : Doc) (sm : StorageModel) (r : result unit) :
    db (a_key a) = Some doc -> parse_obj doc = inr sm ->
    storage_outcome a sm (a, r) -> r <> Ok tt ->
    load_outcome a (a, r)
| LO_stored (doc : Doc) (sm : StorageModel) (a1 : Attrs QD) :
    db (a_key a) = Some doc -> parse_obj doc = inr sm ->
    storage_outcome a sm (a1, Ok tt) ->
    load_outcome a (load_stages a1)
| LO_fresh :
    db (a_key a) = None ->
    load_outcome a
      (load_stages (mkAttrs (a_key a) (Some (QuestDataModel cls)) (Some [])
                            (Some false) (a_graph a))).

Lemma load_spec (a : Attrs QD) : load_outcome a (load a).
Proof.
  unfold_load.
  destruct (db (a_key a)) as [doc|] eqn:Ed; [|simpl; now apply LO_fresh].
  destruct (parse_obj doc) as [err|sm] eqn:Ep; [now apply LO_schema with (doc := doc)|].
  pose proof (load_storage_model_spec a sm) as Hs.
  destruct (load_storage_model a sm) as [a1 r].
  inversion Hs; subst.
  - eapply LO_storage; try eassumption. discriminate.
  - eapply LO_storage; try eassumption. discriminate.
  - eapply LO_storage; try eassumption. discriminate.
  - eapply LO_stored; eassumption.
Qed.

Lemma load_stages_no_load_error (a a' : Attrs QD) (r : result unit) :
  load_stages a = (a', r) ->
  (forall msg c, r <> Raise (QuestLoadError msg c)) /\
  (forall e : builtin_exn, r <> Raise e) /\
  r <> OutOfFuel /\
  exists g, a' = with_graph a g.
Proof.
  intros E. pose proof (load_stages_spec cls a) as H.
  rewrite E in H.
  inversion H as [g r0 Hm|g c|g]; subst.
  - inversion Hm; subst. repeat split; try discriminate. eauto.
  - repeat split; try discriminate. eauto.
  - repeat split; try discriminate. eauto.
Qed.

(** What a constructed quest looks like. *)
Lemma Quest_init_Ok (k : string) (o : option (Attrs QD)) (q : Quest QD) :
  Quest_init k = (o, Ok q) ->
  k <> "" /\ key q = k /\
  children_declared cls /\ graph_of_stages cls (graph q) /\
  (db k = None ->
   quest_data q = QuestDataModel cls /\ completed_stages q = [] /\
   complete q = false) /\
  (forall doc sm, db k = Some doc -> parse_obj doc = inr sm ->
   parse_raw cls (sm_serialized_data sm) = inr (quest_data q) /\
   completed_stages q = sm_completed_stages sm /\
   complete q = sm_complete sm).
Proof.
  unfold_Quest_init.
  destruct (String.eqb_spec k "") as [->|Nk]; [discriminate|].
  pose proof (load_spec (unloaded QD k)) as Hl.
  destruct (load (unloaded QD k)) as [a' r] eqn:El.
  destruct r as [[]|e|]; [|discriminate|discriminate].
  intros [= <- Hi].
  assert (Hcore : forall d cs c,
    load_stages (mkAttrs k (Some d) (Some cs) (Some c) None) = (a', Ok tt) ->
    key q = k /\ children_declared cls /\ graph_of_stages cls (graph q) /\
    quest_data q = d /\ completed_stages q = cs /\ complete q = c).
  { intros d cs c E. pose proof (load_stages_spec cls (mkAttrs k (Some d) (Some cs) (Some c) None)) as H.
    rewrite E in H. inversion H as [g r0 Hm|g c0|g Hall Hg]; subst.
    - inversion Hm.
    - unfold instance in Hi. simpl in Hi. injection Hi as <-. simpl. auto 10. }
  split; [assumption|].
  inversion Hl as [doc err Hd Hp|doc sm r0 Hd Hp Hs Hr|doc sm a1 Hd Hp Hs E|Hd E];
    subst; simpl in *.
  - congruence.
  - inversion Hs as [| | |v d Hv Hsafe Hraw]; subst.
    destruct (Hcore _ _ _ E) as (H1 & H2 & H3 & H4 & H5 & H6).
    split; [assumption|]. split; [assumption|]. split; [assumption|]. split.
    + intros Hn. congruence.
    + intros doc' sm' Hd' Hp'.
      assert (sm' = sm) as -> by congruence. subst. auto.
  - destruct (Hcore _ _ _ E) as (H1 & H2 & H3 & H4 & H5 & H6).
    split; [assumption|]. split; [assumption|]. split; [assumption|]. split.
    + intros _. auto.
    + intros doc' sm' Hd' Hp'. congruence.
Qed.

Lemma Quest_init_needs_graph (k : string) (o : option (Attrs QD)) (q : Quest QD) :
  Quest_init k = (o, Ok q) ->
  exists a a', load_stages a = (a', Ok tt).
Proof.
  unfold_Quest_init.
  destruct (String.eqb k ""); [discriminate|].
  pose proof (load_spec (unloaded QD k)) as Hl.
  destruct (load (unloaded QD k)) as [a' r] eqn:El.
  destruct r as [[]|e|]; [|discriminate|discriminate].
  intros _.
  inversion Hl as [doc err Hd Hp|doc sm r0 Hd Hp Hs Hr|doc sm a1 Hd Hp Hs E|Hd E];
    subst; try congruence; eauto.
Qed.

(** C3: a load that fails on what was stored (the stored document does
    not parse, its version is not safe to load, or its payload does not
    deserialize) raises [QuestLoadError] and leaves every attribute of
    the quest as it was; in the constructor, where none is assigned yet,
    none of [quest_data], [completed_stages], [complete] is assigned. *)
Theorem load_error_assigns_nothing (a : Attrs QD) :
  (forall a' msg c, load a = (a', Raise (QuestLoadError msg c)) -> a' = a) /\
  (forall sm a' r, load_storage_model a sm = (a', r) -> r <> Ok tt -> a' = a) /\
  (forall doc err,
      db (a_key a) = Some doc -> parse_obj doc = inl err ->
      exists msg c, load a = (a, Raise (QuestLoadError msg c))) /\
  (forall doc sm v,
      db (a_key a) = Some doc -> parse_obj doc = inr sm ->
      VersionInfo_parse (sm_version sm) = Some v ->
      semver_safe v (version cls) = false ->
      load a = (a, Raise (QuestLoadError
                 (cat [repr cls (a_key a); " Unsafe version mismatch in! ";
                       semver.str v; " -> "; semver.str (version cls)])
                 None))) /\
  (forall doc sm v err,
      db (a_key a) = Some doc -> parse_obj doc = inr sm ->
      VersionInfo_parse (sm_version sm) = Some v ->
      semver_safe v (version cls) = true ->
      parse_raw cls (sm_serialized_data sm) = inl err ->
      exists msg c, load a = (a, Raise (QuestLoadError msg c))) /\
  (forall k o msg c,
      Quest_init k = (o, Raise (QuestLoadError msg c)) ->
      exists a', o = Some a' /\ a_key a' = k /\ a_quest_data a' = None /\
                 a_completed_stages a' = None /\ a_complete a' = None).
Proof.
  assert (Hload : forall a0 a' msg c,
            load a0 = (a', Raise (QuestLoadError msg c)) -> a' = a0).
  { intros a0 a' msg c E. pose proof (load_spec a0) as H. rewrite E in H.
    inversion H as [doc err Hd Hp|doc sm r0 Hd Hp Hs Hr|doc sm a1 Hd Hp Hs E'|Hd E'];
      subst; try reflexivity.
    - first [apply load_stages_no_load_error in E'
            | symmetry in E'; apply load_stages_no_load_error in E'].
      destruct E' as (E' & _). now destruct (E' msg c).
    - first [apply load_stages_no_load_error in E'
            | symmetry in E'; apply load_stages_no_load_error in E'].
      destruct E' as (E' & _). now destruct (E' msg c). }
  split; [apply Hload|]. split; [|split; [|split; [|split]]].
  - intros sm a' r E Hr. pose proof (load_storage_model_spec a sm) as H.
    rewrite E in H. inversion H; subst; congruence.
  - intros doc err Hd Hp. unfold_load. rewrite Hd, Hp. eauto.
  - intros doc sm v Hd Hp Hv Hs. unfold_load; unfold_load_storage_model.
    rewrite Hd, Hp, Hv, Hs. reflexivity.
  - intros doc sm v err Hd Hp Hv Hs Hr.
    unfold_load; unfold_load_storage_model.
    rewrite Hd, Hp, Hv, Hs, Hr. simpl. eauto.
  - intros k o msg c. unfold_Quest_init.
    destruct (String.eqb k ""); [discriminate|].
    destruct (load (unloaded QD k)) as [a' r] eqn:El.
    destruct r as [[]|e|]; [|intros [= <- ->]|discriminate].
    + unfold instance.
      destruct (a_quest_data a'), (a_completed_stages a'), (a_complete a'),
        (a_graph a'); discriminate.
    + apply Hload in El. subst a'. exists (unloaded QD k). auto.
Qed.

(** C7: when the [children] declarations of the quest contain a cycle,
    building the stage graph fails with [QuestDefinitionError], so that
    no quest object is constructed; when moreover every child is a
    declared stage, the error is raised from [CycleError] and carries a
    cycle of the declarations. *)
Theorem load_stages_cycle (a : Attrs QD) (u : string) :
  clos_trans string (child_of cls) u u ->
  (exists g msg cause,
      load_stages a = (with_graph a g, Raise (QuestDefinitionError msg cause))) /\
  (children_declared cls ->
   exists g c,
     load_stages a =
     (with_graph a g,
      Raise (QuestDefinitionError
               (cat [repr cls (a_key a); " prepare failed! ";
                     str_CycleError "nodes are in a cycle" c])
               (Some (CycleError "nodes are in a cycle" c)))) /\
     is_cycle (child_of cls) c) /\
  (forall k q, snd (Quest_init k) <> Ok q).
Proof.
  intros Hcyc.
  assert (Hall : forall a0, exists g msg cause,
            load_stages a0 = (with_graph a0 g, Raise (QuestDefinitionError msg cause))).
  { intros a0. pose proof (load_stages_spec cls a0) as H.
    destruct (load_stages a0) as [a' r].
    inversion H as [g r0 Hm|g c|g Hd Hg]; subst.
    - inversion Hm; subst. eauto.
    - eauto.
    - exfalso. exact (gs_acyclic Hg Hcyc). }
  split; [apply Hall|]. split.
  - intros Hdecl. pose proof (load_stages_spec cls a) as H.
    destruct (load_stages a) as [a' r].
    inversion H as [g r0 Hm|g c Hd Hc|g Hd Hg]; subst.
    + inversion Hm as [s c0 S H1 H2 H3]; subst.
      rewrite (Hdecl s S c0 H1 H2) in H3. discriminate.
    + exists g, c. split; [reflexivity | assumption].
    + exfalso. exact (gs_acyclic Hg Hcyc).
  - intros k q E. destruct (Quest_init k) as [o r] eqn:Ei. simpl in E. subst r.
    apply Quest_init_needs_graph in Ei. destruct Ei as (a0 & a' & E).
    destruct (Hall a0) as (g & msg & cause & E'). congruence.
Qed.

(** C8: when a stage lists a child that is not a stage of the quest,
    building the stage graph fails with [QuestDefinitionError]; the
    message names the quest and a child that is not a stage; no quest
    object is constructed, so that no stage runs. *)
Theorem load_stages_missing_stage (a : Attrs QD) (stage_name child : string)
    (S : Stage QD Ext Loc) :
  In (stage_name, S) (stages cls) ->
  In child (children S) ->
  contains (stages cls) child = false ->
  (exists g missing,
      load_stages a =
      (with_graph a g,
       Raise (QuestDefinitionError
                (cat [repr cls (a_key a); " does not have stage named '";
                      missing; "'"])
                None)) /\
      contains (stages cls) missing = false /\
      exists s, child_of cls s missing) /\
  (forall k q, snd (Quest_init k) <> Ok q).
Proof.
  intros Hin Hc Hmiss.
  assert (Hall : forall a0, exists g missing,
      load_stages a0 =
      (with_graph a0 g,
       Raise (QuestDefinitionError
                (cat [repr cls (a_key a0); " does not have stage named '";
                      missing; "'"])
                None)) /\
      contains (stages cls) missing = false /\
      exists s, child_of cls s missing).
  { intros a0. pose proof (load_stages_spec cls a0) as H.
    destruct (load_stages a0) as [a' r].
    inversion H as [g r0 Hm|g c Hd|g Hd Hg]; subst.
    - inversion Hm as [s c0 S0 H1 H2 H3]; subst.
      exists g, c0. split; [reflexivity|]. split; [assumption|].
      exists s, S0. auto.
    - rewrite (Hd _ _ _ Hin Hc) in Hmiss. discriminate.
    - rewrite (Hd _ _ _ Hin Hc) in Hmiss. discriminate. }
  split; [apply Hall|].
  intros k q E. destruct (Quest_init k) as [o r] eqn:Ei. simpl in E. subst r.
  apply Quest_init_needs_graph in Ei. destruct Ei as (a0 & a' & E).
  destruct (Hall a0) as (g & missing & E' & _). congruence.
Qed.

(** C10: the constructor raises its [ValueError] exactly for the empty
    key; for any other key it stores the key and goes on to [load],
    whose outcome is the constructor's; when the stored versions parse,
    no other [ValueError] comes out of the constructor. *)
Theorem Quest_init_blank_key (k : string) :
  (Quest_init k = (None, Raise (ValueError "Key can't be blank")) <-> k = "") /\
  (k <> "" ->
   a_key (unloaded QD k) = k /\
   fst (Quest_init k) = Some (fst (load (unloaded QD k))) /\
   snd (Quest_init k) =
     match snd (load (unloaded QD k)) with
     | Ok _ => instance (fst (load (unloaded QD k)))
     | Raise e => Raise e
     | OutOfFuel => OutOfFuel
     end) /\
  ((forall doc sm, db k = Some doc -> parse_obj doc = inr sm ->
                   VersionInfo_parse (sm_version sm) <> None) ->
   forall msg, snd (Quest_init k) = Raise (ValueError msg) -> k = "").
Proof.
  split; [|split].
  - unfold_Quest_init. destruct (String.eqb_spec k "") as [->|N].
    + tauto.
    + split; [|contradiction].
      destruct (load (unloaded QD k)) as [a' [[]|e|]]; discriminate.
  - intros N. unfold_Quest_init.
    destruct (String.eqb_spec k "") as [->|_]; [contradiction|].
    split; [reflexivity|].
    destruct (load (unloaded QD k)) as [a' [[]|e|]]; simpl; auto.
  - intros Hv msg. unfold_Quest_init.
    destruct (String.eqb_spec k "") as [->|N]; [reflexivity|].
    pose proof (load_spec (unloaded QD k)) as Hl.
    destruct (load (unloaded QD k)) as [a' r] eqn:El.
    assert (Hi : forall a0 a1,
              load_stages a0 = (a1, r) -> r <> Raise (ValueError msg)).
    { intros a0 a1 E. apply load_stages_no_load_error in E.
      destruct E as (_ & E & _). apply E. }
    assert (Hr : r <> Raise (ValueError msg)).
    { inversion Hl as [doc err Hd Hp|doc sm r0 Hd Hp Hs Hr|doc sm a1 Hd Hp Hs E|Hd E];
        subst; simpl in *.
      - discriminate.
      - inversion Hs; subst; try discriminate; try congruence.
        exfalso. eapply Hv; eassumption.
      - eapply Hi. first [exact E | symmetry; exact E].
      - eapply Hi. first [exact E | symmetry; exact E]. }
    destruct r as [[]|e|]; simpl.
    + unfold instance.
      destruct (a_quest_data a'), (a_completed_stages a'), (a_complete a'),
        (a_graph a'); discriminate.
    + intros E. congruence.
    + discriminate.
Qed.

End Loading.

(** ** The execution pass *)

Lemma release_result (succs0 : list string) :
  forall d ready d' ready' r,
    graphlib.release d ready succs0 = (d', ready', r) ->
    r = Ok tt \/ exists k, r = Raise (KeyError k).
Proof.
  induction succs0 as [|s rest IH]; intros d ready d' ready' r; simpl.
  - intros [= <- <- <-]. now left.
  - destruct (get d s) as [si|]; [apply IH|].
    intros [= <- <- <-]. right. eauto.
Qed.

Lemma done_result (ts ts' : graphlib.TopologicalSorter) (node : string)
    (r : result unit) :
  graphlib.done ts node = (ts', r) -> r <> OutOfFuel.
Proof.
  unfold graphlib.done.
  destruct (graphlib._ready_nodes ts) as [ready|]; [|intros [= <- <-]; discriminate].
  destruct (get (graphlib._node2info ts) node) as [i|];
    [|intros [= <- <-]; discriminate].
  destruct (negb _).
  - destruct (Z.leb _ _); [intros [= <- <-]; discriminate|].
    destruct (Z.eqb _ _); intros [= <- <-]; discriminate.
  - destruct (graphlib.release _ _ _) as [[d' ready'] r'] eqn:E.
    apply release_result in E.
    destruct E as [->|(k & ->)]; intros [= <- <-]; discriminate.
Qed.

Lemma mark_out_result (nodes : list string) :
  forall d d' r, graphlib.mark_out d nodes = (d', r) -> r <> OutOfFuel.
Proof.
  induction nodes as [|n rest IH]; intros d d' r; simpl.
  - intros [= <- <-]. discriminate.
  - destruct (get d n) as [i|]; [apply IH|]. intros [= <- <-]. discriminate.
Qed.

Lemma get_ready_result (ts ts' : graphlib.TopologicalSorter)
    (r : result (list string)) :
  graphlib.get_ready ts = (ts', r) -> r <> OutOfFuel.
Proof.
  unfold graphlib.get_ready.
  destruct (graphlib._ready_nodes ts) as [ready|]; [|intros [= <- <-]; discriminate].
  destruct (graphlib.mark_out _ _) as [d' [[]|e|]] eqn:E;
    intros [= <- <-]; try discriminate.
  now apply mark_out_result in E.
Qed.

(** *** The pass terminates *)

(** Nodes still waiting for a predecessor, plus nodes ready to be handed
    out: every batch but the last takes at least one away. *)
Definition waiting (i : graphlib._NodeInfo) : nat :=
  if Z.ltb 0 (graphlib.npredecessors i) then 1 else 0.

Definition potential (ts : graphlib.TopologicalSorter) : nat :=
  dsum waiting (graphlib._node2info ts)
  + match graphlib._ready_nodes ts with
    | Some ready => List.length ready
    | None => 0
    end.

Lemma dsum_waiting_length (d : dict graphlib._NodeInfo) :
  dsum waiting d <= List.length d.
Proof.
  unfold dsum. induction d as [|[k i] d IH]; simpl; [lia|].
  unfold waiting at 1. destruct (Z.ltb _ _); lia.
Qed.

Lemma mark_out_potential (nodes : list string) :
  forall d d' r,
    graphlib.mark_out d nodes = (d', r) -> dsum waiting d' <= dsum waiting d.
Proof.
  induction nodes as [|n rest IH]; intros d d' r; simpl.
  - intros [= <- <-]. lia.
  - destruct (get d n) as [i|] eqn:Eg; [|intros [= <- <-]; lia].
    intros E. apply IH in E.
    pose proof (dsum_set_present waiting d n
                  (graphlib.mkNodeInfo graphlib._NODE_OUT (graphlib.successors i)) Eg) as H.
    unfold waiting at 4 in H. simpl in H. lia.
Qed.

Lemma release_potential (succs0 : list string) :
  forall d ready d' ready' r,
    graphlib.release d ready succs0 = (d', ready', r) ->
    dsum waiting d' + List.length ready' <= dsum waiting d + List.length ready.
Proof.
  induction succs0 as [|s rest IH]; intros d ready d' ready' r; simpl.
  - intros [= <- <- <-]. lia.
  - destruct (get d s) as [si|] eqn:Eg; [|intros [= <- <- <-]; lia].
    intros E. apply IH in E.
    pose proof (dsum_set_present waiting d s
                  (graphlib.mkNodeInfo (graphlib.npredecessors si - 1)
                                       (graphlib.successors si)) Eg) as H.
    unfold waiting at 2 4 in H. simpl in H.
    destruct (Z.eqb_spec (graphlib.npredecessors si - 1) 0) as [Ez|Ez].
    + rewrite length_app in E. simpl in E.
      destruct (Z.ltb_spec 0 (graphlib.npredecessors si));
        destruct (Z.ltb_spec 0 (graphlib.npredecessors si - 1)); lia.
    + destruct (Z.ltb_spec 0 (graphlib.npredecessors si));
        destruct (Z.ltb_spec 0 (graphlib.npredecessors si - 1)); lia.
Qed.

Lemma done_potential (ts ts' : graphlib.TopologicalSorter) (node : string)
    (r : result unit) :
  graphlib.done ts node = (ts', r) -> potential ts' <= potential ts.
Proof.
  unfold graphlib.done, potential.
  destruct (graphlib._ready_nodes ts) as [ready|] eqn:Er;
    [|intros [= <- <-]; rewrite Er; lia].
  destruct (get (graphlib._node2info ts) node) as [i|] eqn:Eg;
    [|intros [= <- <-]; rewrite Er; lia].
  destruct (negb _).
  - destruct (Z.leb _ _); [intros [= <- <-]; rewrite Er; lia|].
    destruct (Z.eqb _ _); intros [= <- <-]; rewrite Er; lia.
  - destruct (graphlib.release _ _ _) as [[d' ready'] r'] eqn:E.
    apply release_potential in E.
    pose proof (dsum_set_present waiting (graphlib._node2info ts) node
                  (graphlib.mkNodeInfo graphlib._NODE_DONE (graphlib.successors i)) Eg) as H.
    unfold waiting at 4 in H. simpl in H.
    destruct r' as [[]|e|]; intros [= <- <-]; simpl; lia.
Qed.

Lemma get_ready_potential (ts ts' : graphlib.TopologicalSorter)
    (batch : list string) :
  graphlib.get_ready ts = (ts', Ok batch) ->
  potential ts' + List.length batch <= potential ts.
Proof.
  unfold graphlib.get_ready, potential.
  destruct (graphlib._ready_nodes ts) as [ready|]; [|discriminate].
  destruct (graphlib.mark_out _ _) as [d' [[]|e|]] eqn:E; try discriminate.
  intros [= <- <-]. apply mark_out_potential in E. simpl. lia.
Qed.

(** *** The shape of a trace *)

(** The value of [complete] after a trace that started with [c]. *)
Fixpoint flag_after (c : bool) (t : list Event) : bool :=
  match t with
  | [] => c
  | Called _ _ _ f :: t' => flag_after f t'
  | _ :: t' => flag_after c t'
  end.

(** The traces of a pass, with the value of [complete] before and after:
    graph events, and the calls on one stage after the other, each stage
    starting while [complete] is false.  [Q] relates the flag before and
    after each call. *)
Inductive pass_trace (Q : bool -> bool -> Prop)
  : bool -> list Event -> bool -> Prop :=
| PT_nil (c : bool) : pass_trace Q c [] c
| PT_ready (c c' : bool) (n : string) (t : list Event) :
    pass_trace Q c t c' -> pass_trace Q c (Ready n :: t) c'
| PT_marked (c c' : bool) (n : string) (t : list Event) :
    pass_trace Q c t c' -> pass_trace Q c (MarkedDone n :: t) c'
| PT_skipped (n : string) (c0 c1 c2 c' : bool) (t : list Event) :
    Q false c0 -> Q c0 c1 -> Q c1 c2 ->
    pass_trace Q c2 t c' ->
    pass_trace Q false
      (Called n Instantiate None c0 :: Called n Prepare None c1
       :: Called n Condition (Some false) c2 :: t) c'
| PT_executed (n : string) (c0 c1 c2 c3 c4 c' b : bool) (t : list Event) :
    Q false c0 -> Q c0 c1 -> Q c1 c2 -> Q c2 c3 -> Q c3 c4 ->
    pass_trace Q c4 t c' ->
    pass_trace Q false
      (Called n Instantiate None c0 :: Called n Prepare None c1
       :: Called n Condition (Some true) c2 :: Called n Execute None c3
       :: Called n IsDone (Some b) c4 :: t) c'.

Lemma pass_trace_app (Q : bool -> bool -> Prop) (c c' c'' : bool)
    (t t' : list Event) :
  pass_trace Q c t c' -> pass_trace Q c' t' c'' -> pass_trace Q c (t ++ t') c''.
Proof.
  intros H H'. induction H; simpl; try (constructor; auto); auto.
Qed.

Lemma pass_trace_ready (Q : bool -> bool -> Prop) (c : bool) (l : list string) :
  pass_trace Q c (map Ready l) c.
Proof.
  induction l; simpl; constructor; assumption.
Qed.

(** Nothing is called once [complete] is set. *)
Lemma pass_trace_complete (Q : bool -> bool -> Prop) (t : list Event) (c' : bool) :
  pass_trace Q true t c' ->
  c' = true /\ forall n h ret f, ~ In (Called n h ret f) t.
Proof.
  intros H. remember true as c eqn:Ec. induction H; try discriminate.
  - split; [congruence | intros ? ? ? ? []].
  - destruct (IHpass_trace Ec) as [H1 H2]. split; [assumption|].
    intros n0 h ret f [E|Hin]; [discriminate | eapply H2; eassumption].
  - destruct (IHpass_trace Ec) as [H1 H2]. split; [assumption|].
    intros n0 h ret f [E|Hin]; [discriminate | eapply H2; eassumption].
Qed.

(** A stage is instantiated only while [complete] is false. *)
Lemma pass_trace_start (Q : bool -> bool -> Prop) (c c' : bool) (t : list Event) :
  pass_trace Q c t c' ->
  forall t1 n ret f t2,
    t = t1 ++ Called n Instantiate ret f :: t2 -> flag_after c t1 = false.
Proof.
  intros H. induction H; intros t1 n0 ret f t2 E.
  - destruct t1; discriminate.
  - destruct t1 as [|e t1]; [discriminate|]. injection E as <- E. simpl. eauto.
  - destruct t1 as [|e t1]; [discriminate|]. injection E as <- E. simpl. eauto.
  - destruct t1 as [|e1 t1]; [reflexivity|]. injection E as <- E.
    destruct t1 as [|e2 t1]; [discriminate|]. injection E as <- E.
    destruct t1 as [|e3 t1]; [discriminate|]. injection E as <- E.
    simpl. eauto.
  - destruct t1 as [|e1 t1]; [reflexivity|]. injection E as <- E.
    destruct t1 as [|e2 t1]; [discriminate|]. injection E as <- E.
    destruct t1 as [|e3 t1]; [discriminate|]. injection E as <- E.
    destruct t1 as [|e4 t1]; [discriminate|]. injection E as <- E.
    destruct t1 as [|e5 t1]; [discriminate|]. injection E as <- E.
    simpl. eauto.
Qed.

(** When no call resets the flag: after a call that leaves [complete] set,
    the only calls are the remaining ones on the same stage instance. *)
Lemma pass_trace_stop (Q : bool -> bool -> Prop) (c c' : bool) (t : list Event) :
  (forall b a, Q b a -> b = true -> a = true) ->
  pass_trace Q c t c' ->
  forall t1 n h ret t2,
    t = t1 ++ Called n h ret true :: t2 ->
    forall n' h' ret' f',
      In (Called n' h' ret' f') t2 ->
      n' = n /\ h' <> Instantiate /\ f' = true.
Proof.
  intros HQ H.
  assert (Htail : forall t0 c0 n' h' ret' f',
            pass_trace Q true t0 c0 -> In (Called n' h' ret' f') t0 -> False).
  { intros t0 c0 n' h' ret' f' H0 Hin.
    apply pass_trace_complete in H0. destruct H0 as [_ H0]. eapply H0; eassumption. }
  induction H; intros t1 n0 h ret t2 E n' h' ret' f' Hin.
  - destruct t1; discriminate.
  - destruct t1 as [|e t1]; [discriminate|]. injection E as <- E. eauto.
  - destruct t1 as [|e t1]; [discriminate|]. injection E as <- E. eauto.
  - destruct t1 as [|e1 t1];
      [injection E as <- <- <- -> <-
      |injection E as <- E; destruct t1 as [|e2 t1];
       [injection E as <- <- <- -> <-
       |injection E as <- E; destruct t1 as [|e3 t1];
        [injection E as <- <- <- -> <-
        |injection E as <- E; eauto]]];
      repeat match goal with
             | HQ' : Q true ?a |- _ =>
                 assert (a = true) by (eapply HQ; [exact HQ' | reflexivity]);
                 subst a
             end;
      simpl in Hin;
      repeat match goal with
             | Hin' : _ \/ _ |- _ => destruct Hin' as [Hin'|Hin']
             | Hin' : Called _ _ _ _ = Called _ _ _ _ |- _ =>
                 injection Hin' as <- <- <- <-
             end;
      try (repeat split; (reflexivity || discriminate));
      exfalso; eapply Htail; eassumption.
  - destruct t1 as [|e1 t1];
      [injection E as <- <- <- -> <-
      |injection E as <- E; destruct t1 as [|e2 t1];
       [injection E as <- <- <- -> <-
       |injection E as <- E; destruct t1 as [|e3 t1];
        [injection E as <- <- <- -> <-
        |injection E as <- E; destruct t1 as [|e4 t1];
         [injection E as <- <- <- -> <-
         |injection E as <- E; destruct t1 as [|e5 t1];
          [injection E as <- <- <- -> <-
          |injection E as <- E; eauto]]]]];
      repeat match goal with
             | HQ' : Q true ?a |- _ =>
                 assert (a = true) by (eapply HQ; [exact HQ' | reflexivity]);
                 subst a
             end;
      simpl in Hin;
      repeat match goal with
             | Hin' : _ \/ _ |- _ => destruct Hin' as [Hin'|Hin']
             | Hin' : Called _ _ _ _ = Called _ _ _ _ |- _ =>
                 injection Hin' as <- <- <- <-
             end;
      try (repeat split; (reflexivity || discriminate));
      exfalso; eapply Htail; eassumption.
Qed.

Ltac unfold_execute_stages := unfold execute_stages.
Ltac unfold_execute_stages_in H := unfold execute_stages in H.
Ltac unfold_run_stage_in H := unfold run_stage in H.
Ltac step_while_active_in H := cbn [while_active] in H.

Section Pass.

Context {QD Ext Loc TickType : Type}.
Variable cls : QuestClass QD Ext Loc.

Local Abbreviation run_stage := (@run_stage QD Ext Loc).
Local Abbreviation for_nodes := (for_nodes cls).
Local Abbreviation while_active := (while_active cls).
Local Abbreviation execute_stages := (@execute_stages QD Ext Loc TickType cls).

(** An induction principle for the pass: [I todo q x tr] relates what is
    left of the current batch, the state and the trace so far. *)
Section Invariant.

Variable I : list string -> Quest QD -> Ext -> list Event -> Prop.

Hypothesis I_ready : forall q x tr g r,
  I [] q x tr ->
  graphlib.is_active (graph q) = Ok true ->
  graphlib.get_ready (graph q) = (g, r) ->
  I (match r with Ok batch => batch | _ => [] end) (set_graph q g) x
    (tr ++ match r with Ok batch => map Ready batch | _ => [] end).

Hypothesis I_skip : forall node rest q x tr g r,
  I (node :: rest) q x tr ->
  complete q = false ->
  mem node (completed_stages q) = true ->
  graphlib.done (graph q) node = (g, r) ->
  I rest (set_graph q g) x
    (tr ++ match r with Ok _ => [MarkedDone node] | _ => [] end).

Hypothesis I_stage : forall node rest q x tr S q' x' t r,
  I (node :: rest) q x tr ->
  complete q = false ->
  mem node (completed_stages q) = false ->
  get (stages cls) node = Some S ->
  run_stage node S q x = (q', x', t, r) ->
  I rest q' x' (tr ++ t).

Lemma for_nodes_invariant (nodes : list string) :
  forall q x tr q' x' t r,
    I nodes q x tr ->
    for_nodes nodes q x = (q', x', t, r) ->
    exists todo, I todo q' x' (tr ++ t) /\ (r = Ok Fallthrough -> todo = []).
Proof.
  induction nodes as [|node rest IH]; intros q x tr q' x' t r HI; simpl.
  - intros [= <- <- <- <-]. exists []. rewrite app_nil_r. auto.
  - destruct (complete q) eqn:Ec.
    { intros [= <- <- <- <-]. exists (node :: rest). rewrite app_nil_r.
      split; [assumption | discriminate]. }
    destruct (mem node (completed_stages q)) eqn:Em.
    + destruct (graphlib.done (graph q) node) as [g rd] eqn:Ed.
      pose proof (@I_skip _ _ _ _ _ _ _ HI Ec Em Ed) as Hs.
      destruct rd as [[]|e|].
      * destruct (for_nodes rest (set_graph q g) x) as [[[q1 x1] t1] r1] eqn:Ef.
        intros [= <- <- <- <-].
        destruct (IH _ _ _ _ _ _ _ Hs Ef) as (todo & H1 & H2).
        exists todo. rewrite <- app_assoc in H1. auto.
      * intros [= <- <- <- <-]. exists rest. split; [assumption | discriminate].
      * intros [= <- <- <- <-]. exists rest. split; [assumption | discriminate].
    + destruct (get (stages cls) node) as [S|] eqn:Es.
      * destruct (run_stage node S q x) as [[[q1 x1] t1] r1] eqn:Er.
        pose proof (@I_stage _ _ _ _ _ _ _ _ _ _ HI Ec Em Es Er) as Hs.
        destruct r1 as [[]|e|].
        -- destruct (for_nodes rest q1 x1) as [[[q2 x2] t2] r2] eqn:Ef.
           intros [= <- <- <- <-].
           destruct (IH _ _ _ _ _ _ _ Hs Ef) as (todo & H1 & H2).
           exists todo. rewrite app_assoc. auto.
        -- intros [= <- <- <- <-]. exists rest. split; [assumption | discriminate].
        -- intros [= <- <- <- <-]. exists rest. split; [assumption | discriminate].
      * intros [= <- <- <- <-]. exists (node :: rest). rewrite app_nil_r.
        split; [assumption | discriminate].
Qed.

Lemma while_active_invariant (fuel : nat) :
  forall q x tr q' x' t r,
    I [] q x tr ->
    while_active fuel q x = (q', x', t, r) ->
    exists todo, I todo q' x' (tr ++ t).
Proof.
  induction fuel as [|fuel IH]; intros q x tr q' x' t r HI; simpl.
  - intros [= <- <- <- <-]. exists []. now rewrite app_nil_r.
  - destruct (graphlib.is_active (graph q)) as [[|]|e|] eqn:Ea;
      try (intros [= <- <- <- <-]; exists []; now rewrite app_nil_r).
    destruct (graphlib.get_ready (graph q)) as [g rr] eqn:Eg.
    pose proof (@I_ready _ _ _ _ _ HI Ea Eg) as Hr.
    destruct rr as [batch|e|];
      try (intros [= <- <- <- <-]; eexists; eassumption).
    destruct batch as [|n batch].
    { intros [= <- <- <- <-]. eexists. eassumption. }
    destruct (for_nodes (n :: batch) (set_graph q g) x) as [[[q2 x2] t2] r2] eqn:Ef.
    destruct (@for_nodes_invariant _ _ _ _ _ _ _ _ Hr Ef) as (todo & H1 & H2).
    destruct r2 as [[|]|e|].
    + destruct (while_active fuel q2 x2) as [[[q3 x3] t3] r3] eqn:Ew.
      intros [= <- <- <- <-]. rewrite (H2 eq_refl) in H1.
      destruct (IH _ _ _ _ _ _ _ H1 Ew) as (todo' & H3).
      exists todo'. rewrite <- !app_assoc in H3. exact H3.
    + intros [= <- <- <- <-]. exists todo. rewrite <- app_assoc in H1. exact H1.
    + intros [= <- <- <- <-]. exists todo. rewrite <- app_assoc in H1. exact H1.
    + intros [= <- <- <- <-]. exists todo. rewrite <- app_assoc in H1. exact H1.
Qed.

Lemma execute_stages_invariant (q : Quest QD) (tick : TickType) (x : Ext) :
  forall q' x' t r,
    I [] q x [] ->
    execute_stages q tick x = (q', x', t, r) ->
    exists todo, I todo q' x' t.
Proof.
  intros q' x' t r HI E. unfold_execute_stages_in E.
  exact (@while_active_invariant _ _ _ _ _ _ _ _ HI E).
Qed.

End Invariant.

(** The paths through [run_stage]. *)
Ltac run_stage_paths E :=
  unfold_run_stage_in E; cbv zeta in E;
  match type of E with
  | context [eff_ret (condition ?S ?q ?l ?x)] =>
      let Ec := fresh "Econd" in
      destruct (eff_ret (condition S q l x)) eqn:Ec;
      [ match type of E with
        | context [eff_ret (is_done ?S' ?q' ?l' ?x')] =>
            let Ed := fresh "Edone" in
            destruct (eff_ret (is_done S' q' l' x')) eqn:Ed;
            [ match type of E with
              | context [graphlib.done ?g ?n] =>
                  let Eg := fresh "Egraph" in
                  let g' := fresh "g" in
                  let r' := fresh "rd" in
                  destruct (graphlib.done g n) as [g' r'] eqn:Eg;
                  destruct r' as [[]| |]
              end
            | ]
        end
      | ]
  end;
  injection E as <- <- <- <-.

(** What [run_stage] does to the quest: its key stays, its graph changes
    through [done] only, and the node is appended to [completed_stages]
    exactly when [done] is called for it. *)
Lemma run_stage_frame (node : string) (S : Stage QD Ext Loc) (q : Quest QD)
    (x : Ext) (q' : Quest QD) (x' : Ext) (t : list Event) (r : result unit) :
  run_stage node S q x = (q', x', t, r) ->
  key q' = key q /\
  ((completed_stages q' = completed_stages q /\ graph q' = graph q /\
    r = Ok tt /\ ~ In (MarkedDone node) t)
   \/
   (completed_stages q' = completed_stages q ++ [node] /\
    graphlib.done (graph q) node = (graph q', r))).
Proof.
  intros E. run_stage_paths E; simpl; split; try reflexivity;
    try (right; split; [reflexivity | assumption]);
    left; repeat split; try reflexivity;
    unfold called; simpl; intuition discriminate.
Qed.

Lemma run_stage_result (node : string) (S : Stage QD Ext Loc) (q : Quest QD)
    (x : Ext) (q' : Quest QD) (x' : Ext) (t : list Event) (r : result unit) :
  run_stage node S q x = (q', x', t, r) -> r <> OutOfFuel.
Proof.
  intros E. destruct (run_stage_frame _ _ _ _ E) as (_ & [(_ & _ & -> & _)|(_ & H)]).
  - discriminate.
  - eapply done_result; eassumption.
Qed.

Lemma for_nodes_result (nodes : list string) :
  forall q x q' x' t r,
    for_nodes nodes q x = (q', x', t, r) -> r <> OutOfFuel.
Proof.
  induction nodes as [|node rest IH]; intros q x q' x' t r; simpl.
  - intros [= <- <- <- <-]. discriminate.
  - destruct (complete q); [intros [= <- <- <- <-]; discriminate|].
    destruct (mem node (completed_stages q)).
    + destruct (graphlib.done (graph q) node) as [g rd] eqn:Ed.
      apply done_result in Ed. destruct rd as [[]|e|]; [| |exfalso; now apply Ed].
      * destruct (for_nodes rest (set_graph q g) x) as [[[q1 x1] t1] r1] eqn:Ef.
        intros [= <- <- <- <-]. eapply IH; eassumption.
      * intros [= <- <- <- <-]. discriminate.
    + destruct (get (stages cls) node) as [S|];
        [|intros [= <- <- <- <-]; discriminate].
      destruct (run_stage node S q x) as [[[q1 x1] t1] r1] eqn:Er.
      apply run_stage_result in Er. destruct r1 as [[]|e|]; [| |exfalso; now apply Er].
      * destruct (for_nodes rest q1 x1) as [[[q2 x2] t2] r2] eqn:Ef.
        intros [= <- <- <- <-]. eapply IH; eassumption.
      * intros [= <- <- <- <-]. discriminate.
Qed.

Lemma for_nodes_potential (nodes : list string) (q : Quest QD) (x : Ext)
    (q' : Quest QD) (x' : Ext) (t : list Event) (r : result signal) :
  for_nodes nodes q x = (q', x', t, r) ->
  potential (graph q') <= potential (graph q).
Proof.
  intros E.
  destruct (@for_nodes_invariant
              (fun _ q1 _ _ => potential (graph q1) <= potential (graph q)))
    with (nodes := nodes) (q := q) (x := x) (tr := @nil Event)
         (q' := q') (x' := x') (t := t) (r := r) as (todo & H & _);
    try assumption; try lia.
  - intros node rest q1 x1 tr g rd H _ _ Ed. simpl.
    apply done_potential in Ed. lia.
  - intros node rest q1 x1 tr S q2 x2 t2 r2 H _ _ _ Er.
    destruct (run_stage_frame _ _ _ _ Er) as (_ & [(_ & -> & _)|(_ & Hd)]);
      [assumption|].
    apply done_potential in Hd. lia.
Qed.

Lemma while_active_terminates (fuel : nat) :
  forall q x,
    potential (graph q) < fuel ->
    snd (while_active fuel q x) <> OutOfFuel.
Proof.
  induction fuel as [|fuel IH]; intros q x Hf; [lia|]. simpl.
  destruct (graphlib.is_active (graph q)) as [[|]|e|] eqn:Ea; simpl;
    try discriminate.
  - destruct (graphlib.get_ready (graph q)) as [g rr] eqn:Eg.
    pose proof (get_ready_result _ Eg) as Hrr.
    destruct rr as [batch|e|]; simpl; [|discriminate|exfalso; now apply Hrr].
    apply get_ready_potential in Eg.
    destruct batch as [|n batch]; [simpl; discriminate|].
    destruct (for_nodes (n :: batch) (set_graph q g) x) as [[[q2 x2] t2] r2] eqn:Ef.
    pose proof (for_nodes_result _ _ _ Ef) as Hr2.
    pose proof (for_nodes_potential _ _ _ Ef) as Hp2. simpl in Hp2, Eg.
    destruct r2 as [[|]|e|]; simpl; try discriminate; [|exfalso; now apply Hr2].
    specialize (IH q2 x2 ltac:(lia)).
    destruct (while_active fuel q2 x2) as [[[q3 x3] t3] r3]. exact IH.
  - unfold graphlib.is_active in Ea.
    destruct (graphlib._ready_nodes (graph q)); discriminate.
Qed.

(** The budget of [execute_stages] is never used up: the pass returns
    or raises. *)
Theorem execute_stages_terminates (q : Quest QD) (tick : TickType) (x : Ext) :
  snd (execute_stages q tick x) <> OutOfFuel.
Proof.
  unfold_execute_stages. apply while_active_terminates.
  unfold budget, potential.
  pose proof (dsum_waiting_length (graphlib._node2info (graph q))).
  destruct (graphlib._ready_nodes (graph q)); lia.
Qed.

(** C4: on a quest whose [complete] flag is already set the pass is a
    no-op: no stage is instantiated (the trace holds no call on a stage),
    and the key, [quest_data], [completed_stages], [complete] and the
    outside world are as before; the pass ends within its budget, and
    normally when the sorter is in order. *)
Theorem execute_stages_complete_noop (q : Quest QD) (tick : TickType) (x : Ext)
    (q' : Quest QD) (x' : Ext) (t : list Event) (r : result unit) :
  complete q = true ->
  execute_stages q tick x = (q', x', t, r) ->
  key q' = key q /\ quest_data q' = quest_data q /\
  completed_stages q' = completed_stages q /\ complete q' = complete q /\
  x' = x /\
  (forall n h ret c, ~ In (Called n h ret c) t) /\
  r <> OutOfFuel /\
  (sorter_wf (graph q) -> r = Ok tt).
Proof.
  intros Hc E.
  destruct (@execute_stages_invariant
    (fun _ q1 x1 tr =>
       complete q1 = true /\ key q1 = key q /\ quest_data q1 = quest_data q /\
       completed_stages q1 = completed_stages q /\ x1 = x /\
       forall e, In e tr -> exists n, e = Ready n))
    with (q := q) (tick := tick) (x := x) (q' := q') (x' := x') (t := t) (r := r)
    as (todo & H1 & H2 & H3 & H4 & H5 & H6); try assumption.
  - intros q1 x1 tr g rr (I1 & I2 & I3 & I4 & I5 & I6) _ _. simpl.
    repeat split; try assumption.
    intros e He. apply in_app_or in He. destruct He as [He|He]; [auto|].
    destruct rr as [batch|e0|]; try contradiction.
    apply in_map_iff in He. destruct He as (n & <- & _). eauto.
  - intros node rest q1 x1 tr g rd (I1 & _) Hf. congruence.
  - intros node rest q1 x1 tr S q2 x2 t2 r2 (I1 & _) Hf. congruence.
  - repeat split; try reflexivity; try assumption. intros e [].
  - split; [assumption|]. split; [assumption|]. split; [assumption|].
    split; [congruence|]. split; [assumption|]. split; [|split].
    + intros n h ret c Hin. apply H6 in Hin. destruct Hin as (n0 & [=]).
    + pose proof (execute_stages_terminates q tick x) as Ht.
      rewrite E in Ht. exact Ht.
    + intros Hwf. unfold_execute_stages_in E. unfold budget in E.
      step_while_active_in E.
      destruct (get_ready_spec Hwf)
        as (ts' & ready & Eg & Er & _).
      unfold graphlib.is_active in E. rewrite Er in E.
      destruct (Z.ltb _ _ || _); [|congruence].
      rewrite Eg in E. destruct ready as [|n ready]; [congruence|].
      simpl in E. rewrite Hc in E. congruence.
Qed.

(** C6: a pass only appends to [completed_stages], and never a name that
    is already there: the list before the pass is a prefix of the list
    after it, and a list without duplicates stays without duplicates. *)
Theorem completed_stages_append_only (q : Quest QD) (tick : TickType) (x : Ext)
    (q' : Quest QD) (x' : Ext) (t : list Event) (r : result unit) :
  NoDup (completed_stages q) ->
  execute_stages q tick x = (q', x', t, r) ->
  NoDup (completed_stages q') /\
  exists added, completed_stages q' = completed_stages q ++ added.
Proof.
  intros Hnd E.
  destruct (@execute_stages_invariant
    (fun _ q1 _ _ =>
       NoDup (completed_stages q1) /\
       exists added, completed_stages q1 = completed_stages q ++ added))
    with (q := q) (tick := tick) (x := x) (q' := q') (x' := x') (t := t) (r := r)
    as (todo & H1 & H2); try assumption.
  - intros q1 x1 tr g rr H _ _. exact H.
  - intros node rest q1 x1 tr g rd H _ _ _. exact H.
  - intros node rest q1 x1 tr S q2 x2 t2 r2 (I1 & added & I2) _ Hm _ Er.
    destruct (run_stage_frame _ _ _ _ Er) as (_ & [(-> & _)|(-> & _)]).
    + eauto.
    + split.
      * apply NoDup_app; [assumption | repeat constructor; intros [] |].
        intros a Ha [<-|[]]. apply mem_not_In in Hm. contradiction.
      * exists (added ++ [node]). rewrite I2. now rewrite app_assoc.
  - split; [assumption|]. exists []. now rewrite app_nil_r.
  - auto.
Qed.

(** [Q] holds of the flag before and after every call on a stage of the
    quest. *)
Definition hooks_respect (Q : bool -> bool -> Prop) : Prop :=
  forall node S q l x,
    get (stages cls) node = Some S ->
    Q (complete q) (eff_complete (stage_init S q x)) /\
    Q (complete q) (eff_complete (prepare S q l x)) /\
    Q (complete q) (eff_complete (condition S q l x)) /\
    Q (complete q) (eff_complete (execute S q l x)) /\
    Q (complete q) (eff_complete (is_done S q l x)).

(** No call on a stage resets [complete]. *)
Definition hooks_keep_complete : Prop :=
  hooks_respect (fun b a => b = true -> a = true).

Lemma run_stage_trace (Q : bool -> bool -> Prop) (node : string)
    (S : Stage QD Ext Loc) (q : Quest QD) (x : Ext) (q' : Quest QD) (x' : Ext)
    (t : list Event) (r : result unit) :
  (forall q l x,
      Q (complete q) (eff_complete (stage_init S q x)) /\
      Q (complete q) (eff_complete (prepare S q l x)) /\
      Q (complete q) (eff_complete (condition S q l x)) /\
      Q (complete q) (eff_complete (execute S q l x)) /\
      Q (complete q) (eff_complete (is_done S q l x))) ->
  complete q = false ->
  run_stage node S q x = (q', x', t, r) ->
  pass_trace Q false t (complete q').
Proof.
  intros HS Hc E. unfold_run_stage_in E. cbv zeta in E.
  set (e0 := stage_init S q x) in *. set (q0 := after q e0) in *.
  set (e1 := prepare S q0 (eff_self e0) (eff_ext e0)) in *.
  set (q1 := after q0 e1) in *.
  set (e2 := condition S q1 (eff_self e1) (eff_ext e1)) in *.
  set (q2 := after q1 e2) in *.
  set (e3 := execute S q2 (eff_self e2) (eff_ext e2)) in *.
  set (q3 := after q2 e3) in *.
  set (e4 := is_done S q3 (eff_self e3) (eff_ext e3)) in *.
  assert (Q0 : Q false (eff_complete e0)).
  { rewrite <- Hc. apply (HS q (eff_self e0) x). }
  assert (Q1 : Q (eff_complete e0) (eff_complete e1)).
  { apply (HS q0 (eff_self e0) (eff_ext e0)). }
  assert (Q2 : Q (eff_complete e1) (eff_complete e2)).
  { apply (HS q1 (eff_self e1) (eff_ext e1)). }
  assert (Q3 : Q (eff_complete e2) (eff_complete e3)).
  { apply (HS q2 (eff_self e2) (eff_ext e2)). }
  assert (Q4 : Q (eff_complete e3) (eff_complete e4)).
  { apply (HS q3 (eff_self e3) (eff_ext e3)). }
  unfold called in E.
  destruct (eff_ret e2).
  - destruct (eff_ret e4) eqn:E4.
    + destruct (graphlib.done _ node) as [g [[]|e|]];
        injection E as <- <- <- <-; simpl;
        eapply PT_executed; try eassumption; repeat constructor.
    + injection E as <- <- <- <-. simpl.
      eapply PT_executed; try eassumption; constructor.
  - injection E as <- <- <- <-. simpl.
    eapply PT_skipped; try eassumption; constructor.
Qed.

Lemma execute_stages_trace (Q : bool -> bool -> Prop) (q : Quest QD)
    (tick : TickType) (x : Ext) (q' : Quest QD) (x' : Ext) (t : list Event)
    (r : result unit) :
  hooks_respect Q ->
  execute_stages q tick x = (q', x', t, r) ->
  pass_trace Q (complete q) t (complete q').
Proof.
  intros HQ E.
  destruct (@execute_stages_invariant
    (fun _ q1 _ tr => pass_trace Q (complete q) tr (complete q1)))
    with (q := q) (tick := tick) (x := x) (q' := q') (x' := x') (t := t) (r := r)
    as (todo & H); try assumption.
  - intros q1 x1 tr g rr H _ _. simpl.
    eapply pass_trace_app; [exact H|].
    destruct rr; [apply pass_trace_ready | constructor | constructor].
  - intros node rest q1 x1 tr g rd H _ _ _. simpl.
    eapply pass_trace_app; [exact H|].
    destruct rd; repeat constructor.
  - intros node rest q1 x1 tr S q2 x2 t2 r2 H Hc _ Hs Er.
    eapply pass_trace_app; [exact H|]. rewrite Hc.
    eapply run_stage_trace; try eassumption.
    intros q0 l x0. exact (HQ node S q0 l x0 Hs).
  - constructor.
Qed.

(** C5: a stage is started only while [complete] is false; and when no
    call on a stage resets the flag, then once a call has left
    [complete] set (a stage's [execute], say) the only calls still made
    in the pass are the remaining ones on that same stage instance: no
    other stage is instantiated, prepared, asked its condition or
    executed, in this batch or a later one. *)
Theorem no_stage_started_once_complete (q : Quest QD) (tick : TickType)
    (x : Ext) (q' : Quest QD) (x' : Ext) (t : list Event) (r : result unit) :
  execute_stages q tick x = (q', x', t, r) ->
  (forall t1 n ret f t2,
      t = t1 ++ Called n Instantiate ret f :: t2 ->
      flag_after (complete q) t1 = false) /\
  (hooks_keep_complete ->
   forall t1 n h ret t2,
     t = t1 ++ Called n h ret true :: t2 ->
     forall n' h' ret' f',
       In (Called n' h' ret' f') t2 ->
       n' = n /\ h' <> Instantiate /\ f' = true).
Proof.
  intros E. split.
  - eapply pass_trace_start.
    eapply (@execute_stages_trace (fun _ _ => True)); [|exact E].
    intros node S q0 l x0 _. auto.
  - intros Hk. eapply pass_trace_stop; [|eapply execute_stages_trace; eassumption].
    auto.
Qed.

End Pass.

(** ** Scheduling: what the pass does with the graph *)

(** What must have happened before an event. *)
Definition ok_event (E : string -> string -> Prop) (before : list Event)
    (e : Event) : Prop :=
  match e with
  | Ready n => forall p, E p n -> In (MarkedDone p) before
  | MarkedDone n => In (Ready n) before
  | Called n _ _ _ => In (Ready n) before
  end.

(** A node is handed out after its predecessors were marked done, and it is
    called or marked done after it was handed out. *)
Definition trace_ok (E : string -> string -> Prop) (tr : list Event) : Prop :=
  forall t1 e t2, tr = t1 ++ e :: t2 -> ok_event E t1 e.

(** The stage was asked and either declined to run or did not finish. *)
Definition held_back (n : string) (tr : list Event) : Prop :=
  exists c, In (Called n Condition (Some false) c) tr \/
            In (Called n IsDone (Some false) c) tr.

Definition calls_on (n : string) (t : list Event) : Prop :=
  forall e, In e t -> exists h ret c, e = Called n h ret c.

Lemma ok_event_mono (E : string -> string -> Prop) (t t' : list Event) (e : Event) :
  incl t t' -> ok_event E t e -> ok_event E t' e.
Proof.
  intros Hi. destruct e; simpl; auto.
Qed.

Lemma split_app (A : Type) (tr new t1 t2 : list A) (e : A) :
  tr ++ new = t1 ++ e :: t2 ->
  (exists t2', tr = t1 ++ e :: t2') \/
  (exists n1 n2, new = n1 ++ e :: n2 /\ t1 = tr ++ n1).
Proof.
  revert t1. induction tr as [|a tr IH]; intros t1 H; simpl in H.
  - right. exists t1, t2. auto.
  - destruct t1 as [|b t1]; simpl in H.
    + injection H as -> H. left. exists tr. reflexivity.
    + injection H as -> H. apply IH in H.
      destruct H as [(t2' & ->)|(n1 & n2 & -> & ->)].
      * left. exists t2'. reflexivity.
      * right. exists n1, n2. auto.
Qed.

Lemma trace_ok_app (E : string -> string -> Prop) (tr new : list Event) :
  trace_ok E tr ->
  (forall n1 e n2, new = n1 ++ e :: n2 -> ok_event E (tr ++ n1) e) ->
  trace_ok E (tr ++ new).
Proof.
  intros Ht Hn t1 e t2 H. apply split_app in H.
  destruct H as [(t2' & H)|(n1 & n2 & H & ->)].
  - eapply Ht. exact H.
  - eapply Hn. exact H.
Qed.

Lemma trace_ok_calls (E : string -> string -> Prop) (tr t : list Event)
    (n : string) :
  trace_ok E tr -> In (Ready n) tr -> calls_on n t -> trace_ok E (tr ++ t).
Proof.
  intros Ht Hr Hc. apply trace_ok_app; [assumption|].
  intros n1 e n2 ->. destruct (Hc e) as (h & ret & c & ->).
  - apply in_or_app. right. now left.
  - simpl. apply in_or_app. now left.
Qed.

Lemma held_back_app (n : string) (t t' : list Event) :
  held_back n (t ++ t') <-> held_back n t \/ held_back n t'.
Proof.
  unfold held_back. split.
  - intros (c & [H|H]); apply in_app_or in H; destruct H; eauto.
  - intros [(c & [H|H])|(c & [H|H])]; exists c;
      rewrite !in_app_iff; tauto.
Qed.

Lemma held_back_calls (n node : string) (t : list Event) :
  calls_on node t -> held_back n t -> n = node.
Proof.
  intros Hc (c & [H|H]); apply Hc in H; destruct H as (h & ret & c' & [=]);
    assumption.
Qed.


Section Scheduling.

Context {QD Ext Loc TickType : Type}.
Variable cls : QuestClass QD Ext Loc.

Local Abbreviation run_stage := (@run_stage QD Ext Loc).
Local Abbreviation execute_stages := (@execute_stages QD Ext Loc TickType cls).

Local Abbreviation nodes_of q := (graphlib._node2info (graph q)).

(** The state of a pass over a quest whose graph was built from the
    [children] declarations, after the trace [tr], with [todo] left of
    the current batch. *)
Record pass_inv (todo : list string) (q : Quest QD) (tr : list Event)
  : Prop := mkPassInv {
  pi_wf : sorter_wf (graph q);
  pi_edges : forall p c, edge (nodes_of q) p c <-> child_of cls p c;
  pi_nodes : forall n, In n (keys (nodes_of q)) ->
                       contains (stages cls) n = true;
  pi_nodup : NoDup todo;
  pi_todo : forall n, In n todo ->
      status (nodes_of q) n = Some graphlib._NODE_OUT /\ In (Ready n) tr;
  pi_done : forall n,
      status (nodes_of q) n = Some graphlib._NODE_DONE <-> In (MarkedDone n) tr;
  pi_completed : forall n, In (MarkedDone n) tr -> In n (completed_stages q);
  pi_held : forall n, held_back n tr ->
      status (nodes_of q) n = Some graphlib._NODE_OUT /\
      ~ In n todo /\ ~ In n (completed_stages q);
  pi_trace : trace_ok (child_of cls) tr
}.

Lemma pass_inv_ready (q : Quest QD) (tr : list Event) :
  pass_inv [] q tr ->
  exists g batch,
    graphlib.get_ready (graph q) = (g, Ok batch) /\
    pass_inv batch (set_graph q g) (tr ++ map Ready batch).
Proof.
  intros [Hwf He Hn _ _ Hd Hc Hh Ht].
  destruct (get_ready_spec Hwf)
    as (g & ready & Eg & Er & Er' & Hwf' & Hk & Hs & Hp & Hst).
  exists g, ready. split; [exact Eg|].
  destruct (wf_ready Hwf) as (ready0 & Er0 & Hnd & Hr).
  rewrite Er in Er0. injection Er0 as <-.
  assert (Hnew : forall e, In e (map Ready ready) -> exists n, e = Ready n /\ In n ready).
  { intros e H. apply in_map_iff in H. destruct H as (n & <- & H). eauto. }
  constructor; simpl.
  - assumption.
  - intros p c. rewrite <- He. unfold edge. now rewrite Hs.
  - intros n. rewrite Hk. apply Hn.
  - assumption.
  - intros n Hin. split.
    + rewrite Hst. now rewrite (proj2 (mem_In n ready) Hin).
    + apply in_or_app. right. now apply in_map.
  - intros n. rewrite Hst, in_app_iff, <- Hd.
    destruct (mem n ready) eqn:Em.
    + apply mem_In, Hr in Em. rewrite Em. split.
      * discriminate.
      * intros [H|H]; [discriminate|].
        apply Hnew in H. destruct H as (n0 & [=] & _).
    + split; [tauto|]. intros [H|H]; [assumption|].
      apply Hnew in H. destruct H as (n0 & [=] & _).
  - intros n H. apply in_app_or in H. destruct H as [H|H]; [auto|].
    apply Hnew in H. destruct H as (n0 & [=] & _).
  - intros n H. apply held_back_app in H. destruct H as [H|(c & [H|H])];
      try (apply Hnew in H; destruct H as (n0 & [=] & _)).
    destruct (Hh n H) as (H1 & _ & H3).
    assert (Hnr : ~ In n ready).
    { intros Hin. apply Hr in Hin. rewrite H1 in Hin. discriminate. }
    split; [|split; assumption].
    rewrite Hst. now rewrite (proj2 (mem_not_In n ready) Hnr).
  - apply trace_ok_app; [assumption|].
    intros n1 e n2 Hsplit.
    assert (Hin : In e (map Ready ready)).
    { rewrite Hsplit. apply in_or_app. right. now left. }
    apply Hnew in Hin. destruct Hin as (n & -> & Hin). simpl.
    intros p Hp0. apply in_or_app. left. apply Hd.
    apply He in Hp0. unfold edge, succs in Hp0.
    destruct (get (nodes_of q) p) as [i|] eqn:Egp; [|contradiction].
    apply status_Some. exists i. split; [assumption|].
    apply Hr, status_Some in Hin. destruct Hin as (ni & Egn & Hz).
    eapply pending_zero with (d := nodes_of q) (n := n) (p := p).
    + pose proof (wf_count Hwf n Egn) as Hcnt. lia.
    + now apply get_In.
    + assumption.
Qed.

(** The node at the head of the batch is marked done, after the calls
    [calls] on its stage (none when it is skipped). *)
Lemma pass_inv_done (node : string) (rest : list string) (q q1 : Quest QD)
    (tr calls : list Event) :
  pass_inv (node :: rest) q tr ->
  graph q1 = graph q ->
  (forall n, In n (completed_stages q1) <->
             n = node \/ In n (completed_stages q)) ->
  calls_on node calls ->
  (forall n, ~ held_back n calls) ->
  exists g,
    graphlib.done (graph q1) node = (g, Ok tt) /\
    pass_inv rest (set_graph q1 g) (tr ++ calls ++ [MarkedDone node]).
Proof.
  intros [Hwf He Hn Hnd Htodo Hd Hc Hh Ht] Eg Hcs Hcalls Hnh.
  inversion Hnd as [|? ? Hnotin Hnd']; subst.
  destruct (Htodo node (or_introl eq_refl)) as [Hout Hready].
  destruct (@done_spec _ node Hwf Hout) as (g & Ed & Hwf' & Hk & Hs & Hst & Hneg).
  exists g. rewrite Eg. split; [exact Ed|].
  assert (Hmd : forall n, In (MarkedDone n) (tr ++ calls ++ [MarkedDone node]) <->
                          n = node \/ In (MarkedDone n) tr).
  { intros n. rewrite !in_app_iff. simpl. split.
    - intros [H|[H|[[= <-]|[]]]]; auto.
      apply Hcalls in H. destruct H as (h & ret & c & [=]).
    - intros [->|H]; auto. }
  constructor; simpl.
  - assumption.
  - intros p c. rewrite <- He. unfold edge. now rewrite Hs.
  - intros n. rewrite Hk. apply Hn.
  - assumption.
  - intros n Hin. destruct (Htodo n (or_intror Hin)) as [H1 H2].
    split; [|apply in_or_app; now left].
    apply Hneg; [intros ->; contradiction | reflexivity | assumption].
  - intros n. rewrite Hmd. destruct (string_dec n node) as [->|N].
    + split; [now left | intros _; assumption].
    + rewrite Hneg by (assumption || reflexivity). rewrite Hd.
      split; [now right | intros [H|H]; [contradiction | assumption]].
  - intros n H. apply Hmd in H. apply Hcs.
    destruct H as [->|H]; [now left | right; auto].
  - intros n H. apply held_back_app in H. destruct H as [H|H].
    + destruct (Hh n H) as (H1 & H2 & H3).
      assert (N : n <> node) by (intros ->; apply H2; now left).
      split; [|split].
      * apply Hneg; [assumption | reflexivity | assumption].
      * intros Hin. apply H2. now right.
      * intros Hin. apply Hcs in Hin. destruct Hin; contradiction.
    + apply held_back_app in H. destruct H as [H|(c & [[[=]|[]]|[[=]|[]]])].
      now destruct (Hnh n).
  - rewrite app_assoc. apply trace_ok_app.
    + eapply trace_ok_calls; eassumption.
    + intros n1 e n2 Hsplit.
      destruct n1 as [|e1 n1]; [|destruct n1; discriminate].
      injection Hsplit as <- _. simpl. rewrite app_nil_r.
      apply in_or_app. now left.
Qed.

(** The node at the head of the batch leaves the batch without being
    marked done, after the calls [calls] on its stage. *)
Lemma pass_inv_held (node : string) (rest : list string) (q q1 : Quest QD)
    (tr calls : list Event) :
  pass_inv (node :: rest) q tr ->
  graph q1 = graph q ->
  completed_stages q1 = completed_stages q ->
  ~ In node (completed_stages q) ->
  calls_on node calls ->
  pass_inv rest q1 (tr ++ calls).
Proof.
  intros [Hwf He Hn Hnd Htodo Hd Hc Hh Ht] Eg Hcs Hnc Hcalls.
  inversion Hnd as [|? ? Hnotin Hnd']; subst.
  destruct (Htodo node (or_introl eq_refl)) as [Hout Hready].
  assert (Hmd : forall n, In (MarkedDone n) (tr ++ calls) <-> In (MarkedDone n) tr).
  { intros n. rewrite in_app_iff. split; [|auto].
    intros [H|H]; [assumption|].
    apply Hcalls in H. destruct H as (h & ret & c & [=]). }
  constructor; rewrite ?Eg, ?Hcs.
  - assumption.
  - assumption.
  - assumption.
  - assumption.
  - intros n Hin. destruct (Htodo n (or_intror Hin)) as [H1 H2].
    split; [assumption | apply in_or_app; now left].
  - intros n. rewrite Hmd. apply Hd.
  - intros n H. apply Hmd in H. auto.
  - intros n H. apply held_back_app in H. destruct H as [H|H].
    + destruct (Hh n H) as (H1 & H2 & H3).
      split; [assumption|]. split; [|assumption].
      intros Hin. apply H2. now right.
    + apply (held_back_calls Hcalls) in H. subst n. auto.
  - eapply trace_ok_calls; eassumption.
Qed.

Lemma run_stage_sched (node : string) (rest : list string)
    (S : Stage QD Ext Loc) (q : Quest QD) (x : Ext) (tr : list Event)
    (q' : Quest QD) (x' : Ext) (t : list Event) (r : result unit) :
  pass_inv (node :: rest) q tr ->
  mem node (completed_stages q) = false ->
  run_stage node S q x = (q', x', t, r) ->
  r = Ok tt /\ pass_inv rest q' (tr ++ t).
Proof.
  intros Hinv Hm E. apply mem_not_In in Hm.
  unfold_run_stage_in E. cbv zeta in E.
  set (e0 := stage_init S q x) in *. set (q0 := after q e0) in *.
  set (e1 := prepare S q0 (eff_self e0) (eff_ext e0)) in *.
  set (q1 := after q0 e1) in *.
  set (e2 := condition S q1 (eff_self e1) (eff_ext e1)) in *.
  set (q2 := after q1 e2) in *.
  set (e3 := execute S q2 (eff_self e2) (eff_ext e2)) in *.
  set (q3 := after q2 e3) in *.
  set (e4 := is_done S q3 (eff_self e3) (eff_ext e3)) in *.
  unfold called in E.
  destruct (eff_ret e2) eqn:E2.
  - destruct (eff_ret e4) eqn:E4.
    + match type of E with
      | context [graphlib.done (graph ?q5) node] =>
          destruct (@pass_inv_done node rest q q5 tr
            [Called node Instantiate None (eff_complete e0);
             Called node Prepare None (eff_complete e1);
             Called node Condition (Some true) (eff_complete e2);
             Called node Execute None (eff_complete e3);
             Called node IsDone (Some true) (eff_complete e4)] Hinv)
            as (g & Ed & Hinv')
      end.
      * reflexivity.
      * intros n. simpl. rewrite in_app_iff. simpl. intuition congruence.
      * intros e He. simpl in He.
        repeat (destruct He as [<-|He]; [eauto|]). contradiction.
      * intros n (c & [H|H]); simpl in H;
          repeat (destruct H as [H|H]; [discriminate|]); contradiction.
      * rewrite Ed in E. injection E as <- <- <- <-.
        split; [reflexivity|]. exact Hinv'.
    + injection E as <- <- <- <-. split; [reflexivity|].
      apply pass_inv_held with (node := node) (q := q); try assumption;
        try reflexivity.
      intros e He. simpl in He.
      repeat (destruct He as [<-|He]; [eauto|]). contradiction.
  - injection E as <- <- <- <-. split; [reflexivity|].
    apply pass_inv_held with (node := node) (q := q); try assumption;
      try reflexivity.
    intros e He. simpl in He.
    repeat (destruct He as [<-|He]; [eauto|]). contradiction.
Qed.

Lemma for_nodes_sched (nodes : list string) :
  forall q x tr q' x' t r,
    pass_inv nodes q tr ->
    for_nodes cls nodes q x = (q', x', t, r) ->
    exists todo s,
      r = Ok s /\ pass_inv todo q' (tr ++ t) /\
      (s = Fallthrough -> todo = []) /\
      (s = Returned -> complete q' = true).
Proof.
  induction nodes as [|node rest IH]; intros q x tr q' x' t r Hinv; simpl.
  - intros [= <- <- <- <-]. exists [], Fallthrough. rewrite app_nil_r.
    split; [reflexivity|]. split; [assumption|].
    split; [reflexivity | discriminate].
  - destruct (complete q) eqn:Ec.
    { intros [= <- <- <- <-]. exists (node :: rest), Returned.
      rewrite app_nil_r. split; [reflexivity|]. split; [assumption|].
      split; [discriminate | intros _; assumption]. }
    destruct (mem node (completed_stages q)) eqn:Em.
    + destruct (@pass_inv_done node rest q q tr [] Hinv eq_refl)
        as (g & Ed & Hinv').
      * intros n. apply mem_In in Em. intuition congruence.
      * intros e [].
      * intros n (c & [[]|[]]).
      * rewrite Ed.
        destruct (for_nodes cls rest (set_graph q g) x) as [[[q1 x1] t1] r1] eqn:Ef.
        intros [= <- <- <- <-].
        destruct (IH _ _ _ _ _ _ _ Hinv' Ef) as (todo & s & -> & H1 & H2 & H3).
        exists todo, s. simpl in H1. rewrite <- app_assoc in H1. auto.
    + destruct (get (stages cls) node) as [S|] eqn:Es.
      * destruct (run_stage node S q x) as [[[q1 x1] t1] r1] eqn:Er.
        destruct (@run_stage_sched _ _ _ _ _ _ _ _ _ _ Hinv Em Er) as (-> & Hinv').
        destruct (for_nodes cls rest q1 x1) as [[[q2 x2] t2] r2] eqn:Ef.
        intros [= <- <- <- <-].
        destruct (IH _ _ _ _ _ _ _ Hinv' Ef) as (todo & s & -> & H1 & H2 & H3).
        exists todo, s. rewrite app_assoc. auto.
      * exfalso.
        destruct (pi_todo Hinv node (or_introl eq_refl)) as [Hout _].
        apply status_Some in Hout. destruct Hout as (i & Hg & _).
        apply get_Some_keys, (pi_nodes Hinv) in Hg.
        unfold contains in Hg. now rewrite Es in Hg.
Qed.

Lemma while_active_sched (fuel : nat) :
  forall q x tr q' x' t r,
    pass_inv [] q tr ->
    while_active cls fuel q x = (q', x', t, r) ->
    r <> OutOfFuel ->
    r = Ok tt /\ exists todo, pass_inv todo q' (tr ++ t).
Proof.
  induction fuel as [|fuel IH]; intros q x tr q' x' t r Hinv; simpl.
  - intros [= <- <- <- <-] H. now destruct H.
  - destruct (wf_ready (pi_wf Hinv)) as (ready & Er & _).
    unfold graphlib.is_active. rewrite Er.
    destruct (Z.ltb _ _ || _).
    + destruct (pass_inv_ready Hinv) as (g & batch & Eg & Hinv').
      rewrite Eg. destruct batch as [|n batch].
      * intros [= <- <- <- <-] _. split; [reflexivity|]. eauto.
      * destruct (for_nodes cls (n :: batch) (set_graph q g) x)
          as [[[q2 x2] t2] r2] eqn:Ef.
        destruct (@for_nodes_sched _ _ _ _ _ _ _ _ Hinv' Ef)
          as (todo & s & -> & H1 & H2 & H3).
        destruct s.
        -- rewrite (H2 eq_refl) in H1.
           destruct (while_active cls fuel q2 x2) as [[[q3 x3] t3] r3] eqn:Ew.
           intros [= <- <- <- <-] Hr.
           destruct (IH _ _ _ _ _ _ _ H1 Ew Hr) as (-> & todo' & H4).
           split; [reflexivity|]. exists todo'.
           rewrite <- !app_assoc in H4. exact H4.
        -- intros [= <- <- <- <-] _. split; [reflexivity|]. exists todo.
           rewrite <- app_assoc in H1. exact H1.
    + intros [= <- <- <- <-] _. split; [reflexivity|]. exists [].
      now rewrite app_nil_r.
Qed.

Lemma graph_of_stages_pass_inv (q : Quest QD) :
  graph_of_stages cls (graph q) -> pass_inv [] q [].
Proof.
  intros [Hwf He Hn Ha Hf]. constructor; try assumption.
  - constructor.
  - intros n [].
  - intros n. split; [|intros []].
    intros H. apply Hf in H. unfold graphlib._NODE_DONE in H. lia.
  - intros n [].
  - intros n (c & [[]|[]]).
  - intros t1 e t2 H. destruct t1; discriminate.
Qed.

(** A pass over a quest whose graph is fresh from [load_stages] returns
    normally, and leaves the scheduling invariant behind. *)
Lemma execute_stages_sched (q : Quest QD) (tick : TickType) (x : Ext)
    (q' : Quest QD) (x' : Ext) (t : list Event) (r : result unit) :
  graph_of_stages cls (graph q) ->
  execute_stages q tick x = (q', x', t, r) ->
  r = Ok tt /\ exists todo, pass_inv todo q' t.
Proof.
  intros Hg E. pose proof (execute_stages_terminates cls q tick x) as Ht.
  rewrite E in Ht. simpl in Ht. unfold_execute_stages_in E.
  pose proof (@graph_of_stages_pass_inv q Hg) as Hinv.
  exact (@while_active_sched _ _ _ _ _ _ _ _ Hinv E Ht).
Qed.

End Scheduling.

(** ** A pass over a freshly constructed quest *)

Lemma trace_ok_ancestors (E : string -> string -> Prop) (tr : list Event) :
  trace_ok E tr ->
  forall p n, clos_trans string E p n ->
  forall t1 t2, tr = t1 ++ Ready n :: t2 -> In (MarkedDone p) t1.
Proof.
  intros Ht p n H. apply clos_trans_tn1 in H.
  induction H as [n Hpn|m n Hmn Hpm IH]; intros t1 t2 E1.
  - exact (Ht _ _ _ E1 p Hpn).
  - pose proof (Ht _ _ _ E1 m Hmn) as Hm.
    apply in_split in Hm. destruct Hm as (a & b & ->).
    rewrite <- app_assoc in E1. simpl in E1.
    pose proof (Ht _ _ _ E1) as Hr. simpl in Hr.
    apply in_split in Hr. destruct Hr as (a1 & a2 & ->).
    rewrite <- app_assoc in E1. simpl in E1.
    apply IH in E1. rewrite !in_app_iff. auto.
Qed.

(** The reading of [children] as the dependencies of a stage: whenever a
    stage is reported ready, every stage in its [children] list has been
    marked done. *)
Definition children_are_dependencies (QD Ext Loc : Type)
    (cls : QuestClass QD Ext Loc) (t : list Event) : Prop :=
  forall t1 n t2 S d,
    t = t1 ++ Ready n :: t2 ->
    get (stages cls) n = Some S -> In d (children S) ->
    In (MarkedDone d) t1.

Section FirstPass.

Context {QD Ext Loc Doc TickType : Type}.
Variable parse_obj : Doc -> string + StorageModel.
Variable VersionInfo_parse : string -> option VersionInfo.
Variable cls : QuestClass QD Ext Loc.

Local Abbreviation Quest_init db := (Quest_init parse_obj VersionInfo_parse cls db).
Local Abbreviation execute_stages := (@execute_stages QD Ext Loc TickType cls).

(** C1 (amended): the [children] of a stage are the stages that come
    after it.  In a pass over a freshly constructed quest, which returns
    normally, a stage is reported ready only after every stage that lists
    it among its children, directly or through other stages, has been
    marked done, and it is instantiated or called only after it was
    reported ready; for [A] with children [B] and [B] without children,
    the pass runs [A] and then [B]. *)
Theorem ready_after_parents :
  (forall db k o q tick x q' x' t r,
      Quest_init db k = (o, Ok q) ->
      execute_stages q tick x = (q', x', t, r) ->
      r = Ok tt /\
      (forall t1 n t2 p,
          t = t1 ++ Ready n :: t2 ->
          clos_trans string (child_of cls) p n ->
          In (MarkedDone p) t1) /\
      (forall t1 n h ret c t2 p,
          t = t1 ++ Called n h ret c :: t2 ->
          In (Ready n) t1 /\
          (clos_trans string (child_of cls) p n -> In (MarkedDone p) t1))) /\
  Demo.first_pass Demo.A_then_B Demo.empty_db "g:DemoQuest" =
  Some (["A"; "B"], false,
        [Ready "A";
         Called "A" Instantiate None false; Called "A" Prepare None false;
         Called "A" Condition (Some true) false;
         Called "A" Execute None false; Called "A" IsDone (Some true) false;
         MarkedDone "A";
         Ready "B";
         Called "B" Instantiate None false; Called "B" Prepare None false;
         Called "B" Condition (Some true) false;
         Called "B" Execute None false; Called "B" IsDone (Some true) false;
         MarkedDone "B"]).
Proof.
  split; [|reflexivity].
  intros db k o q tick x q' x' t r Hi E.
  destruct (Quest_init_Ok _ _ _ _ _ Hi) as (_ & _ & _ & Hg & _).
  destruct (execute_stages_sched q tick x Hg E) as (Hr & todo & Hinv).
  pose proof (pi_trace Hinv) as Ht.
  split; [exact Hr|]. split.
  - intros t1 n t2 p E1 Hp. eapply trace_ok_ancestors; eassumption.
  - intros t1 n h ret c t2 p E1.
    pose proof (Ht _ _ _ E1) as Hready. simpl in Hready.
    split; [exact Hready|]. intros Hp.
    apply in_split in Hready. destruct Hready as (a & b & ->).
    rewrite <- app_assoc in E1. simpl in E1.
    rewrite in_app_iff. left.
    eapply trace_ok_ancestors; eassumption.
Qed.

(** C9: in a pass over a freshly constructed quest, a stage whose
    [condition] answered false, or whose [is_done] answered false after
    [execute], is not appended to [completed_stages] and is not marked
    done in the graph (it stays handed out); in a quest constructed
    later from the snapshot of this one it is again absent from
    [completed_stages] and unmarked in the graph, and whenever the pass
    reaches such a stage while [complete] is false it starts it anew,
    down to [condition]. *)
Theorem held_back_stage_stays_pending db k o q tick x q' x' t r n :
  Quest_init db k = (o, Ok q) ->
  execute_stages q tick x = (q', x', t, r) ->
  held_back n t ->
  (~ In n (completed_stages q') /\ ~ In (MarkedDone n) t /\
   status (graphlib._node2info (graph q')) n = Some graphlib._NODE_OUT) /\
  (forall db2 doc2 o2 q2,
      db2 k = Some doc2 ->
      parse_obj doc2 = inr (get_storage_model cls q') ->
      Quest_init db2 k = (o2, Ok q2) ->
      ~ In n (completed_stages q2) /\
      forall z, status (graphlib._node2info (graph q2)) n = Some z -> (0 <= z)%Z) /\
  (forall qs xs rest,
      complete qs = false -> ~ In n (completed_stages qs) ->
      exists c0 c1 b c2 t',
        snd (fst (for_nodes cls (n :: rest) qs xs)) =
        Called n Instantiate None c0 :: Called n Prepare None c1
        :: Called n Condition (Some b) c2 :: t').
Proof.
  intros Hi E Hh.
  destruct (Quest_init_Ok _ _ _ _ _ Hi) as (_ & _ & _ & Hg & _).
  destruct (execute_stages_sched q tick x Hg E) as (Hr & todo & Hinv).
  destruct (pi_held Hinv Hh) as (Hout & _ & Hnc).
  split; [|split].
  - split; [assumption|]. split; [|assumption].
    intros Hm. apply (pi_done Hinv) in Hm. rewrite Hout in Hm. discriminate.
  - intros db2 doc2 o2 q2 Hd Hp Hi2.
    destruct (Quest_init_Ok _ _ _ _ _ Hi2) as (_ & _ & _ & Hg2 & _ & Hst).
    destruct (Hst _ _ Hd Hp) as (_ & Hcs & _). simpl in Hcs.
    split; [now rewrite Hcs|]. intros z Hz. eapply gs_fresh; eassumption.
  - intros qs xs rest Hc Hn. simpl. rewrite Hc.
    rewrite (proj2 (mem_not_In _ _) Hn).
    assert (Hs : exists S, get (stages cls) n = Some S).
    { apply status_Some in Hout. destruct Hout as (i & Hgi & _).
      apply get_Some_keys, (pi_nodes Hinv) in Hgi. unfold contains in Hgi.
      destruct (get (stages cls) n) as [S|]; [eauto | discriminate]. }
    destruct Hs as (S & ->).
    destruct (run_stage n S qs xs) as [[[q1 x1] t1] r1] eqn:Er.
    assert (Ht1 : exists c0 c1 b c2 t0,
              t1 = Called n Instantiate None c0 :: Called n Prepare None c1
                   :: Called n Condition (Some b) c2 :: t0).
    { unfold run_stage in Er. cbv zeta in Er. unfold called in Er.
      repeat match type of Er with
             | context [if ?b then _ else _] => destruct b
             | context [match graphlib.done ?g ?m with _ => _ end] =>
                 destruct (graphlib.done g m) as [? [[]| |]]
             end;
        injection Er as <- <- <- <-; simpl; eauto 10. }
    destruct Ht1 as (c0 & c1 & b & c2 & t0 & ->).
    destruct r1 as [[]|e|]; simpl.
    + destruct (for_nodes cls rest q1 x1) as [[[q2 x2] t2] r2]. simpl. eauto 10.
    + eauto 10.
    + eauto 10.
Qed.

End FirstPass.

(** ** Instances *)

Lemma load_error_assigns_nothing_witness :
  fst (load Demo.parse_obj Demo.parse_plain Demo.old_code
         (Demo.db_with Demo.key Demo.newer_doc) (unloaded Demo.QD Demo.key))
  = unloaded Demo.QD Demo.key.
Proof.
  eapply (proj1 (load_error_assigns_nothing Demo.parse_obj Demo.parse_plain
                   Demo.old_code (Demo.db_with Demo.key Demo.newer_doc)
                   (unloaded Demo.QD Demo.key))).
  reflexivity.
Defined.

Lemma load_stages_cycle_witness :
  clos_trans string (child_of Demo.cyclic) "A" "A" /\
  exists g msg cause,
    load_stages Demo.cyclic (unloaded Demo.QD Demo.key)
    = (with_graph (unloaded Demo.QD Demo.key) g,
       Raise (QuestDefinitionError msg cause)).
Proof.
  assert (H : clos_trans string (child_of Demo.cyclic) "A" "A").
  { apply t_trans with (y := "B"); apply t_step; eexists; simpl; split;
      [left; reflexivity | simpl; auto
      |right; left; reflexivity | simpl; auto]. }
  split; [exact H|].
  exact (proj1 (load_stages_cycle Demo.parse_obj Demo.parse_plain
                  Demo.empty_db (unloaded Demo.QD Demo.key) H)).
Defined.

Lemma load_stages_missing_stage_witness :
  contains (stages Demo.dangling) "X" = false /\
  forall k q, snd (Demo.construct Demo.dangling Demo.empty_db k) <> Ok q.
Proof.
  split; [reflexivity|].
  refine (proj2 (load_stages_missing_stage Demo.parse_obj Demo.parse_plain
                   Demo.dangling Demo.empty_db (unloaded Demo.QD Demo.key)
                   "A" "X" (Demo.stage "A" ["X"] true true false) _ _ _)).
  - simpl. auto.
  - simpl. auto.
  - reflexivity.
Defined.

Lemma Quest_init_blank_key_witness :
  Demo.construct Demo.A_then_B Demo.empty_db ""
  = (None, Raise (ValueError "Key can't be blank")).
Proof.
  apply (proj2 (proj1 (Quest_init_blank_key Demo.parse_obj Demo.parse_plain
                         Demo.A_then_B Demo.empty_db ""))).
  reflexivity.
Defined.

Lemma execute_stages_complete_noop_witness :
  exists o q q' x' t r,
    Demo.construct Demo.A_then_B (Demo.db_with Demo.key Demo.concluded_doc) Demo.key
    = (o, Ok q) /\
    complete q = true /\
    execute_stages Demo.A_then_B q Demo.FULL [] = (q', x', t, r) /\
    completed_stages q' = completed_stages q /\ r = Ok tt.
Proof.
  do 6 eexists.
  match goal with
  | |- ?A /\ _ => assert (HA : A) by (vm_compute; reflexivity)
  end.
  match goal with
  | |- _ /\ ?B /\ _ => assert (HB : B) by (vm_compute; reflexivity)
  end.
  match goal with
  | |- _ /\ _ /\ ?C /\ _ => assert (HC : C) by (vm_compute; reflexivity)
  end.
  split; [exact HA|]. split; [exact HB|]. split; [exact HC|].
  split; [|reflexivity].
  exact (proj1 (proj2 (proj2 (execute_stages_complete_noop _ _ _ _ HB HC)))).
Defined.

Lemma no_stage_started_once_complete_witness :
  exists o q q' x' t r,
    Demo.construct Demo.fork Demo.empty_db Demo.key = (o, Ok q) /\
    execute_stages Demo.fork q Demo.FULL [] = (q', x', t, r) /\
    In (Called "F1" Execute None true) t /\
    forall t1 n ret f t2,
      t = t1 ++ Called n Instantiate ret f :: t2 ->
      flag_after (complete q) t1 = false.
Proof.
  do 6 eexists.
  match goal with
  | |- ?A /\ _ => assert (HA : A) by (vm_compute; reflexivity)
  end.
  match goal with
  | |- _ /\ ?B /\ _ => assert (HB : B) by (vm_compute; reflexivity)
  end.
  split; [exact HA|]. split; [exact HB|].
  split; [simpl; tauto|].
  exact (proj1 (no_stage_started_once_complete _ _ _ _ HB)).
Defined.

Lemma completed_stages_append_only_witness :
  exists o q q' x' t r,
    Demo.construct Demo.stuck Demo.empty_db Demo.key = (o, Ok q) /\
    execute_stages Demo.stuck q Demo.FULL [] = (q', x', t, r) /\
    NoDup (completed_stages q) /\ NoDup (completed_stages q').
Proof.
  do 6 eexists.
  match goal with
  | |- ?A /\ _ => assert (HA : A) by (vm_compute; reflexivity)
  end.
  match goal with
  | |- _ /\ ?B /\ _ => assert (HB : B) by (vm_compute; reflexivity)
  end.
  split; [exact HA|]. split; [exact HB|].
  split; [constructor|].
  match type of HB with
  | execute_stages _ ?Q _ _ = _ =>
      exact (proj1 (@completed_stages_append_only _ _ _ _ Demo.stuck Q
                      Demo.FULL [] _ _ _ _ (NoDup_nil string) HB))
  end.
Defined.

Lemma ready_after_parents_witness :
  exists o q q' x' t r,
    Demo.construct Demo.A_then_B Demo.empty_db Demo.key = (o, Ok q) /\
    execute_stages Demo.A_then_B q Demo.FULL [] = (q', x', t, r) /\
    r = Ok tt.
Proof.
  do 6 eexists.
  match goal with
  | |- ?A /\ _ => assert (HA : A) by (vm_compute; reflexivity)
  end.
  match goal with
  | |- _ /\ ?B /\ _ => assert (HB : B) by (vm_compute; reflexivity)
  end.
  split; [exact HA|]. split; [exact HB|].
  exact (proj1 (proj1 (ready_after_parents Demo.parse_obj Demo.parse_plain
                         Demo.A_then_B)
                  Demo.empty_db Demo.key _ _ Demo.FULL [] _ _ _ _ HA HB)).
Defined.

(** With [children] read as dependencies ([A] without any, [B] listing
    [A]) the pass reports [B] ready, and runs it, before [A] is done. *)
Lemma children_are_dependencies_counterexample :
  Demo.first_pass Demo.B_lists_A Demo.empty_db Demo.key =
  Some (["B"; "A"], false,
        [Ready "B";
         Called "B" Instantiate None false; Called "B" Prepare None false;
         Called "B" Condition (Some true) false;
         Called "B" Execute None false; Called "B" IsDone (Some true) false;
         MarkedDone "B";
         Ready "A";
         Called "A" Instantiate None false; Called "A" Prepare None false;
         Called "A" Condition (Some true) false;
         Called "A" Execute None false; Called "A" IsDone (Some true) false;
         MarkedDone "A"]) /\
  exists t,
    option_map snd (Demo.first_pass Demo.B_lists_A Demo.empty_db Demo.key)
    = Some t /\
    ~ children_are_dependencies Demo.B_lists_A t.
Proof.
  split; [vm_compute; reflexivity|].
  eexists. split; [vm_compute; reflexivity|].
  intros H.
  exact (H [] "B" _ (Demo.stage "B" ["A"] true true false) "A"
           eq_refl eq_refl (or_introl eq_refl)).
Qed.

Lemma held_back_stage_stays_pending_witness :
  exists o q q' x' t r,
    Demo.construct Demo.stuck Demo.empty_db Demo.key = (o, Ok q) /\
    execute_stages Demo.stuck q Demo.FULL [] = (q', x', t, r) /\
    held_back "A" t /\
    ~ In "A" (completed_stages q').
Proof.
  do 6 eexists.
  match goal with
  | |- ?A /\ _ => assert (HA : A) by (vm_compute; reflexivity)
  end.
  match goal with
  | |- _ /\ ?B /\ _ => assert (HB : B) by (vm_compute; reflexivity)
  end.
  split; [exact HA|]. split; [exact HB|].
  match goal with
  | |- ?C /\ _ => assert (HC : C) by (exists false; right; simpl; tauto)
  end.
  split; [exact HC|].
  exact (proj1 (proj1 (held_back_stage_stays_pending Demo.parse_obj
                         Demo.parse_plain Demo.stuck Demo.empty_db Demo.key
                         Demo.FULL [] HA HB HC))).
Defined.

(** An execution pass always comes to an end: on every quest, whatever
    the state of its sorter and whatever the hooks of its stages do,
    [execute_stages] returns or raises within the budget of its loop. *)
Theorem execute_stages_total :
  forall (QD Ext Loc TickType : Type) (cls : QuestClass QD Ext Loc)
         (q : Quest QD) (tick : TickType) (x : Ext),
    exists q' x' t r,
      execute_stages cls q tick x = (q', x', t, r) /\
      (r = Ok tt \/ exists e, r = Raise e).
Proof.
  intros QD Ext Loc TickType cls q tick x.
  pose proof (execute_stages_terminates cls q tick x) as H.
  destruct (execute_stages cls q tick x) as [[[q' x'] t] r].
  exists q', x', t, r. split; [reflexivity|].
  simpl in H. destruct r as [[]|e|].
  - left. reflexivity.
  - right. exists e. reflexivity.
  - exfalso. now apply H.
Qed.

(** * The rest of [Quest]: keys, the registry, the store *)

(** ** Python strings and lists *)

(** [s.split(sep)] for a separator of one character. *)
Fixpoint split (s : string) (sep : ascii) : list string :=
  match s with
  | EmptyString => [""]
  | String c s' =>
      if Ascii.eqb c sep then "" :: split s' sep
      else
        match split s' sep with
        | h :: t => String c h :: t
        | [] => [String c ""]
        end
  end.

(** [l[-1]]; [None] is [IndexError]. *)
Fixpoint nth_last (l : list string) : option string :=
  match l with
  | [] => None
  | [x] => Some x
  | _ :: t => nth_last t
  end.

(** Exceptions seen by the callers of the class methods: those of the
    constructor, [QuestError] (app/quest/exceptions.py) and
    [IndexError]. *)
Inductive class_exn : Type :=
| Constructor (e : exn)
| QuestError (msg : string) (cause : builtin_exn)
| IndexError (msg : string).

(** How a generator came to stop. *)
Inductive stopped : Type :=
| Finished              (* StopIteration *)
| Raised (e : class_exn)
| Overran.

Section Registry.

Variable QD : Type.
Variable Ext : Type.
Variable Loc : Type.
Variable Doc : Type.
Variable parse_obj : Doc -> string + StorageModel.
Variable VersionInfo_parse : string -> option VersionInfo.
(** [StorageModel.dict()] *)
Variable dict_of : StorageModel -> Doc.

(** [all_quests] and [FIRST_QUEST_KEY] of app/quest/loader.py. *)
Variable all_quests : dict (QuestClass QD Ext Loc).
Variable FIRST_QUEST_KEY : string.

(** [get_by_name] *)
Definition get_by_name (name : string)
  : class_exn + QuestClass QD Ext Loc :=
  match get all_quests name with
  | Some c => inr c
  | None =>
      inl (QuestError (String.append "No quest name " name) (KeyError name))
  end.

(** [get_first_quest] *)
Definition get_first_quest : class_exn + QuestClass QD Ext Loc :=
  get_by_name FIRST_QUEST_KEY.

(** [make_key]: key for referencing in database; [game_key] is
    [game.key]. *)
Definition make_key (cls : QuestClass QD Ext Loc) (game_key : string)
  : string :=
  String.append game_key (String.append ":" (cls_name cls)).

(** [key_to_quest_name] *)
Definition key_to_quest_name (key : string) : option string :=
  nth_last (split key ":").

(** [from_game] *)
Definition from_game (cls : QuestClass QD Ext Loc)
    (db : string -> option Doc) (game_key : string)
  : option (Attrs QD) * result (Quest QD) :=
  let key := make_key cls game_key in
  Quest_init parse_obj VersionInfo_parse cls db key.

(** [iterate_all]: [docs] are the ids of the documents the query
    streams, in order; the quests yielded before the generator stops
    are returned with the way it stopped.  The store is the same for
    every document. *)
Fixpoint iterate_all (db : string -> option Doc) (docs : list string)
  : list (Quest QD) * stopped :=
  match docs with
  | [] => ([], Finished)
  | key :: rest =>
      match key_to_quest_name key with
      | None => ([], Raised (IndexError "list index out of range"))
      | Some quest_name =>
          match get_by_name quest_name with
          | inl e => ([], Raised e)
          | inr QuestClass =>
              match snd (Quest_init parse_obj VersionInfo_parse
                           QuestClass db key) with
              | Ok quest =>
                  let (yielded, r) := iterate_all db rest in
                  (quest :: yielded, r)
              | Raise e => ([], Raised (Constructor e))
              | OutOfFuel => ([], Overran)
              end
          end
      end
  end.

(** [exists]: whether quest exists in the database. *)
Definition exists_ (db : string -> option Doc) (q : Quest QD) : bool :=
  match db (key q) with
  | Some _ => true
  | None => false
  end.

(** [save]: save data to storage; the document under the quest's key is
    replaced. *)
Definition save (cls : QuestClass QD Ext Loc) (db : string -> option Doc)
    (q : Quest QD) : string -> option Doc :=
  fun k =>
    if String.eqb k (key q) then Some (dict_of (get_storage_model cls q))
    else db k.

End Registry.

(** ** [split] and [key_to_quest_name] *)

Definition chars (s : string) : list ascii := list_ascii_of_string s.

Lemma split_nonempty (s : string) (sep : ascii) : split s sep <> [].
Proof.
  destruct s as [|c s]; simpl; [discriminate|].
  destruct (Ascii.eqb c sep); [discriminate|].
  destruct (split s sep); discriminate.
Qed.

Lemma nth_last_cons (x : string) (l : list string) :
  l <> [] -> nth_last (x :: l) = nth_last l.
Proof.
  destruct l; [congruence | reflexivity].
Qed.

Lemma nth_last_snoc (l : list string) (x : string) :
  nth_last (l ++ [x]) = Some x.
Proof.
  induction l as [|y l IH]; [reflexivity|].
  change ((y :: l) ++ [x]) with (y :: (l ++ [x])).
  rewrite nth_last_cons; [assumption | destruct l; discriminate].
Qed.

(** A string without the separator is not cut. *)
Lemma split_whole (s : string) (sep : ascii) :
  ~ In sep (chars s) -> split s sep = [s].
Proof.
  induction s as [|c s IH]; simpl; [reflexivity|].
  intros H. destruct (Ascii.eqb_spec c sep) as [->|N].
  - exfalso. apply H. now left.
  - rewrite IH; [reflexivity|]. intros Hin. apply H. now right.
Qed.

(** ["p:n".split(":")] is [p.split(":") + n.split(":")]. *)
Lemma split_append (p n : string) (sep : ascii) :
  split (String.append p (String sep n)) sep = split p sep ++ split n sep.
Proof.
  induction p as [|c p IH]; simpl.
  - now rewrite Ascii.eqb_refl.
  - destruct (Ascii.eqb c sep).
    + now rewrite IH.
    + rewrite IH. destruct (split p sep) as [|h t] eqn:E.
      * now apply split_nonempty in E.
      * reflexivity.
Qed.

Lemma split_last (s : string) (sep : ascii) :
  exists name,
    nth_last (split s sep) = Some name /\
    ~ In sep (chars name) /\
    ((split s sep = [name] /\ s = name) \/
     (exists h t p, split s sep = h :: t /\ t <> [] /\
                    s = String.append p (String sep name))).
Proof.
  induction s as [|c s IH].
  - exists "". split; [reflexivity|]. split; [intros []|]. left. auto.
  - destruct IH as (name & Hl & Hn & Hs). simpl.
    destruct (Ascii.eqb_spec c sep) as [->|N].
    + exists name. split; [|split; [assumption|]].
      * rewrite nth_last_cons; [assumption | apply split_nonempty].
      * right. exists "", (split s sep).
        destruct Hs as [[_ ->]|(h & t & p & _ & _ & ->)].
        -- exists "". split; [reflexivity|].
           split; [apply split_nonempty | reflexivity].
        -- exists (String sep p). split; [reflexivity|].
           split; [apply split_nonempty | reflexivity].
    + destruct Hs as [[E ->]|(h & t & p & E & Ht & ->)]; rewrite E.
      * exists (String c name). split; [reflexivity|]. split.
        -- intros [H|H]; [now apply N | now apply Hn].
        -- left. auto.
      * exists name. split; [|split; [assumption|]].
        -- rewrite E in Hl. rewrite nth_last_cons in Hl |- *; assumption.
        -- right. exists (String c h), t, (String c p). auto.
Qed.

Ltac unfold_from_game := unfold from_game.
Ltac unfold_from_game_in H := unfold from_game in H.
Ltac unfold_iterate_all := unfold iterate_all.
Ltac unfold_get_by_name := unfold get_by_name.
Ltac unfold_load_stages_in H := unfold load_stages in H.
Ltac unfold_load_stages := unfold load_stages.
Ltac unfold_save := unfold save.

Section RegistryFacts.

Context {QD Ext Loc Doc : Type}.
Variable parse_obj : Doc -> string + StorageModel.
Variable VersionInfo_parse : string -> option VersionInfo.
Variable dict_of : StorageModel -> Doc.
Variable all_quests : dict (QuestClass QD Ext Loc).

Local Abbreviation Quest_init := (Quest_init parse_obj VersionInfo_parse).
Local Abbreviation from_game := (from_game parse_obj VersionInfo_parse).
Local Abbreviation iterate_all :=
  (iterate_all parse_obj VersionInfo_parse all_quests).
Local Abbreviation get_by_name := (get_by_name all_quests).

Lemma key_to_quest_name_Some (key : string) :
  exists name,
    key_to_quest_name key = Some name /\
    ~ In ":"%char (chars name) /\
    (key = name \/
     exists prefix, key = String.append prefix (String.append ":" name)) /\
    (~ In ":"%char (chars key) -> name = key).
Proof.
  unfold key_to_quest_name.
  destruct (split_last key ":") as (name & Hl & Hn & Hs).
  exists name. split; [assumption|]. split; [assumption|]. split.
  - destruct Hs as [[_ E]|(h & t & p & _ & _ & E)]; [now left|].
    right. exists p. exact E.
  - intros Hk. destruct Hs as [[_ E]|(h & t & p & E & Ht & _)]; [now symmetry|].
    rewrite (split_whole _ _ Hk) in E. injection E as _ <-. now destruct Ht.
Qed.

Lemma key_to_quest_name_of_made (cls : QuestClass QD Ext Loc)
    (game_key : string) :
  ~ In ":"%char (chars (cls_name cls)) ->
  key_to_quest_name (make_key cls game_key) = Some (cls_name cls).
Proof.
  intros H. unfold key_to_quest_name, make_key.
  change (String.append ":" (cls_name cls)) with (String ":" (cls_name cls)).
  rewrite split_append, (split_whole _ _ H). apply nth_last_snoc.
Qed.

(** [key_to_quest_name] never fails: every key has a quest name, which
    is what follows the last colon of the key (the whole key when it has
    none) and holds no colon itself. *)
Theorem key_to_quest_name_suffix (key : string) :
  exists name,
    key_to_quest_name key = Some name /\
    ~ In ":"%char (chars name) /\
    (key = name \/
     exists prefix, key = String.append prefix (String.append ":" name)) /\
    (~ In ":"%char (chars key) -> name = key).
Proof.
  exact (key_to_quest_name_Some key).
Qed.

(** The quest name read back from a key made by [make_key] is the name
    of the class, whatever the key of the game (colons included), as
    long as the class name holds no colon. *)
Theorem key_to_quest_name_make_key (cls : QuestClass QD Ext Loc)
    (game_key : string) :
  ~ In ":"%char (chars (cls_name cls)) ->
  key_to_quest_name (make_key cls game_key) = Some (cls_name cls).
Proof.
  exact (key_to_quest_name_of_made cls game_key).
Qed.

Lemma make_key_not_blank (cls : QuestClass QD Ext Loc) (game_key : string) :
  make_key cls game_key <> "".
Proof.
  unfold make_key. intros E.
  apply (f_equal String.length) in E. rewrite length_append in E.
  simpl in E. lia.
Qed.

(** [from_game] never trips the blank-key guard: the key
    [game.key:ClassName] is assigned, [load] runs and its outcome is the
    outcome of [from_game]; a quest that comes out carries that key. *)
Theorem from_game_loads (cls : QuestClass QD Ext Loc)
    (db : string -> option Doc) (game_key : string) :
  let k := String.append game_key (String.append ":" (cls_name cls)) in
  fst (from_game cls db game_key)
  = Some (fst (load parse_obj VersionInfo_parse cls db (unloaded QD k))) /\
  snd (from_game cls db game_key)
  = match snd (load parse_obj VersionInfo_parse cls db (unloaded QD k)) with
    | Ok _ => instance (fst (load parse_obj VersionInfo_parse cls db
                               (unloaded QD k)))
    | Raise e => Raise e
    | OutOfFuel => OutOfFuel
    end /\
  (forall q, snd (from_game cls db game_key) = Ok q -> key q = k).
Proof.
  intros k. unfold_from_game.
  change (make_key cls game_key) with k.
  assert (Hk : String.eqb k "" = false).
  { apply String.eqb_neq. apply make_key_not_blank. }
  split; [|split].
  - unfold_Quest_init. rewrite Hk.
    now destruct (load parse_obj VersionInfo_parse cls db (unloaded QD k))
      as [a [[]|e|]].
  - unfold_Quest_init. rewrite Hk.
    now destruct (load parse_obj VersionInfo_parse cls db (unloaded QD k))
      as [a [[]|e|]].
  - intros q Hq.
    destruct (Quest_init cls db k) as [o r] eqn:E. simpl in Hq. subst r.
    apply Quest_init_Ok in E. apply E.
Qed.

(** *** The constructor *)

Lemma Quest_init_no_overrun (cls : QuestClass QD Ext Loc)
    (db : string -> option Doc) (k : string) :
  snd (Quest_init cls db k) <> OutOfFuel.
Proof.
  unfold_Quest_init. destruct (String.eqb k ""); [discriminate|].
  pose proof (load_spec parse_obj VersionInfo_parse cls db (unloaded QD k)) as Hl.
  destruct (load parse_obj VersionInfo_parse cls db (unloaded QD k))
    as [a r] eqn:El.
  assert (Hr : r <> OutOfFuel).
  { inversion Hl; subst; try discriminate.
    - match goal with H : storage_outcome _ _ _ _ _ |- _ => inversion H end;
        subst; try discriminate.
    - match goal with
      | H' : load_stages _ _ = _ |- _ =>
          apply (load_stages_no_load_error _ _ H')
      end.
    - match goal with
      | H' : load_stages _ _ = _ |- _ =>
          apply (load_stages_no_load_error _ _ H')
      end. }
  destruct r as [[]|e|]; simpl; try discriminate; [|contradiction].
  unfold instance.
  destruct (a_quest_data a), (a_completed_stages a), (a_complete a),
    (a_graph a); discriminate.
Qed.

(** The stage graph can be built exactly when every child is a stage
    and the declarations hold no cycle. *)
Lemma load_stages_Ok (cls : QuestClass QD Ext Loc) (a : Attrs QD) :
  children_declared cls ->
  (forall u, ~ clos_trans string (child_of cls) u u) ->
  exists g, load_stages cls a = (with_graph a g, Ok tt) /\
            graph_of_stages cls g.
Proof.
  intros Hd Ha. pose proof (load_stages_spec cls a) as H.
  inversion H as [g r Hm E|g c Hdecl Hc E|g Hdecl Hg E].
  - exfalso. inversion Hm as [s c S Hin Hc Hn]. subst.
    rewrite (Hd s S c Hin Hc) in Hn. discriminate.
  - exfalso. apply is_cycle_clos_trans in Hc. destruct Hc as (u & _ & Hu).
    exact (Ha u Hu).
  - exists g. auto.
Qed.

(** What has to be stored under a key for the constructor to go
    through. *)
Definition loadable (cls : QuestClass QD Ext Loc)
    (db : string -> option Doc) (k : string) : Prop :=
  db k = None \/
  exists doc sm v d,
    db k = Some doc /\ parse_obj doc = inr sm /\
    VersionInfo_parse (sm_version sm) = Some v /\
    semver_safe v (version cls) = true /\
    parse_raw cls (sm_serialized_data sm) = inr d.

(** The constructor returns a quest exactly when the key is not blank,
    every child named by a stage is a stage of the quest, the [children]
    declarations hold no cycle, and what is stored under the key (if
    anything) parses, carries a version that is safe to load and a
    payload that deserializes. *)
Theorem Quest_init_succeeds_iff (cls : QuestClass QD Ext Loc)
    (db : string -> option Doc) (k : string) :
  (exists o q, Quest_init cls db k = (o, Ok q)) <->
  k <> "" /\ children_declared cls /\
  (forall u, ~ clos_trans string (child_of cls) u u) /\
  loadable cls db k.
Proof.
  split.
  - intros (o & q & E).
    destruct (Quest_init_Ok parse_obj VersionInfo_parse cls db k E)
      as (Hk & _ & Hd & Hg & _).
    split; [assumption|]. split; [assumption|].
    split; [exact (gs_acyclic Hg)|].
    revert E. unfold_Quest_init.
    destruct (String.eqb k ""); [discriminate|].
    unfold_load. simpl. unfold loadable.
    destruct (db k) as [doc|]; [|now left].
    destruct (parse_obj doc) as [err|sm] eqn:Ep; [discriminate|].
    unfold_load_storage_model.
    destruct (VersionInfo_parse (sm_version sm)) as [v|] eqn:Ev;
      [|discriminate].
    destruct (semver_safe v (version cls)) eqn:Es; [|discriminate]. simpl.
    destruct (parse_raw cls (sm_serialized_data sm)) as [err|d] eqn:Er;
      [discriminate|].
    intros _. right. exists doc, sm, v, d. auto.
  - intros (Hk & Hd & Ha & Hl).
    apply String.eqb_neq in Hk. unfold_Quest_init. rewrite Hk.
    unfold_load. simpl.
    destruct Hl as [->|(doc & sm & v & d & -> & -> & Ev & Es & Er)].
    + match goal with
      | |- context [load_stages cls ?a] =>
          destruct (load_stages_Ok a Hd Ha) as (g & -> & _)
      end.
      eexists _, _. reflexivity.
    + unfold_load_storage_model. rewrite Ev, Es, Er. simpl.
      match goal with
      | |- context [load_stages cls ?a] =>
          destruct (load_stages_Ok a Hd Ha) as (g & -> & _)
      end.
      eexists _, _. reflexivity.
Qed.

(** *** [iterate_all] *)

(** [iterate_all] yields one quest per streamed document, in order, each
    constructed under the document's id with the class registered under
    the quest name of that id; it stops at the first document whose
    quest name is not registered ([QuestError]) or whose constructor
    raises, having yielded the quests of the documents before it, and
    never with [IndexError]. *)
Theorem iterate_all_yields (db : string -> option Doc) (docs : list string)
    (ys : list (Quest QD)) (r : stopped) :
  iterate_all db docs = (ys, r) ->
  Forall (fun q => exists name c o,
              key_to_quest_name (key q) = Some name /\
              get all_quests name = Some c /\
              Quest_init c db (key q) = (o, Ok q)) ys /\
  match r with
  | Finished => docs = map (@key QD) ys
  | Raised e =>
      exists k rest name,
        docs = map (@key QD) ys ++ k :: rest /\
        key_to_quest_name k = Some name /\
        ((get all_quests name = None /\
          e = QuestError (String.append "No quest name " name) (KeyError name))
         \/
         (exists c e', get all_quests name = Some c /\
                       snd (Quest_init c db k) = Raise e' /\
                       e = Constructor e'))
  | Overran => False
  end.
Proof.
  revert ys r. induction docs as [|k rest IH]; intros ys r; simpl.
  - intros [= <- <-]. split; [constructor | reflexivity].
  - destruct (key_to_quest_name_Some k) as (name & En & _).
    rewrite En. unfold_get_by_name.
    destruct (get all_quests name) as [c|] eqn:Eg.
    + destruct (Quest_init c db k) as [o rq] eqn:Eq. simpl.
      pose proof (Quest_init_no_overrun c db k) as Hno. rewrite Eq in Hno.
      destruct rq as [q|e|]; [| |now destruct Hno].
      * destruct (iterate_all db rest) as [ys' r'] eqn:Ei.
        intros [= <- <-]. destruct (IH _ _ eq_refl) as [H1 H2].
        destruct (Quest_init_Ok parse_obj VersionInfo_parse c db k Eq)
          as (_ & Hkey & _).
        split.
        -- constructor; [|assumption]. exists name, c, o.
           rewrite Hkey. auto.
        -- destruct r'; simpl.
           ++ now rewrite Hkey, H2.
           ++ destruct H2 as (k' & rest' & name' & -> & H2).
              exists k', rest', name'. rewrite Hkey. auto.
           ++ assumption.
      * intros [= <- <-]. split; [constructor|].
        exists k, rest, name. split; [reflexivity|]. split; [assumption|].
        right. exists c, e. rewrite Eq. auto.
    + intros [= <- <-]. split; [constructor|].
      exists k, rest, name. split; [reflexivity|]. split; [assumption|].
      left. auto.
Qed.

(** A quest made by [from_game] is found again by [iterate_all] under
    its own class: when the class is registered under its name, the
    document id [game.key:ClassName] leads back to the same class and
    the same quest. *)
Theorem iterate_all_finds_from_game (cls : QuestClass QD Ext Loc)
    (db : string -> option Doc) (game_key : string)
    (o : option (Attrs QD)) (q : Quest QD) :
  get all_quests (cls_name cls) = Some cls ->
  ~ In ":"%char (chars (cls_name cls)) ->
  from_game cls db game_key = (o, Ok q) ->
  key q = make_key cls game_key /\
  iterate_all db [key q] = ([q], Finished).
Proof.
  intros Hreg Hname E. unfold_from_game_in E.
  destruct (Quest_init_Ok parse_obj VersionInfo_parse cls db _ E)
    as (_ & Hkey & _).
  split; [assumption|]. rewrite Hkey. simpl.
  rewrite (key_to_quest_name_of_made cls game_key Hname).
  unfold_get_by_name. rewrite Hreg, E. reflexivity.
Qed.

(** *** [save] and [load] *)

Lemma save_then_load_core (cls : QuestClass QD Ext Loc)
    (db db0 : string -> option Doc) (q q0 : Quest QD)
    (o0 : option (Attrs QD)) (d : QD) :
  (forall sm, parse_obj (dict_of sm) = inr sm) ->
  VersionInfo_parse (semver.str (version cls)) = Some (version cls) ->
  parse_raw cls (json cls (quest_data q)) = inr d ->
  Quest_init cls db0 (key q) = (o0, Ok q0) ->
  (exists o2 q2,
      Quest_init cls (save dict_of cls db q) (key q) = (o2, Ok q2) /\
      key q2 = key q /\ quest_data q2 = d /\
      completed_stages q2 = completed_stages q /\
      complete q2 = complete q /\
      graph_of_stages cls (graph q2)) /\
  exists_ (save dict_of cls db q) q = true /\
  (forall k, k <> key q -> save dict_of cls db q k = db k).
Proof.
  intros Hdict Hver Hraw E0.
  destruct (Quest_init_Ok parse_obj VersionInfo_parse cls db0 _ E0)
    as (Hk & _ & Hd & Hg & _).
  assert (Hsaved : save dict_of cls db q (key q)
                   = Some (dict_of (get_storage_model cls q))).
  { unfold save. now rewrite String.eqb_refl. }
  split; [|split].
  - apply String.eqb_neq in Hk. unfold_Quest_init. rewrite Hk.
    unfold_load. simpl. rewrite Hsaved, Hdict.
    unfold_load_storage_model. simpl. rewrite Hver.
    assert (Hs : semver_safe (version cls) (version cls) = true).
    { unfold semver_safe. rewrite Z.eqb_refl. simpl.
      destruct (Z.gtb_spec (minor (version cls)) (minor (version cls)));
        [lia | reflexivity]. }
    rewrite Hs, Hraw. simpl.
    match goal with
    | |- context [load_stages cls ?a] =>
        destruct (load_stages_Ok a Hd (gs_acyclic Hg)) as (g & -> & Hg')
    end.
    eexists _, _. split; [reflexivity|]. simpl. auto.
  - unfold exists_. now rewrite Hsaved.
  - intros k N. unfold save. apply String.eqb_neq in N. now rewrite N.
Qed.

(** Saving a quest and constructing it again from the store gives back
    its progress: the same key, [completed_stages] and [complete], the
    payload as it comes back from its serialized form, and a stage graph
    fresh from [load_stages]; the other documents of the store are left
    alone. *)
Theorem save_then_load (cls : QuestClass QD Ext Loc)
    (db db0 : string -> option Doc) (q q0 : Quest QD)
    (o0 : option (Attrs QD)) (d : QD) :
  (forall sm, parse_obj (dict_of sm) = inr sm) ->
  VersionInfo_parse (semver.str (version cls)) = Some (version cls) ->
  parse_raw cls (json cls (quest_data q)) = inr d ->
  Quest_init cls db0 (key q) = (o0, Ok q0) ->
  (exists o2 q2,
      Quest_init cls (save dict_of cls db q) (key q) = (o2, Ok q2) /\
      key q2 = key q /\ quest_data q2 = d /\
      completed_stages q2 = completed_stages q /\
      complete q2 = complete q /\
      graph_of_stages cls (graph q2)) /\
  exists_ (save dict_of cls db q) q = true /\
  (forall k, k <> key q -> save dict_of cls db q k = db k).
Proof.
  intros; eapply save_then_load_core; eassumption.
Qed.

End RegistryFacts.

(** * More on the execution pass *)

(** The stages whose [is_done] answered true, in the order of the calls. *)
Fixpoint finished (t : list Event) : list string :=
  match t with
  | [] => []
  | Called n IsDone (Some true) _ :: t' => n :: finished t'
  | _ :: t' => finished t'
  end.

Lemma finished_app (t t' : list Event) :
  finished (t ++ t') = finished t ++ finished t'.
Proof.
  induction t as [|e t IH]; [reflexivity|]. simpl.
  destruct e as [n|n|n h ret c]; try assumption.
  destruct h; try assumption.
  destruct ret as [[|]|]; try assumption. simpl. now rewrite IH.
Qed.

Lemma finished_map_Ready (l : list string) : finished (map Ready l) = [].
Proof.
  induction l; [reflexivity | assumption].
Qed.

(** The calls on a stage come in the order of the loop body: what a call
    follows in the trace, and what follows it. *)
Definition in_order (t1 : list Event) (n : string) (h : Hook)
    (ret : option bool) (t2 : list Event) : Prop :=
  match h with
  | Instantiate =>
      ret = None /\
      exists c1 b c2 rest,
        t2 = Called n Prepare None c1 :: Called n Condition (Some b) c2 :: rest
  | Prepare =>
      ret = None /\ exists t0 c0, t1 = t0 ++ [Called n Instantiate None c0]
  | Condition =>
      (exists b, ret = Some b) /\
      (exists t0 c0, t1 = t0 ++ [Called n Prepare None c0]) /\
      (ret = Some true ->
       exists c3 b c4 rest,
         t2 = Called n Execute None c3 :: Called n IsDone (Some b) c4 :: rest)
  | Execute =>
      ret = None /\
      exists t0 c0, t1 = t0 ++ [Called n Condition (Some true) c0]
  | IsDone =>
      (exists b, ret = Some b) /\
      exists t0 c0, t1 = t0 ++ [Called n Execute None c0]
  end.

Lemma in_order_cons (e : Event) (t1 : list Event) (n : string) (h : Hook)
    (ret : option bool) (t2 : list Event) :
  in_order t1 n h ret t2 -> in_order (e :: t1) n h ret t2.
Proof.
  destruct h; simpl; try tauto;
    try (intros [H (t0 & c0 & ->)]; split; [assumption|];
         exists (e :: t0), c0; reflexivity).
  intros (H1 & (t0 & c0 & ->) & H2). split; [assumption|].
  split; [|assumption]. exists (e :: t0), c0. reflexivity.
Qed.

Lemma pass_trace_in_order (Q : bool -> bool -> Prop) (c c' : bool)
    (t : list Event) :
  pass_trace Q c t c' ->
  forall t1 n h ret f t2,
    t = t1 ++ Called n h ret f :: t2 -> in_order t1 n h ret t2.
Proof.
  intros H. induction H; intros t1 n0 h ret f t2 E.
  - destruct t1; discriminate.
  - destruct t1 as [|e t1]; [discriminate|]. injection E as <- E.
    apply in_order_cons. eauto.
  - destruct t1 as [|e t1]; [discriminate|]. injection E as <- E.
    apply in_order_cons. eauto.
  - destruct t1 as [|e1 t1].
    { injection E as <- <- <- <- <-. simpl. split; [reflexivity|].
      eexists _, _, _, _. reflexivity. }
    injection E as <- E. destruct t1 as [|e2 t1].
    { injection E as <- <- <- <- <-. simpl. split; [reflexivity|].
      exists [], c0. reflexivity. }
    injection E as <- E. destruct t1 as [|e3 t1].
    { injection E as <- <- <- <- <-. simpl. split; [eauto|].
      split; [exists [Called n Instantiate None c0], c1; reflexivity|].
      discriminate. }
    injection E as <- E. do 3 apply in_order_cons. eauto.
  - destruct t1 as [|e1 t1].
    { injection E as <- <- <- <- <-. simpl. split; [reflexivity|].
      eexists _, _, _, _. reflexivity. }
    injection E as <- E. destruct t1 as [|e2 t1].
    { injection E as <- <- <- <- <-. simpl. split; [reflexivity|].
      exists [], c0. reflexivity. }
    injection E as <- E. destruct t1 as [|e3 t1].
    { injection E as <- <- <- <- <-. simpl. split; [eauto|].
      split; [exists [Called n Instantiate None c0], c1; reflexivity|].
      intros _. eexists _, _, _, _. reflexivity. }
    injection E as <- E. destruct t1 as [|e4 t1].
    { injection E as <- <- <- <- <-. simpl. split; [reflexivity|].
      exists [Called n Instantiate None c0; Called n Prepare None c1], c2.
      reflexivity. }
    injection E as <- E. destruct t1 as [|e5 t1].
    { injection E as <- <- <- <- <-. simpl. split; [eauto|].
      exists [Called n Instantiate None c0; Called n Prepare None c1;
              Called n Condition (Some true) c2], c3.
      reflexivity. }
    injection E as <- E. do 5 apply in_order_cons. eauto.
Qed.

Ltac unfold_run_stage := unfold run_stage.

Ltac split_run_stage E :=
  unfold_run_stage_in E; cbv zeta in E;
  match type of E with
  | context [eff_ret (condition ?S ?q ?l ?x)] =>
      let Ec := fresh "Econd" in
      destruct (eff_ret (condition S q l x)) eqn:Ec;
      [ match type of E with
        | context [eff_ret (is_done ?S' ?q' ?l' ?x')] =>
            let Ed := fresh "Edone" in
            destruct (eff_ret (is_done S' q' l' x')) eqn:Ed;
            [ match type of E with
              | context [graphlib.done ?g ?n] =>
                  let Eg := fresh "Egraph" in
                  let g' := fresh "g" in
                  let r' := fresh "rd" in
                  destruct (graphlib.done g n) as [g' r'] eqn:Eg;
                  destruct r' as [[]| |]
              end
            | ]
        end
      | ]
  end;
  injection E as <- <- <- <-.

Section PassFacts.

Context {QD Ext Loc TickType : Type}.
Variable cls : QuestClass QD Ext Loc.

Local Abbreviation execute_stages := (@execute_stages QD Ext Loc TickType cls).

(** The calls a pass makes on a stage follow the loop body: [prepare]
    comes right after the instantiation, [condition] right after
    [prepare], [execute] only right after a [condition] that answered
    true, [is_done] right after [execute]; and an instantiation is
    followed by [prepare] and [condition], a true [condition] by
    [execute] and [is_done]. *)
Theorem hooks_in_order (q : Quest QD) (tick : TickType) (x : Ext)
    (q' : Quest QD) (x' : Ext) (t : list Event) (r : result unit) :
  execute_stages q tick x = (q', x', t, r) ->
  forall t1 n h ret c t2,
    t = t1 ++ Called n h ret c :: t2 -> in_order t1 n h ret t2.
Proof.
  intros E. eapply pass_trace_in_order.
  eapply (@execute_stages_trace _ _ _ _ cls (fun _ _ => True)); [|exact E].
  intros node S q0 l x0 _. tauto.
Qed.

Lemma completed_stages_are_finished_core (q : Quest QD) (tick : TickType)
    (x : Ext) (q' : Quest QD) (x' : Ext) (t : list Event) (r : result unit) :
  execute_stages q tick x = (q', x', t, r) ->
  completed_stages q' = completed_stages q ++ finished t /\
  (forall n, In (MarkedDone n) t ->
             In n (completed_stages q) \/ In n (finished t)).
Proof.
  intros E.
  cut (exists todo : list string,
          completed_stages q' = completed_stages q ++ finished t /\
          forall n, In (MarkedDone n) t -> In n (completed_stages q')).
  { intros (todo & H1 & H2). split; [assumption|]. intros n Hin.
    apply H2 in Hin. rewrite H1 in Hin. now apply in_app_or in Hin. }
  refine (@execute_stages_invariant _ _ _ TickType cls
    (fun _ q1 _ tr =>
       completed_stages q1 = completed_stages q ++ finished tr /\
       forall n, In (MarkedDone n) tr -> In n (completed_stages q1))
    _ _ _ q tick x q' x' t r _ E).
  - intros q1 x1 tr g rr [H1 H2] _ _. simpl. split.
    + rewrite finished_app. destruct rr; simpl;
        rewrite ?finished_map_Ready, ?app_nil_r; assumption.
    + intros n Hin. apply in_app_or in Hin. destruct Hin as [Hin|Hin]; [auto|].
      destruct rr as [batch| |]; try contradiction.
      apply in_map_iff in Hin. destruct Hin as (m & [=] & _).
  - intros node rest q1 x1 tr g rr [H1 H2] _ Hm _. simpl. split.
    + rewrite finished_app. destruct rr as [[]| |]; simpl;
        rewrite ?app_nil_r; assumption.
    + intros n Hin. apply in_app_or in Hin. destruct Hin as [Hin|Hin]; [auto|].
      destruct rr as [[]| |]; try contradiction.
      destruct Hin as [[= <-]|[]]. now apply mem_In.
  - intros node rest q1 x1 tr S q2 x2 t2 r2 [H1 H2] _ _ _ Er.
    rewrite finished_app, app_assoc, <- H1.
    split_run_stage Er; unfold called; simpl; rewrite ?app_nil_r;
      (split; [reflexivity|]);
      intros n Hin; apply in_app_or in Hin;
      (destruct Hin as [Hin|Hin];
       [try (apply in_or_app; left); auto|]);
      simpl in Hin;
      repeat (destruct Hin as [Hin|Hin]; [try discriminate|]);
      try contradiction;
      injection Hin as <-; apply in_or_app; right; now left.
  - split; [now rewrite app_nil_r | intros n []].
Qed.

(** What a pass adds to [completed_stages] is, in order, the stages
    whose [is_done] answered true in it; and a stage is marked done in
    the graph only if it was completed before the pass or its [is_done]
    answered true in it. *)
Theorem completed_stages_are_finished (q : Quest QD) (tick : TickType)
    (x : Ext) (q' : Quest QD) (x' : Ext) (t : list Event) (r : result unit) :
  execute_stages q tick x = (q', x', t, r) ->
  completed_stages q' = completed_stages q ++ finished t /\
  (forall n, In (MarkedDone n) t ->
             In n (completed_stages q) \/ In n (finished t)).
Proof.
  intros; eapply completed_stages_are_finished_core; eassumption.
Qed.

Lemma completed_stage_not_rerun_core (q : Quest QD) (tick : TickType)
    (x : Ext) (q' : Quest QD) (x' : Ext) (t : list Event) (r : result unit) :
  execute_stages q tick x = (q', x', t, r) ->
  forall n, In n (completed_stages q) ->
            forall h ret c, ~ In (Called n h ret c) t.
Proof.
  intros E.
  cut (exists todo : list string,
          incl (completed_stages q) (completed_stages q') /\
          forall n h ret c, In (Called n h ret c) t ->
                            ~ In n (completed_stages q)).
  { intros (todo & H1 & H2) n Hin h ret c Hc. eapply H2; eassumption. }
  refine (@execute_stages_invariant _ _ _ TickType cls
    (fun _ q1 _ tr =>
       incl (completed_stages q) (completed_stages q1) /\
       forall n h ret c, In (Called n h ret c) tr ->
                         ~ In n (completed_stages q))
    _ _ _ q tick x q' x' t r _ E).
  - intros q1 x1 tr g rr [H1 H2] _ _. simpl. split; [assumption|].
    intros n h ret c Hin. apply in_app_or in Hin.
    destruct Hin as [Hin|Hin]; [eauto|].
    destruct rr as [batch| |]; try contradiction.
    apply in_map_iff in Hin. destruct Hin as (m & [=] & _).
  - intros node rest q1 x1 tr g rr [H1 H2] _ _ _. simpl. split; [assumption|].
    intros n h ret c Hin. apply in_app_or in Hin.
    destruct Hin as [Hin|Hin]; [eauto|].
    destruct rr as [[]| |]; try contradiction.
    destruct Hin as [[=]|[]].
  - intros node rest q1 x1 tr S q2 x2 t2 r2 [H1 H2] _ Hm _ Er.
    apply mem_not_In in Hm.
    assert (Hnode : ~ In node (completed_stages q)) by auto.
    split.
    + split_run_stage Er; simpl; try assumption;
        intros m Hin; apply in_or_app; left; auto.
    + intros n h ret c Hin. apply in_app_or in Hin.
      destruct Hin as [Hin|Hin]; [eauto|].
      assert (n = node); [|now subst].
      split_run_stage Er; unfold called in Hin; simpl in Hin;
        try (apply in_app_or in Hin; simpl in Hin);
        repeat (destruct Hin as [Hin|Hin]; try discriminate;
                try (injection Hin as <- _ _ _; reflexivity));
        contradiction.
  - split; [apply incl_refl | intros n h ret c []].
Qed.

(** A stage that is in [completed_stages] when the pass starts is not
    run again: no stage object is made for it and none of its methods is
    called. *)
Theorem completed_stage_not_rerun (q : Quest QD) (tick : TickType)
    (x : Ext) (q' : Quest QD) (x' : Ext) (t : list Event) (r : result unit) :
  execute_stages q tick x = (q', x', t, r) ->
  forall n, In n (completed_stages q) ->
            forall h ret c, ~ In (Called n h ret c) t.
Proof.
  intros; eapply completed_stage_not_rerun_core; eassumption.
Qed.

End PassFacts.

(** * The stages that take part in a pass *)

Section Connected.

Context {QD Ext Loc : Type}.
Variable cls : QuestClass QD Ext Loc.

(** The stage lists a child, or is listed as one. *)
Definition connected (n : string) : Prop :=
  exists m, child_of cls n m \/ child_of cls m n.

Lemma add_stages_nodes (k : string) (a b : Z)
    (items : list (string * Stage QD Ext Loc)) :
  forall d,
    built d ->
    (forall s S c, In (s, S) items -> In c (children S) ->
                   contains (stages cls) c = true) ->
    exists d',
      add_stages cls k (graphlib.mkSorter d None a b) items
      = (graphlib.mkSorter d' None a b, Ok tt) /\
      forall n, In n (keys d') ->
                In n (keys d) \/
                exists p S c, In (p, S) items /\ In c (children S) /\
                              (n = p \/ n = c).
Proof.
  induction items as [|[s S] items IH]; intros d Hb Hall; simpl.
  - exists d. split; [reflexivity|]. intros n H. now left.
  - destruct (@add_children_built _ _ _ cls k s a b (children S) d Hb)
      as (d1 & E1 & Hb1 & _ & Hk1).
    { intros c Hc. apply (Hall s S c); [now left | assumption]. }
    rewrite E1.
    destruct (IH d1 Hb1) as (d' & E & Hk').
    { intros s' S' c Hin Hc. apply (Hall s' S' c); [now right | assumption]. }
    exists d'. split; [exact E|].
    intros n Hn. apply Hk' in Hn.
    destruct Hn as [Hn|(p & S' & c & Hin & Hc & Hn)].
    + apply Hk1 in Hn. destruct Hn as [Hn|[Hn|[-> Hne]]].
      * now left.
      * right. exists s, S, n. split; [now left|]. auto.
      * right. destruct (children S) as [|c chs] eqn:Ec; [now destruct Hne|].
        exists s, S, c. split; [now left|]. rewrite Ec. split; [now left|].
        now left.
    + right. exists p, S', c. split; [now right|]. auto.
Qed.

(** Only stages that take part in a [children] declaration enter the
    graph. *)
Lemma load_stages_connected (a a' : Attrs QD) :
  load_stages cls a = (a', Ok tt) ->
  exists g, a_graph a' = Some g /\
            forall n, In n (keys (graphlib._node2info g)) -> connected n.
Proof.
  unfold_load_stages.
  destruct (add_stages cls (a_key a) graphlib.new (stages cls)) as [g r] eqn:E.
  pose proof (add_stages_cases cls (a_key a) (stages cls) graphlib.new eq_refl E)
    as [_ [[-> Hall]|Hm]].
  - destruct (@add_stages_nodes (a_key a) 0%Z 0%Z (stages cls) []
                built_empty Hall) as (d & E' & Hk).
    unfold graphlib.new in E. rewrite E' in E. injection E as <-.
    destruct (@add_stages_built _ _ _ cls (a_key a) 0%Z 0%Z (stages cls) []
                built_empty Hall) as (d0 & E0 & Hb & _).
    rewrite E' in E0. injection E0 as <-.
    destruct (@prepare_spec d 0%Z 0%Z Hb) as (ready & Ef & _).
    destruct (graphlib.prepare (graphlib.mkSorter d None 0 0)) as [g' r'].
    simpl in Ef. subst g'. intros H.
    assert (Ha : a' = with_graph a (graphlib.mkSorter d (Some ready) 0 0)).
    { destruct r' as [[]|[[]| |]|]; try discriminate H.
      now injection H as <-. }
    subst a'. eexists. split; [reflexivity|]. simpl.
    intros n Hn. apply Hk in Hn. destruct Hn as [[]|(p & S & c & Hin & Hc & Hn)].
    destruct Hn as [->| ->]; [exists c; left | exists p; right];
      exists S; auto.
  - inversion Hm; subst. discriminate.
Qed.

End Connected.

Section ConnectedQuest.

Context {QD Ext Loc Doc : Type}.
Variable parse_obj : Doc -> string + StorageModel.
Variable VersionInfo_parse : string -> option VersionInfo.
Variable cls : QuestClass QD Ext Loc.
Variable db : string -> option Doc.

Lemma Quest_init_connected (k : string) (o : option (Attrs QD))
    (q : Quest QD) :
  Quest_init parse_obj VersionInfo_parse cls db k = (o, Ok q) ->
  forall n, In n (keys (graphlib._node2info (graph q))) -> connected cls n.
Proof.
  unfold_Quest_init.
  destruct (String.eqb k ""); [discriminate|].
  pose proof (load_spec parse_obj VersionInfo_parse cls db (unloaded QD k)) as Hl.
  destruct (load parse_obj VersionInfo_parse cls db (unloaded QD k))
    as [a' r] eqn:El.
  destruct r as [[]|e|]; [|discriminate|discriminate].
  intros [= <- Hi].
  assert (Hg : exists g, a_graph a' = Some g /\
                 forall n, In n (keys (graphlib._node2info g)) ->
                           connected cls n).
  { inversion Hl as [doc err Hd Hp|doc sm r0 Hd Hp Hs Hr|doc sm a1 Hd Hp Hs E|Hd E];
      subst.
    - congruence.
    - eapply load_stages_connected. eassumption.
    - eapply load_stages_connected. eassumption. }
  destruct Hg as (g & Eg & Hg). unfold instance in Hi. rewrite Eg in Hi.
  destruct (a_quest_data a'), (a_completed_stages a'), (a_complete a');
    try discriminate.
  injection Hi as <-. exact Hg.
Qed.

End ConnectedQuest.

(** ** Handed out once, started once *)

(** The nodes the graph handed out, in order. *)
Fixpoint readies (t : list Event) : list string :=
  match t with
  | [] => []
  | Ready n :: t' => n :: readies t'
  | _ :: t' => readies t'
  end.

(** The stages a stage object was made for, in order. *)
Fixpoint started (t : list Event) : list string :=
  match t with
  | [] => []
  | Called n Instantiate _ _ :: t' => n :: started t'
  | _ :: t' => started t'
  end.

Lemma readies_app (t t' : list Event) :
  readies (t ++ t') = readies t ++ readies t'.
Proof.
  induction t as [|[n|n|n h ret c] t IH]; simpl; congruence.
Qed.

Lemma started_app (t t' : list Event) :
  started (t ++ t') = started t ++ started t'.
Proof.
  induction t as [|[n|n|n [] ret c] t IH]; simpl; congruence.
Qed.

Lemma readies_In (t : list Event) (n : string) :
  In n (readies t) <-> In (Ready n) t.
Proof.
  induction t as [|[m|m|m h ret c] t IH]; simpl; [tauto| | |].
  - rewrite IH. split; intros [H|H]; auto; left; congruence.
  - rewrite IH. split; [auto | intros [H|H]; [discriminate | assumption]].
  - rewrite IH. split; [auto | intros [H|H]; [discriminate | assumption]].
Qed.

Lemma started_In (t : list Event) (n : string) :
  In n (started t) -> exists ret c, In (Called n Instantiate ret c) t.
Proof.
  induction t as [|e t IH]; simpl; [intros []|].
  destruct e as [m|m|m h ret c];
    try (intros H; destruct (IH H) as (ret' & c' & Hin); eauto).
  destruct h; try (intros H; destruct (IH H) as (ret' & c' & Hin); eauto).
  intros [<-|H]; [eauto|]. destruct (IH H) as (ret' & c' & Hin). eauto.
Qed.

Lemma readies_map_Ready (l : list string) : readies (map Ready l) = l.
Proof.
  induction l; simpl; congruence.
Qed.

Lemma started_map_Ready (l : list string) : started (map Ready l) = [].
Proof.
  induction l; simpl; congruence.
Qed.

Lemma NoDup_app_intro (A : Type) (l l' : list A) :
  NoDup l -> NoDup l' -> (forall x, In x l -> ~ In x l') -> NoDup (l ++ l').
Proof.
  induction l as [|a l IH]; simpl; intros Hl Hl' Hd; [assumption|].
  inversion Hl; subst. constructor.
  - rewrite in_app_iff. intros [H|H]; [contradiction|].
    apply (Hd a); [now left | assumption].
  - apply IH; auto.
Qed.

Lemma calls_on_readies (n : string) (t : list Event) :
  calls_on n t -> readies t = [] /\ forall m, ~ In (Ready m) t.
Proof.
  intros H. assert (Hn : forall m, ~ In (Ready m) t).
  { intros m Hin. apply H in Hin. destruct Hin as (h & ret & c & [=]). }
  split; [|assumption]. destruct (readies t) as [|m l] eqn:E; [reflexivity|].
  exfalso. apply (Hn m). apply readies_In. rewrite E. now left.
Qed.

Lemma trace_ok_called (E : string -> string -> Prop) (tr : list Event)
    (n : string) (h : Hook) (ret : option bool) (c : bool) :
  trace_ok E tr -> In (Called n h ret c) tr -> In (Ready n) tr.
Proof.
  intros Ht Hin. apply in_split in Hin. destruct Hin as (t1 & t2 & ->).
  apply in_or_app. left. exact (Ht t1 _ t2 eq_refl).
Qed.

Section ExtScheduling.

Context {QD Ext Loc TickType : Type}.
Variable cls : QuestClass QD Ext Loc.

Local Abbreviation run_stage := (@run_stage QD Ext Loc).
Local Abbreviation execute_stages := (@execute_stages QD Ext Loc TickType cls).
Local Abbreviation nodes_of q := (graphlib._node2info (graph q)).

(** The scheduling invariant, with the books on what was handed out and
    what was started. *)
Record pass_ext (todo : list string) (q : Quest QD) (tr : list Event)
  : Prop := mkPassExt {
  pe_inv : pass_inv cls todo q tr;
  pe_out : forall n,
      status (nodes_of q) n = Some graphlib._NODE_OUT ->
      In n todo \/ held_back n tr;
  pe_ready : forall n, In (Ready n) tr ->
      status (nodes_of q) n = Some graphlib._NODE_OUT \/
      status (nodes_of q) n = Some graphlib._NODE_DONE;
  pe_readies : NoDup (readies tr);
  pe_started : NoDup (started tr);
  pe_started_todo : forall n, In n (started tr) -> ~ In n todo;
  pe_connected : forall n, In n (keys (nodes_of q)) -> connected cls n
}.

Lemma pass_ext_ready (q : Quest QD) (tr : list Event) :
  pass_ext [] q tr ->
  exists g batch,
    graphlib.get_ready (graph q) = (g, Ok batch) /\
    pass_ext batch (set_graph q g) (tr ++ map Ready batch) /\
    graphlib._ready_nodes g = Some [].
Proof.
  intros [Hinv Ho Hr Hnr Hns Hst Hcon].
  destruct (pass_inv_ready Hinv) as (g & batch & Eg & Hinv').
  destruct (get_ready_spec (pi_wf Hinv))
    as (g2 & ready & Eg2 & Er & Er' & _ & Hkeys & _ & _ & Hstat).
  rewrite Eg in Eg2. injection Eg2 as <- <-.
  destruct (wf_ready (pi_wf Hinv)) as (ready0 & Er0 & Hnd & Hr0).
  rewrite Er in Er0. injection Er0 as <-.
  assert (Hfresh : forall n, In (Ready n) tr -> ~ In n batch).
  { intros n Hn Hb. apply Hr in Hn. apply Hr0 in Hb.
    destruct Hn as [Hn|Hn]; rewrite Hn in Hb; discriminate. }
  exists g, batch. split; [exact Eg|]. split; [|exact Er'].
  constructor; simpl.
  - exact Hinv'.
  - intros n Hn. rewrite Hstat in Hn. destruct (mem n batch) eqn:Em.
    + left. now apply mem_In.
    + right. apply held_back_app. left.
      destruct (Ho n Hn) as [[]|H]. exact H.
  - intros n Hin. rewrite Hstat. destruct (mem n batch) eqn:Em; [now left|].
    apply in_app_or in Hin. destruct Hin as [Hin|Hin]; [now apply Hr|].
    apply in_map_iff in Hin. destruct Hin as (m & [= ->] & Hm).
    apply mem_In in Hm. congruence.
  - rewrite readies_app, readies_map_Ready.
    apply NoDup_app_intro; [assumption | assumption |].
    intros n Hn. apply Hfresh. now apply readies_In.
  - now rewrite started_app, started_map_Ready, app_nil_r.
  - rewrite started_app, started_map_Ready, app_nil_r.
    intros n Hn. apply Hfresh. apply started_In in Hn.
    destruct Hn as (ret & c & Hin).
    eapply trace_ok_called; [exact (pi_trace Hinv) | exact Hin].
  - intros n. rewrite Hkeys. apply Hcon.
Qed.

Lemma pass_ext_done (node : string) (rest : list string) (q q1 : Quest QD)
    (tr calls : list Event) :
  pass_ext (node :: rest) q tr ->
  graph q1 = graph q ->
  (forall n, In n (completed_stages q1) <->
             n = node \/ In n (completed_stages q)) ->
  calls_on node calls ->
  (forall n, ~ held_back n calls) ->
  started calls = [] \/ started calls = [node] ->
  exists g,
    graphlib.done (graph q1) node = (g, Ok tt) /\
    pass_ext rest (set_graph q1 g) (tr ++ calls ++ [MarkedDone node]).
Proof.
  intros [Hinv Ho Hr Hnr Hns Hst Hcon] Eg Hcs Hcalls Hnh Hsc.
  destruct (pass_inv_done q1 Hinv Eg Hcs Hcalls Hnh) as (g & Ed & Hinv').
  destruct (pi_todo Hinv node (or_introl eq_refl)) as [Hout Hready].
  destruct (done_spec node (pi_wf Hinv) Hout)
    as (g2 & Ed2 & _ & Hkeys & _ & Hdone & Hneg).
  rewrite Eg, Ed2 in Ed. injection Ed as <-.
  destruct (calls_on_readies Hcalls) as [Hrc Hnrc].
  pose proof (pi_nodup Hinv) as Hnd. inversion Hnd as [|? ? Hnotin Hnd']; subst.
  exists g2. split; [now rewrite Eg|].
  constructor; simpl.
  - exact Hinv'.
  - intros n Hn. destruct (string_dec n node) as [->|N].
    + rewrite Hdone in Hn. discriminate.
    + apply Hneg in Hn; [|assumption|reflexivity].
      destruct (Ho n Hn) as [[H|H]|H].
      * now destruct N.
      * now left.
      * right. apply held_back_app. now left.
  - intros n Hin. assert (Hin' : In (Ready n) tr).
    { apply in_app_or in Hin. destruct Hin as [Hin|Hin]; [assumption|].
      apply in_app_or in Hin. destruct Hin as [Hin|[[=]|[]]].
      now destruct (Hnrc n). }
    destruct (string_dec n node) as [->|N]; [now right|].
    destruct (Hr n Hin') as [H|H]; [left | right];
      apply Hneg; assumption || reflexivity.
  - rewrite !readies_app, Hrc. simpl. now rewrite app_nil_r.
  - rewrite !started_app. simpl. rewrite app_nil_r.
    destruct Hsc as [-> | ->]; [now rewrite app_nil_r|].
    apply NoDup_app_intro; [assumption | repeat constructor; intros [] |].
    intros n Hn [E|[]]. subst n. apply (Hst _ Hn). now left.
  - rewrite !started_app. simpl. rewrite app_nil_r.
    intros n Hn Hin. apply in_app_or in Hn. destruct Hn as [Hn|Hn].
    + apply (Hst n Hn). now right.
    + destruct Hsc as [E|E]; rewrite E in Hn; [contradiction|].
      destruct Hn as [E'|[]]. subst n. contradiction.
  - intros n. rewrite Hkeys. apply Hcon.
Qed.

Lemma pass_ext_held (node : string) (rest : list string) (q q1 : Quest QD)
    (tr calls : list Event) :
  pass_ext (node :: rest) q tr ->
  graph q1 = graph q ->
  completed_stages q1 = completed_stages q ->
  ~ In node (completed_stages q) ->
  calls_on node calls ->
  held_back node calls ->
  started calls = [node] ->
  pass_ext rest q1 (tr ++ calls).
Proof.
  intros [Hinv Ho Hr Hnr Hns Hst Hcon] Eg Hcs Hnc Hcalls Hheld Hsc.
  destruct (calls_on_readies Hcalls) as [Hrc Hnrc].
  pose proof (pi_nodup Hinv) as Hnd. inversion Hnd as [|? ? Hnotin Hnd']; subst.
  constructor; rewrite ?Eg.
  - eapply pass_inv_held; eassumption.
  - intros n Hn. destruct (Ho n Hn) as [[<-|H]|H].
    + right. apply held_back_app. now right.
    + now left.
    + right. apply held_back_app. now left.
  - intros n Hin. apply Hr. apply in_app_or in Hin.
    destruct Hin as [Hin|Hin]; [assumption | now destruct (Hnrc n)].
  - now rewrite readies_app, Hrc, app_nil_r.
  - rewrite started_app, Hsc.
    apply NoDup_app_intro; [assumption | repeat constructor; intros [] |].
    intros n Hn [E|[]]. subst n. apply (Hst _ Hn). now left.
  - rewrite started_app, Hsc. intros n Hn Hin.
    apply in_app_or in Hn. destruct Hn as [Hn|[E|[]]].
    + apply (Hst n Hn). now right.
    + subst n. contradiction.
  - assumption.
Qed.

Lemma run_stage_ext (node : string) (rest : list string)
    (S : Stage QD Ext Loc) (q : Quest QD) (x : Ext) (tr : list Event)
    (q' : Quest QD) (x' : Ext) (t : list Event) (r : result unit) :
  pass_ext (node :: rest) q tr ->
  mem node (completed_stages q) = false ->
  run_stage node S q x = (q', x', t, r) ->
  r = Ok tt /\ pass_ext rest q' (tr ++ t).
Proof.
  intros Hinv Hm E. apply mem_not_In in Hm.
  unfold_run_stage_in E. cbv zeta in E.
  set (e0 := stage_init S q x) in *. set (q0 := after q e0) in *.
  set (e1 := prepare S q0 (eff_self e0) (eff_ext e0)) in *.
  set (q1 := after q0 e1) in *.
  set (e2 := condition S q1 (eff_self e1) (eff_ext e1)) in *.
  set (q2 := after q1 e2) in *.
  set (e3 := execute S q2 (eff_self e2) (eff_ext e2)) in *.
  set (q3 := after q2 e3) in *.
  set (e4 := is_done S q3 (eff_self e3) (eff_ext e3)) in *.
  unfold called in E.
  destruct (eff_ret e2) eqn:E2.
  - destruct (eff_ret e4) eqn:E4.
    + match type of E with
      | context [graphlib.done (graph ?q5) node] =>
          destruct (@pass_ext_done node rest q q5 tr
            [Called node Instantiate None (eff_complete e0);
             Called node Prepare None (eff_complete e1);
             Called node Condition (Some true) (eff_complete e2);
             Called node Execute None (eff_complete e3);
             Called node IsDone (Some true) (eff_complete e4)] Hinv)
            as (g & Ed & Hinv')
      end.
      * reflexivity.
      * intros n. simpl. rewrite in_app_iff. simpl. intuition congruence.
      * intros e He. simpl in He.
        repeat (destruct He as [<-|He]; [eauto|]). contradiction.
      * intros n (c & [H|H]); simpl in H;
          repeat (destruct H as [H|H]; [discriminate|]); contradiction.
      * right. reflexivity.
      * rewrite Ed in E. injection E as <- <- <- <-.
        split; [reflexivity|]. exact Hinv'.
    + injection E as <- <- <- <-. split; [reflexivity|].
      apply pass_ext_held with (node := node) (q := q); try assumption;
        try reflexivity.
      * intros e He. simpl in He.
        repeat (destruct He as [<-|He]; [eauto|]). contradiction.
      * exists (eff_complete e4). right. simpl. auto 10.
  - injection E as <- <- <- <-. split; [reflexivity|].
    apply pass_ext_held with (node := node) (q := q); try assumption;
      try reflexivity.
    + intros e He. simpl in He.
      repeat (destruct He as [<-|He]; [eauto|]). contradiction.
    + exists (eff_complete e2). left. simpl. auto.
Qed.

Lemma for_nodes_ext (nodes : list string) :
  forall q x tr q' x' t r,
    pass_ext nodes q tr ->
    for_nodes cls nodes q x = (q', x', t, r) ->
    exists todo s,
      r = Ok s /\ pass_ext todo q' (tr ++ t) /\
      (s = Fallthrough -> todo = []) /\
      (s = Returned -> complete q' = true).
Proof.
  induction nodes as [|node rest IH]; intros q x tr q' x' t r Hinv; simpl.
  - intros [= <- <- <- <-]. exists [], Fallthrough. rewrite app_nil_r.
    split; [reflexivity|]. split; [assumption|].
    split; [reflexivity | discriminate].
  - destruct (complete q) eqn:Ec.
    { intros [= <- <- <- <-]. exists (node :: rest), Returned.
      rewrite app_nil_r. split; [reflexivity|]. split; [assumption|].
      split; [discriminate | intros _; assumption]. }
    destruct (mem node (completed_stages q)) eqn:Em.
    + destruct (@pass_ext_done node rest q q tr [] Hinv eq_refl)
        as (g & Ed & Hinv').
      * intros n. apply mem_In in Em. intuition congruence.
      * intros e [].
      * intros n (c & [[]|[]]).
      * now left.
      * rewrite Ed.
        destruct (for_nodes cls rest (set_graph q g) x) as [[[q1 x1] t1] r1] eqn:Ef.
        intros [= <- <- <- <-].
        destruct (IH _ _ _ _ _ _ _ Hinv' Ef) as (todo & s & -> & H1 & H2 & H3).
        exists todo, s. simpl in H1. rewrite <- app_assoc in H1. auto.
    + destruct (get (stages cls) node) as [S|] eqn:Es.
      * destruct (run_stage node S q x) as [[[q1 x1] t1] r1] eqn:Er.
        destruct (@run_stage_ext _ _ _ _ _ _ _ _ _ _ Hinv Em Er) as (-> & Hinv').
        destruct (for_nodes cls rest q1 x1) as [[[q2 x2] t2] r2] eqn:Ef.
        intros [= <- <- <- <-].
        destruct (IH _ _ _ _ _ _ _ Hinv' Ef) as (todo & s & -> & H1 & H2 & H3).
        exists todo, s. rewrite app_assoc. auto.
      * exfalso.
        destruct (pi_todo (pe_inv Hinv) node (or_introl eq_refl)) as [Hout _].
        apply status_Some in Hout. destruct Hout as (i & Hg & _).
        apply get_Some_keys, (pi_nodes (pe_inv Hinv)) in Hg.
        unfold contains in Hg. now rewrite Es in Hg.
Qed.

(** How a pass over a well-built graph ends: [complete] is set, or the
    graph has nothing ready and nothing is left of the last batch. *)
Lemma while_active_ext (fuel : nat) :
  forall q x tr q' x' t r,
    pass_ext [] q tr ->
    while_active cls fuel q x = (q', x', t, r) ->
    r <> OutOfFuel ->
    r = Ok tt /\
    ((exists todo, pass_ext todo q' (tr ++ t) /\ complete q' = true) \/
     (pass_ext [] q' (tr ++ t) /\
      graphlib._ready_nodes (graph q') = Some [])).
Proof.
  induction fuel as [|fuel IH]; intros q x tr q' x' t r Hinv; simpl.
  - intros [= <- <- <- <-] H. now destruct H.
  - destruct (wf_ready (pi_wf (pe_inv Hinv))) as (ready & Er & _).
    unfold graphlib.is_active. rewrite Er.
    destruct (Z.ltb _ _ || _) eqn:Eact.
    + destruct (pass_ext_ready Hinv) as (g & batch & Eg & Hinv' & Hempty).
      rewrite Eg. destruct batch as [|n batch].
      * intros [= <- <- <- <-] _. split; [reflexivity|]. right.
        split; [exact Hinv' | exact Hempty].
      * destruct (for_nodes cls (n :: batch) (set_graph q g) x)
          as [[[q2 x2] t2] r2] eqn:Ef.
        destruct (@for_nodes_ext _ _ _ _ _ _ _ _ Hinv' Ef)
          as (todo & s & -> & H1 & H2 & H3).
        destruct s.
        -- rewrite (H2 eq_refl) in H1.
           destruct (while_active cls fuel q2 x2) as [[[q3 x3] t3] r3] eqn:Ew.
           intros [= <- <- <- <-] Hr.
           destruct (IH _ _ _ _ _ _ _ H1 Ew Hr) as (-> & H4).
           split; [reflexivity|]. rewrite <- !app_assoc in H4. exact H4.
        -- intros [= <- <- <- <-] _. split; [reflexivity|]. left.
           exists todo. rewrite <- app_assoc in H1. auto.
    + intros [= <- <- <- <-] _. split; [reflexivity|]. right.
      rewrite app_nil_r. split; [assumption|].
      apply orb_false_iff in Eact. destruct Eact as [_ Eact].
      destruct ready; [assumption | discriminate].
Qed.

Lemma graph_of_stages_pass_ext (q : Quest QD) :
  graph_of_stages cls (graph q) ->
  (forall n, In n (keys (nodes_of q)) -> connected cls n) ->
  pass_ext [] q [].
Proof.
  intros Hg Hcon. constructor.
  - now apply graph_of_stages_pass_inv.
  - intros n Hn. apply (gs_fresh Hg) in Hn. unfold graphlib._NODE_OUT in Hn. lia.
  - intros n [].
  - constructor.
  - constructor.
  - intros n [].
  - assumption.
Qed.

Lemma execute_stages_ext (q : Quest QD) (tick : TickType) (x : Ext)
    (q' : Quest QD) (x' : Ext) (t : list Event) (r : result unit) :
  graph_of_stages cls (graph q) ->
  (forall n, In n (keys (nodes_of q)) -> connected cls n) ->
  execute_stages q tick x = (q', x', t, r) ->
  r = Ok tt /\
  ((exists todo, pass_ext todo q' t /\ complete q' = true) \/
   (pass_ext [] q' t /\ graphlib._ready_nodes (graph q') = Some [])).
Proof.
  intros Hg Hcon E. pose proof (execute_stages_terminates cls q tick x) as Ht.
  rewrite E in Ht. simpl in Ht. unfold_execute_stages_in E.
  pose proof (@graph_of_stages_pass_ext q Hg Hcon) as Hinv.
  exact (@while_active_ext _ _ _ _ _ _ _ _ Hinv E Ht).
Qed.

End ExtScheduling.

(** ** How far a pass gets *)

Lemma pending_pos (d : dict graphlib._NodeInfo) (n : string) :
  0 < pending d n ->
  exists p i, In (p, i) d /\ In n (graphlib.successors i) /\
              graphlib.npredecessors i <> graphlib._NODE_DONE.
Proof.
  unfold pending, dsum. induction d as [|[k v] d IH]; simpl; [lia|].
  intros H. destruct (waits_on n v) eqn:E.
  - destruct IH as (p & i & H1 & H2); [lia|]. exists p, i. auto.
  - exists k, v. split; [now left|]. unfold waits_on in E.
    destruct (Z.eqb_spec (graphlib.npredecessors v) graphlib._NODE_DONE);
      [discriminate|].
    split; [|assumption]. apply (count_occ_In string_dec). lia.
Qed.

Section PathFacts.
Variable R : string -> string -> Prop.

Lemma path_tail (a : string) (l : list string) : path R (a :: l) -> path R l.
Proof.
  destruct l; simpl; tauto.
Qed.

Lemma path_reach (l : list string) :
  forall a b, path R (a :: l) -> In b l -> clos_trans string R a b.
Proof.
  induction l as [|c l IH]; intros a b; simpl; [contradiction|].
  intros [H1 H2] [<-|Hin].
  - now apply t_step.
  - eapply t_trans; [apply t_step; eassumption|]. now apply IH.
Qed.

(** A path that comes back to a node holds a cycle. *)
Lemma path_dup (l : list string) :
  path R l -> ~ NoDup l -> exists u, clos_trans string R u u.
Proof.
  induction l as [|a l IH]; intros Hp Hn.
  - exfalso. apply Hn. constructor.
  - destruct (in_dec string_dec a l) as [Hin|Hnin].
    + exists a. eapply path_reach; eassumption.
    + apply IH; [eapply path_tail; eassumption|].
      intros Hnd. apply Hn. now constructor.
Qed.
End PathFacts.

Section Standstill.

(** A graph in which nothing is ready, and where what was handed out and
    not marked done satisfies [held]. *)
Variable ts : graphlib.TopologicalSorter.
Variable held : string -> Prop.
Hypothesis Hwf : sorter_wf ts.
Hypothesis Hempty : graphlib._ready_nodes ts = Some [].
Hypothesis Hout : forall n,
    status (graphlib._node2info ts) n = Some graphlib._NODE_OUT -> held n.

Local Abbreviation d := (graphlib._node2info ts).

Lemma waiting_chain (k : nat) :
  forall n,
    In n (keys d) -> status d n <> Some graphlib._NODE_DONE ->
    (exists h, held h /\ clos_refl_trans string (edge d) h n) \/
    (exists l, List.length l = k /\ path (edge d) (l ++ [n]) /\
               forall m, In m l -> In m (keys d)).
Proof.
  induction k as [|k IH]; intros n Hin Hnd.
  { right. exists []. simpl. split; [reflexivity|]. split; [exact I|].
    intros m []. }
  apply contains_keys in Hin. unfold contains in Hin.
  destruct (get d n) as [i|] eqn:Eg; [clear Hin | discriminate].
  assert (Est : status d n = Some (graphlib.npredecessors i)).
  { unfold status. now rewrite Eg. }
  destruct (Z.ltb_spec (graphlib.npredecessors i) 0) as [Hneg|Hpos].
  - destruct (wf_mark Hwf n Eg Hneg) as [[Ho|Hd] _].
    + left. exists n. split; [|apply rt_refl]. apply Hout. now rewrite Est, Ho.
    + exfalso. apply Hnd. now rewrite Est, Hd.
  - pose proof (wf_count Hwf n Eg Hpos) as Hc.
    destruct (pending d n) as [|pn] eqn:Ep.
    + exfalso. destruct (wf_ready Hwf) as (ready & Er & _ & Hr).
      rewrite Hempty in Er. injection Er as <-.
      apply (Hr n). rewrite Est, Hc. reflexivity.
    + destruct (@pending_pos d n) as (p & ip & Hp & Hs & Hpd); [lia|].
      pose proof (get_NoDup_In _ _ _ (wf_keys Hwf) Hp) as Egp.
      assert (He : edge d p n).
      { unfold edge, succs. now rewrite Egp. }
      destruct (IH p) as [(h & Hh & Hr)|(l & Hl & Hpath & Hkeys)].
      * eapply get_Some_keys. eassumption.
      * unfold status. rewrite Egp. simpl. congruence.
      * left. exists h. split; [assumption|].
        eapply rt_trans; [eassumption | now apply rt_step].
      * right. exists (l ++ [p]). split; [|split].
        -- rewrite length_app. simpl. lia.
        -- now apply path_snoc.
        -- intros m Hm. apply in_app_or in Hm.
           destruct Hm as [Hm|[<-|[]]]; [auto|].
           eapply get_Some_keys. eassumption.
Qed.

(** In a graph without cycles, every node that is not done waits on a
    node that was handed out and not marked done, or is one. *)
Lemma waiting_on_held (n : string) :
  (forall u, ~ clos_trans string (edge d) u u) ->
  In n (keys d) -> status d n <> Some graphlib._NODE_DONE ->
  exists h, held h /\ clos_refl_trans string (edge d) h n.
Proof.
  intros Hac Hin Hnd.
  destruct (@waiting_chain (List.length (keys d)) n Hin Hnd)
    as [H|(l & Hl & Hpath & Hkeys)]; [assumption|].
  exfalso. destruct (@path_dup (edge d) (l ++ [n]) Hpath) as (u & Hu).
  - intros Hnodup.
    assert (Hincl : incl (l ++ [n]) (keys d)).
    { intros m Hm. apply in_app_or in Hm. destruct Hm as [Hm|[<-|[]]]; auto. }
    pose proof (NoDup_incl_length Hnodup Hincl) as Hlen.
    rewrite length_app in Hlen. simpl in Hlen. lia.
  - exact (Hac u Hu).
Qed.

End Standstill.

Lemma clos_refl_trans_ext (R R' : string -> string -> Prop) (u v : string) :
  (forall a b, R a b -> R' a b) ->
  clos_refl_trans string R u v -> clos_refl_trans string R' u v.
Proof.
  intros H Hr. induction Hr.
  - apply rt_step. auto.
  - apply rt_refl.
  - eapply rt_trans; eassumption.
Qed.

Section InertPass.

Context {QD Ext Loc TickType : Type}.
Variable cls : QuestClass QD Ext Loc.

(** A pass that starts with [complete] set, or with nothing ready in the
    graph, calls no stage. *)
Lemma inert_pass (q : Quest QD) (tick : TickType) (x : Ext)
    (q' : Quest QD) (x' : Ext) (t : list Event) (r : result unit) :
  sorter_wf (graph q) ->
  complete q = true \/ graphlib._ready_nodes (graph q) = Some [] ->
  execute_stages cls q tick x = (q', x', t, r) ->
  r = Ok tt /\
  (forall e, In e t -> exists n, e = Ready n) /\
  key q' = key q /\ quest_data q' = quest_data q /\
  completed_stages q' = completed_stages q /\ complete q' = complete q /\
  x' = x.
Proof.
  intros Hwf Hstop. unfold_execute_stages. unfold budget.
  cbn [while_active].
  destruct (wf_ready Hwf) as (ready & Er & _).
  unfold graphlib.is_active. rewrite Er.
  destruct (Z.ltb _ _ || _).
  - destruct (get_ready_spec Hwf) as (g & ready' & Eg & Er1 & _).
    rewrite Er in Er1. injection Er1 as <-. rewrite Eg.
    destruct ready as [|n batch].
    + intros [= <- <- <- <-]. simpl. split; [reflexivity|].
      split; [intros e []|]. auto 10.
    + destruct Hstop as [Hc|He]; [|rewrite Er in He; discriminate].
      cbn [for_nodes]. simpl. rewrite Hc.
      intros [= <- <- <- <-]. simpl. split; [reflexivity|]. split.
      * intros e Hin. rewrite app_nil_r in Hin.
        destruct Hin as [<-|Hin]; [eauto|].
        apply in_map_iff in Hin. destruct Hin as (m & <- & _). eauto.
      * auto 10.
  - intros [= <- <- <- <-]. split; [reflexivity|].
    split; [intros e []|]. auto 10.
Qed.

End InertPass.

Section ConstructedPass.

Context {QD Ext Loc Doc TickType : Type}.
Variable parse_obj : Doc -> string + StorageModel.
Variable VersionInfo_parse : string -> option VersionInfo.
Variable cls : QuestClass QD Ext Loc.

Local Abbreviation Quest_init db := (Quest_init parse_obj VersionInfo_parse cls db).
Local Abbreviation execute_stages := (@execute_stages QD Ext Loc TickType cls).

Lemma constructed_pass_ext (db : string -> option Doc) (k : string)
    (o : option (Attrs QD)) (q : Quest QD) (tick : TickType) (x : Ext)
    (q' : Quest QD) (x' : Ext) (t : list Event) (r : result unit) :
  Quest_init db k = (o, Ok q) ->
  execute_stages q tick x = (q', x', t, r) ->
  r = Ok tt /\
  ((exists todo, pass_ext cls todo q' t /\ complete q' = true) \/
   (pass_ext cls [] q' t /\
    graphlib._ready_nodes (graph q') = Some [])).
Proof.
  intros Hq E.
  destruct (Quest_init_Ok parse_obj VersionInfo_parse cls db k Hq)
    as (_ & _ & _ & Hg & _).
  eapply execute_stages_ext; [exact Hg | | exact E].
  eapply Quest_init_connected. exact Hq.
Qed.

Lemma constructed_pass_ext_any (db : string -> option Doc) (k : string)
    (o : option (Attrs QD)) (q : Quest QD) (tick : TickType) (x : Ext)
    (q' : Quest QD) (x' : Ext) (t : list Event) (r : result unit) :
  Quest_init db k = (o, Ok q) ->
  execute_stages q tick x = (q', x', t, r) ->
  exists todo, pass_ext cls todo q' t.
Proof.
  intros Hq E.
  destruct (constructed_pass_ext _ _ _ _ Hq E) as (_ & [(todo & H & _)|[H _]]);
    eauto.
Qed.

(** In a pass over a freshly constructed quest the graph hands out every
    stage at most once, a stage object is made at most once per stage,
    and only for a stage that was handed out. *)
Theorem stage_runs_once (db : string -> option Doc) (k : string)
    (o : option (Attrs QD)) (q : Quest QD) (tick : TickType) (x : Ext)
    (q' : Quest QD) (x' : Ext) (t : list Event) (r : result unit) :
  Quest_init db k = (o, Ok q) ->
  execute_stages q tick x = (q', x', t, r) ->
  NoDup (readies t) /\ NoDup (started t) /\ incl (started t) (readies t).
Proof.
  intros Hq E. destruct (constructed_pass_ext_any _ _ _ _ Hq E) as (todo & H).
  split; [exact (pe_readies H)|]. split; [exact (pe_started H)|].
  intros n Hn. apply started_In in Hn. destruct Hn as (ret & c & Hin).
  apply readies_In.
  eapply trace_ok_called; [exact (pi_trace (pe_inv H)) | exact Hin].
Qed.

(** Only stages that take part in a [children] declaration are ever
    handed out, called or marked done: a stage without children that no
    stage lists as a child is never run, and a quest none of whose stages
    has children runs nothing at all. *)
Theorem only_connected_stages_run (db : string -> option Doc) (k : string)
    (o : option (Attrs QD)) (q : Quest QD) (tick : TickType) (x : Ext)
    (q' : Quest QD) (x' : Ext) (t : list Event) (r : result unit) :
  Quest_init db k = (o, Ok q) ->
  execute_stages q tick x = (q', x', t, r) ->
  (forall e n, In e t ->
      (e = Ready n \/ e = MarkedDone n \/
       exists h ret c, e = Called n h ret c) ->
      connected cls n) /\
  ((forall s S, In (s, S) (stages cls) -> children S = []) -> t = []).
Proof.
  intros Hq E. destruct (constructed_pass_ext_any _ _ _ _ Hq E) as (todo & H).
  assert (Hready : forall n, In (Ready n) t -> connected cls n).
  { intros n Hin. apply (pe_connected H).
    destruct (pe_ready H n Hin) as [Hs|Hs]; apply status_Some in Hs;
      destruct Hs as (i & Hg & _); eapply get_Some_keys; eassumption. }
  assert (Hall : forall e n, In e t ->
            (e = Ready n \/ e = MarkedDone n \/
             exists h ret c, e = Called n h ret c) ->
            connected cls n).
  { intros e n Hin [->|[->|(h & ret & c & ->)]].
    - auto.
    - apply Hready. apply in_split in Hin. destruct Hin as (t1 & t2 & ->).
      apply in_or_app. left. exact (pi_trace (pe_inv H) t1 _ t2 eq_refl).
    - apply Hready. eapply trace_ok_called;
        [exact (pi_trace (pe_inv H)) | exact Hin]. }
  split; [exact Hall|].
  intros Hnone. destruct t as [|e t]; [reflexivity|]. exfalso.
  assert (Hc : exists n, connected cls n).
  { destruct e as [n|n|n h ret c]; exists n;
      apply (Hall _ n (or_introl eq_refl)); eauto 10. }
  destruct Hc as (n & m & [(S & Hin & Hc)|(S & Hin & Hc)]);
    rewrite (Hnone _ _ Hin) in Hc; contradiction.
Qed.

Lemma pass_runs_to_a_standstill_core (db : string -> option Doc) (k : string)
    (o : option (Attrs QD)) (q : Quest QD) (tick : TickType) (x : Ext)
    (q' : Quest QD) (x' : Ext) (t : list Event) (r : result unit) :
  Quest_init db k = (o, Ok q) ->
  execute_stages q tick x = (q', x', t, r) ->
  complete q' = false ->
  (forall n, connected cls n ->
      (In (MarkedDone n) t /\ In n (completed_stages q')) \/
      exists h, held_back h t /\
                clos_refl_trans string (child_of cls) h n) /\
  ((forall h, ~ held_back h t) ->
   forall n, connected cls n -> In n (completed_stages q')).
Proof.
  intros Hq E Hc.
  destruct (Quest_init_Ok parse_obj VersionInfo_parse cls db k Hq)
    as (_ & _ & _ & Hg & _).
  destruct (constructed_pass_ext _ _ _ _ Hq E)
    as (_ & [(todo & _ & Hc')|[H Hempty]]); [congruence|].
  pose proof (pe_inv H) as Hinv.
  assert (Hmain : forall n, connected cls n ->
            (In (MarkedDone n) t /\ In n (completed_stages q')) \/
            exists h, held_back h t /\
                      clos_refl_trans string (child_of cls) h n).
  { intros n Hn.
    assert (Hkey : In n (keys (graphlib._node2info (graph q')))).
    { destruct Hn as (m & [Hm|Hm]); apply (pi_edges Hinv) in Hm.
      - unfold edge, succs in Hm.
        destruct (get (graphlib._node2info (graph q')) n) eqn:Eg;
          [|contradiction].
        eapply get_Some_keys. eassumption.
      - apply contains_keys. exact (wf_closed (pi_wf Hinv) _ _ Hm). }
    assert (Hdec : status (graphlib._node2info (graph q')) n
                   = Some graphlib._NODE_DONE \/
                   status (graphlib._node2info (graph q')) n
                   <> Some graphlib._NODE_DONE).
    { destruct (status (graphlib._node2info (graph q')) n) as [z|];
        [|right; discriminate].
      destruct (Z.eq_dec z graphlib._NODE_DONE) as [->|N];
        [now left | right; congruence]. }
    destruct Hdec as [Hd|Hnd].
    - left. apply (pi_done Hinv) in Hd. split; [assumption|].
      exact (pi_completed Hinv _ Hd).
    - right.
      destruct (@waiting_on_held (graph q') (fun h => held_back h t)
                  (pi_wf Hinv) Hempty) with (n := n) as (h & Hh & Hr).
      + intros m Hm. destruct (pe_out H m Hm) as [[]|Hh]. exact Hh.
      + intros u Hu. apply (gs_acyclic Hg (u := u)).
        eapply clos_trans_ext; [|exact Hu].
        intros a b. apply (pi_edges Hinv).
      + exact Hkey.
      + exact Hnd.
      + exists h. split; [assumption|].
        eapply clos_refl_trans_ext; [|exact Hr].
        intros a b. apply (pi_edges Hinv). }
  split; [exact Hmain|].
  intros Hnone n Hn. destruct (Hmain n Hn) as [[_ Hd]|(h & Hh & _)];
    [assumption | now destruct (Hnone h)].
Qed.

(** A pass over a freshly constructed quest goes as far as it can: when
    it ends with [complete] unset, every stage that takes part in a
    [children] declaration has been marked done, unless it was held
    back (its [condition] or its [is_done] answered false) or comes
    after a stage that was; so when no stage was held back, all of them
    are in [completed_stages]. *)
Theorem pass_runs_to_a_standstill (db : string -> option Doc) (k : string)
    (o : option (Attrs QD)) (q : Quest QD) (tick : TickType) (x : Ext)
    (q' : Quest QD) (x' : Ext) (t : list Event) (r : result unit) :
  Quest_init db k = (o, Ok q) ->
  execute_stages q tick x = (q', x', t, r) ->
  complete q' = false ->
  (forall n, connected cls n ->
      (In (MarkedDone n) t /\ In n (completed_stages q')) \/
      exists h, held_back h t /\
                clos_refl_trans string (child_of cls) h n) /\
  ((forall h, ~ held_back h t) ->
   forall n, connected cls n -> In n (completed_stages q')).
Proof.
  intros; eapply pass_runs_to_a_standstill_core; eassumption.
Qed.

(** Running [execute_stages] again on the same quest object calls no
    stage: the stages that were held back in the first pass stay handed
    out in its graph and are not tried again; nothing of the quest
    changes but the bookkeeping of the graph. *)
Theorem second_pass_is_inert (db : string -> option Doc) (k : string)
    (o : option (Attrs QD)) (q : Quest QD) (tick : TickType) (x : Ext)
    (q1 : Quest QD) (x1 : Ext) (t1 : list Event) (r1 : result unit)
    (tick2 : TickType) (y : Ext)
    (q2 : Quest QD) (x2 : Ext) (t2 : list Event) (r2 : result unit) :
  Quest_init db k = (o, Ok q) ->
  execute_stages q tick x = (q1, x1, t1, r1) ->
  execute_stages q1 tick2 y = (q2, x2, t2, r2) ->
  r2 = Ok tt /\
  (forall n h ret c, ~ In (Called n h ret c) t2) /\
  (forall n, ~ In (MarkedDone n) t2) /\
  quest_data q2 = quest_data q1 /\
  completed_stages q2 = completed_stages q1 /\
  complete q2 = complete q1 /\ x2 = y.
Proof.
  intros Hq E1 E2.
  assert (Hstate : sorter_wf (graph q1) /\
            (complete q1 = true \/
             graphlib._ready_nodes (graph q1) = Some [])).
  { destruct (constructed_pass_ext _ _ _ _ Hq E1)
      as (_ & [(todo & H & Hc)|[H He]]);
      (split; [exact (pi_wf (pe_inv H)) | auto]). }
  destruct Hstate as [Hwf Hstop].
  destruct (@inert_pass _ _ _ _ cls _ _ _ _ _ _ _ Hwf Hstop E2)
    as (Hr & Hev & _ & Hd & Hcs & Hc & Hx).
  split; [assumption|]. split; [|split; [|auto]].
  - intros n h ret c Hin. apply Hev in Hin. destruct Hin as (m & [=]).
  - intros n Hin. apply Hev in Hin. destruct Hin as (m & [=]).
Qed.

End ConstructedPass.

(** * Versions across saves *)

Lemma semver_safe_iff (start dest : VersionInfo) :
  semver_safe start dest = true <->
  major start = major dest /\ (minor start <= minor dest)%Z.
Proof.
  unfold semver_safe.
  destruct (Z.eqb_spec (major start) (major dest)) as [E|E]; simpl.
  - destruct (Z.gtb_spec (minor start) (minor dest)); split;
      try discriminate; try reflexivity.
    + intros [_ H']. lia.
    + intros _. split; [assumption | lia].
  - split; [discriminate | intros [H _]; contradiction].
Qed.

(** [semver_safe] orders the versions of a quest: every version can load
    its own snapshots; what an older version can hand to a newer one
    composes over several upgrades; two versions can load each other's
    snapshots only when they agree on major and minor; and of two
    versions with the same major, one can always load the snapshots of
    the other. *)
Theorem semver_safe_preorder :
  (forall v, semver_safe v v = true) /\
  (forall a b c, semver_safe a b = true -> semver_safe b c = true ->
                 semver_safe a c = true) /\
  (forall a b, semver_safe a b = true -> semver_safe b a = true ->
               major a = major b /\ minor a = minor b) /\
  (forall a b, major a = major b ->
               semver_safe a b = true \/ semver_safe b a = true).
Proof.
  split; [|split; [|split]].
  - intros v. apply semver_safe_iff. split; [reflexivity | lia].
  - intros a b c Hab Hbc. apply semver_safe_iff in Hab, Hbc.
    apply semver_safe_iff. destruct Hab, Hbc. split; [congruence | lia].
  - intros a b Hab Hba. apply semver_safe_iff in Hab, Hba.
    destruct Hab, Hba. split; [assumption | lia].
  - intros a b Hm. rewrite !semver_safe_iff.
    destruct (Z.le_ge_cases (minor a) (minor b)); [left | right];
      (split; [congruence | lia]).
Qed.

Section AcrossVersions.

Context {QD Ext Loc Doc : Type}.
Variable parse_obj : Doc -> string + StorageModel.
Variable VersionInfo_parse : string -> option VersionInfo.
Variable dict_of : StorageModel -> Doc.

Local Abbreviation Quest_init := (Quest_init parse_obj VersionInfo_parse).
Local Abbreviation save := (save dict_of).

(** A quest saved by one version of its class and constructed again by
    another: when the saving version is safe to load for the loading
    one, the progress comes back ([completed_stages], [complete], and
    the payload as the loading class reads it); when it is not, the
    constructor raises [QuestLoadError] naming both versions and the
    quest has none of its progress attributes. *)
Theorem save_then_load_other_version
    (writer reader : QuestClass QD Ext Loc)
    (db db0 : string -> option Doc) (q q0 : Quest QD)
    (o0 : option (Attrs QD)) :
  (forall sm, parse_obj (dict_of sm) = inr sm) ->
  VersionInfo_parse (semver.str (version writer)) = Some (version writer) ->
  Quest_init reader db0 (key q) = (o0, Ok q0) ->
  (semver_safe (version writer) (version reader) = true ->
   forall d, parse_raw reader (json writer (quest_data q)) = inr d ->
   exists o2 q2,
     Quest_init reader (save writer db q) (key q) = (o2, Ok q2) /\
     key q2 = key q /\ quest_data q2 = d /\
     completed_stages q2 = completed_stages q /\
     complete q2 = complete q) /\
  (semver_safe (version writer) (version reader) = false ->
   Quest_init reader (save writer db q) (key q)
   = (Some (unloaded QD (key q)),
      Raise (QuestLoadError
               (cat [repr reader (key q); " Unsafe version mismatch in! ";
                     semver.str (version writer); " -> ";
                     semver.str (version reader)])
               None))).
Proof.
  intros Hdict Hver E0.
  destruct (Quest_init_Ok parse_obj VersionInfo_parse reader db0 _ E0)
    as (Hk & _ & Hd & Hg & _).
  assert (Hsaved : save writer db q (key q)
                   = Some (dict_of (get_storage_model writer q))).
  { unfold_save. now rewrite String.eqb_refl. }
  apply String.eqb_neq in Hk.
  split.
  - intros Hs d Hraw. unfold_Quest_init. rewrite Hk.
    unfold_load. simpl. rewrite Hsaved, Hdict.
    unfold_load_storage_model. simpl. rewrite Hver, Hs, Hraw. simpl.
    match goal with
    | |- context [load_stages reader ?a] =>
        destruct (load_stages_Ok a Hd (gs_acyclic Hg)) as (g & -> & Hg')
    end.
    eexists _, _. split; [reflexivity|]. simpl. auto.
  - intros Hs. unfold_Quest_init. rewrite Hk.
    unfold_load. simpl. rewrite Hsaved, Hdict.
    unfold_load_storage_model. simpl. rewrite Hver, Hs. reflexivity.
Qed.

End AcrossVersions.

(** * app/main.py *)

Module main.

(** What [create_new_game] raises: the [ValidationError] of the event, or
    an exception of the quest system it calls. *)
Inductive exn (E : Type) : Type :=
| ValidationError (msg : string)
| Callee (e : E).
Arguments ValidationError {E} msg.
Arguments Callee {E} e.

Section CreateNewGame.

(** The event, [utils.models.NewGameData], the values of document
    fields, and the quest system ([quest_system] is not among the
    sources): its classes, quest objects and exceptions. *)
Variable PubSubEvent NewGameData Val QuestClass QuestObj E : Type.

Variable parse_event : PubSubEvent -> string + NewGameData.
Variable userId : NewGameData -> string.
Variable to_dict : NewGameData -> dict Val.          (* .dict() *)
Variable SERVER_TIMESTAMP : Val.

Variable FIRST_QUEST : string.
Variable get_quest_by_name : string -> E + QuestClass.
Variable name_of : QuestClass -> string.             (* __name__ *)
Variable construct : QuestClass -> E + QuestObj.     (* FirstQuest() *)
Variable load : QuestObj -> dict Val -> E + QuestObj.
Variable new : QuestObj -> E + QuestObj.
Variable get_save_data : QuestObj -> E + dict Val.

(** The document store: collection, document id, fields. *)
Definition Store : Type := string -> string -> option (dict Val).

(** [ref.set(data)] *)
Definition set_doc (s : Store) (coll id : string) (data : dict Val) : Store :=
  fun c i =>
    if (String.eqb c coll && String.eqb i id)%bool then Some data else s c i.

(** [ref.set(data, merge=True)] *)
Definition merge_doc (s : Store) (coll id : string) (data : dict Val)
  : Store :=
  let old := match s coll id with Some d => d | None => [] end in
  set_doc s coll id (fold_left (fun d kv => set d (fst kv) (snd kv)) data old).

(** [create_new_game]: create a new game. *)
Definition create_new_game (event : PubSubEvent) (s : Store)
  : Store * (exn E + unit) :=
  (* decode event *)
  match parse_event event with
  | inl err => (s, inl (ValidationError err))
  | inr new_game_data =>
      (* create game if doesn't exist *)
      let game_id := String.append "github:" (userId new_game_data) in
      let s :=
        match s "game" game_id with
        | Some _ => merge_doc s "game" game_id (to_dict new_game_data)
        | None =>
            set_doc s "game" game_id
              (set (to_dict new_game_data) "joined" SERVER_TIMESTAMP)
        end in
      (* create starting quest if not exist *)
      match get_quest_by_name FIRST_QUEST with
      | inl e => (s, inl (Callee e))
      | inr FirstQuest =>
          match construct FirstQuest with
          | inl e => (s, inl (Callee e))
          | inr quest_obj =>
              let quest_id :=
                String.append game_id
                  (String.append ":" (name_of FirstQuest)) in
              let loaded :=
                match s "quest" quest_id with
                | Some quest => load quest_obj quest
                | None => new quest_obj
                end in
              match loaded with
              | inl e => (s, inl (Callee e))
              | inr quest_obj =>
                  match get_save_data quest_obj with
                  | inl e => (s, inl (Callee e))
                  | inr data => (set_doc s "game" game_id data, inr tt)
                  end
              end
          end
      end
  end.

(** The game document after the first write of [create_new_game]. *)
Definition game_written (s : Store) (new_game_data : NewGameData)
  : dict Val :=
  let game_id := String.append "github:" (userId new_game_data) in
  match s "game" game_id with
  | Some old =>
      fold_left (fun d kv => set d (fst kv) (snd kv))
                (to_dict new_game_data) old
  | None => set (to_dict new_game_data) "joined" SERVER_TIMESTAMP
  end.

(** [create_new_game] writes to one document only, the game document
    [github:<userId>]: the collection of quests is read and never
    written.  An event that does not validate leaves the store as it
    was.  When the call returns, the game document holds the save data
    of the quest object and nothing else (what was written from the
    event is replaced); when the quest system raises, the game document
    has already been written from the event. *)
Theorem create_new_game_writes (event : PubSubEvent) (s s' : Store)
    (r : exn E + unit) :
  create_new_game event s = (s', r) ->
  match parse_event event with
  | inl err =>
      r = inl (ValidationError err) /\ forall c i, s' c i = s c i
  | inr new_game_data =>
      let game_id := String.append "github:" (userId new_game_data) in
      (forall c i, c <> "game" \/ i <> game_id -> s' c i = s c i) /\
      match r with
      | inr _ =>
          exists FirstQuest obj data,
            get_quest_by_name FIRST_QUEST = inr FirstQuest /\
            get_save_data obj = inr data /\
            s' "game" game_id = Some data
      | inl e =>
          s' "game" game_id = Some (game_written s new_game_data) /\
          exists e', e = Callee e'
      end
  end.
Proof.
  unfold create_new_game.
  destruct (parse_event event) as [err|data].
  { intros [= <- <-]. auto. }
  cbv zeta. set (game_id := String.append "github:" (userId data)).
  set (s1 := match s "game" game_id with
             | Some _ => merge_doc s "game" game_id (to_dict data)
             | None => set_doc s "game" game_id
                         (set (to_dict data) "joined" SERVER_TIMESTAMP)
             end).
  assert (H1 : forall c i, c <> "game" \/ i <> game_id -> s1 c i = s c i).
  { intros c i N. unfold s1, merge_doc, set_doc.
    assert (Hb : (String.eqb c "game" && String.eqb i game_id)%bool = false).
    { apply andb_false_iff.
      destruct N as [N|N]; [left | right]; now apply String.eqb_neq. }
    destruct (s "game" game_id); now rewrite Hb. }
  assert (H2 : s1 "game" game_id = Some (game_written s data)).
  { unfold s1, game_written, merge_doc, set_doc. fold game_id.
    destruct (s "game" game_id) eqn:Es; rewrite ?Es;
      now rewrite !String.eqb_refl. }
  destruct (get_quest_by_name FIRST_QUEST) as [e|FirstQuest] eqn:Eq.
  { intros [= <- <-]. eauto. }
  destruct (construct FirstQuest) as [e|obj].
  { intros [= <- <-]. eauto. }
  match goal with
  | |- context [match ?l with inl _ => _ | inr _ => _ end = _] =>
      destruct l as [e|obj']
  end.
  { intros [= <- <-]. eauto. }
  destruct (get_save_data obj') as [e|d] eqn:Ed.
  { intros [= <- <-]. eauto. }
  intros [= <- <-]. split.
  - intros c i N. rewrite <- (H1 c i N). unfold set_doc.
    assert (Hb : (String.eqb c "game" && String.eqb i game_id)%bool = false).
    { apply andb_false_iff.
      destruct N as [N|N]; [left | right]; now apply String.eqb_neq. }
    now rewrite Hb.
  - exists FirstQuest, obj', d. split; [reflexivity|].
    split; [assumption|]. unfold set_doc. now rewrite !String.eqb_refl.
Qed.

End CreateNewGame.

End main.

(** * The constructed quest *)

Section Constructed.

Context {QD Ext Loc Doc TickType : Type}.
Variable parse_obj : Doc -> string + StorageModel.
Variable VersionInfo_parse : string -> option VersionInfo.
Variable cls : QuestClass QD Ext Loc.

Local Abbreviation Quest_init db := (Quest_init parse_obj VersionInfo_parse cls db).
Local Abbreviation execute_stages := (@execute_stages QD Ext Loc TickType cls).

(** A stage that lists children and that no stage lists as a child. *)
Definition root (n : string) : Prop :=
  connected cls n /\ forall p, ~ child_of cls p n.

Lemma fresh_graph_roots (g : graphlib.TopologicalSorter) :
  graph_of_stages cls g ->
  (forall n, In n (keys (graphlib._node2info g)) -> connected cls n) ->
  exists ready,
    graphlib._ready_nodes g = Some ready /\ NoDup ready /\
    forall n, In n ready <-> root n.
Proof.
  intros Hg Hcon. pose proof (gs_wf Hg) as Hwf.
  destruct (wf_ready Hwf) as (ready & Er & Hnd & Hr).
  exists ready. split; [assumption|]. split; [assumption|].
  intros n. rewrite Hr. split.
  - intros Hs. apply status_Some in Hs. destruct Hs as (i & Eg & Hz).
    split; [apply Hcon; eapply get_Some_keys; eassumption|].
    intros p Hp. apply (gs_edges Hg) in Hp. unfold edge, succs in Hp.
    destruct (get (graphlib._node2info g) p) as [ip|] eqn:Egp;
      [|contradiction].
    assert (Hpend : pending (graphlib._node2info g) n = 0).
    { pose proof (wf_count Hwf n Eg) as Hc. lia. }
    pose proof (pending_zero _ _ _ _ Hpend (get_In _ _ Egp) Hp) as Hd.
    assert (Hsp : status (graphlib._node2info g) p
                  = Some (graphlib.npredecessors ip)).
    { unfold status. now rewrite Egp. }
    apply (gs_fresh Hg) in Hsp. rewrite Hd in Hsp.
    unfold graphlib._NODE_DONE in Hsp. lia.
  - intros [(m & Hm) Hroot].
    assert (Hkey : In n (keys (graphlib._node2info g))).
    { destruct Hm as [Hm|Hm]; apply (gs_edges Hg) in Hm.
      - unfold edge, succs in Hm.
        destruct (get (graphlib._node2info g) n) eqn:Eg; [|contradiction].
        eapply get_Some_keys. eassumption.
      - apply contains_keys. exact (wf_closed Hwf _ _ Hm). }
    apply contains_keys in Hkey. unfold contains in Hkey.
    destruct (get (graphlib._node2info g) n) as [i|] eqn:Eg;
      [|discriminate].
    assert (Hsn : status (graphlib._node2info g) n
                  = Some (graphlib.npredecessors i)).
    { unfold status. now rewrite Eg. }
    pose proof (gs_fresh Hg _ Hsn) as Hpos.
    pose proof (wf_count Hwf n Eg Hpos) as Hc.
    destruct (pending (graphlib._node2info g) n) as [|k] eqn:Ep.
    + now rewrite Hsn, Hc.
    + exfalso. destruct (@pending_pos (graphlib._node2info g) n)
        as (p & ip & Hin & Hs & _); [lia|].
      apply (Hroot p). apply (gs_edges Hg). unfold edge, succs.
      now rewrite (get_NoDup_In _ _ _ (wf_keys Hwf) Hin).
Qed.

(** What the constructor returns: a quest under the key it was given,
    with the progress of the stored snapshot (or the defaults when
    nothing is stored), and a graph in which nothing is handed out yet
    and the ready stages are the roots of the [children] declarations:
    the stages that have children and are no stage's child. *)
Theorem Quest_init_restores (db : string -> option Doc) (k : string)
    (o : option (Attrs QD)) (q : Quest QD) :
  Quest_init db k = (o, Ok q) ->
  key q = k /\
  (db k = None ->
   quest_data q = QuestDataModel cls /\ completed_stages q = [] /\
   complete q = false) /\
  (forall doc sm, db k = Some doc -> parse_obj doc = inr sm ->
   parse_raw cls (sm_serialized_data sm) = inr (quest_data q) /\
   completed_stages q = sm_completed_stages sm /\
   complete q = sm_complete sm) /\
  (forall n z, status (graphlib._node2info (graph q)) n = Some z ->
               (0 <= z)%Z) /\
  exists ready,
    graphlib._ready_nodes (graph q) = Some ready /\ NoDup ready /\
    forall n, In n ready <-> root n.
Proof.
  intros Hq.
  destruct (Quest_init_Ok parse_obj VersionInfo_parse cls db k Hq)
    as (_ & Hk & _ & Hg & Hfresh & Hstored).
  split; [assumption|]. split; [assumption|]. split; [assumption|].
  split; [intros n z; apply (gs_fresh Hg)|].
  apply fresh_graph_roots; [assumption|].
  eapply Quest_init_connected. exact Hq.
Qed.

(** Loading a snapshot and saving the quest straight away rewrites the
    document with the version of the class, the same [completed_stages]
    and [complete], and the payload serialized again from what was
    parsed: an older snapshot is upgraded by the first save. *)
Theorem load_then_save (db : string -> option Doc) (k : string)
    (o : option (Attrs QD)) (q : Quest QD) (doc : Doc)
    (sm : StorageModel) :
  Quest_init db k = (o, Ok q) ->
  db k = Some doc ->
  parse_obj doc = inr sm ->
  exists v d,
    VersionInfo_parse (sm_version sm) = Some v /\
    semver_safe v (version cls) = true /\
    parse_raw cls (sm_serialized_data sm) = inr d /\
    get_storage_model cls q
    = mkStorageModel (semver.str (version cls)) (sm_completed_stages sm)
                     (json cls d) (sm_complete sm).
Proof.
  intros Hq Hdoc Hsm.
  destruct (Quest_init_Ok parse_obj VersionInfo_parse cls db k Hq)
    as (_ & _ & _ & _ & _ & Hstored).
  destruct (Hstored doc sm Hdoc Hsm) as (Hd & Hcs & Hc).
  revert Hq. unfold_Quest_init.
  destruct (String.eqb k ""); [discriminate|].
  unfold_load. simpl. rewrite Hdoc, Hsm.
  unfold_load_storage_model.
  destruct (VersionInfo_parse (sm_version sm)) as [v|]; [|discriminate].
  destruct (semver_safe v (version cls)) eqn:Es; [|discriminate].
  intros _. exists v, (quest_data q).
  split; [reflexivity|]. split; [exact Es|]. split; [assumption|].
  unfold get_storage_model. now rewrite Hcs, Hc.
Qed.

(** The first pass over a constructed quest begins with the graph
    handing out the roots of the [children] declarations, each once. *)
Theorem first_batch_is_roots (db : string -> option Doc) (k : string)
    (o : option (Attrs QD)) (q : Quest QD) (tick : TickType) (x : Ext)
    (q' : Quest QD) (x' : Ext) (t : list Event) (r : result unit) :
  Quest_init db k = (o, Ok q) ->
  execute_stages q tick x = (q', x', t, r) ->
  exists roots rest,
    t = map Ready roots ++ rest /\ NoDup roots /\
    (forall n, In n roots <-> root n) /\
    (roots = [] -> t = []).
Proof.
  intros Hq E.
  destruct (Quest_init_Ok parse_obj VersionInfo_parse cls db k Hq)
    as (_ & _ & _ & Hg & _).
  destruct (@fresh_graph_roots (graph q) Hg) as (ready & Er & Hnd & Hroots).
  { eapply Quest_init_connected. exact Hq. }
  exists ready. revert E. unfold_execute_stages. unfold budget.
  cbn [while_active]. unfold graphlib.is_active. rewrite Er.
  destruct (get_ready_spec (gs_wf Hg)) as (g & ready' & Eg & Er1 & _).
  rewrite Er in Er1. injection Er1 as <-. rewrite Eg.
  destruct ready as [|n batch].
  - destruct (Z.ltb _ _ || _); intros [= <- <- <- <-]; exists [];
      auto.
  - rewrite orb_true_r.
    destruct (for_nodes cls (n :: batch) (set_graph q g) x)
      as [[[q2 x2] t2] r2] eqn:Ef.
    destruct r2 as [[|]|e|].
    + destruct (while_active cls _ q2 x2) as [[[q3 x3] t3] r3] eqn:Ew.
      intros [= <- <- <- <-]. exists (t2 ++ t3).
      split; [reflexivity|]. split; [assumption|]. split; [assumption|].
      discriminate.
    + intros [= <- <- <- <-]. exists t2.
      split; [reflexivity|]. split; [assumption|]. split; [assumption|].
      discriminate.
    + intros [= <- <- <- <-]. exists t2.
      split; [reflexivity|]. split; [assumption|]. split; [assumption|].
      discriminate.
    + intros [= <- <- <- <-]. exists t2.
      split; [reflexivity|]. split; [assumption|]. split; [assumption|].
      discriminate.
Qed.

End Constructed.

(** * Whole passes *)

Lemma pass_trace_same (c c' : bool) (t : list Event) :
  pass_trace (fun b a => a = b) c t c' -> c' = c.
Proof.
  intros H. induction H; try assumption; try reflexivity; congruence.
Qed.

Section WholePass.

Context {QD Ext Loc TickType : Type}.
Variable cls : QuestClass QD Ext Loc.

Local Abbreviation execute_stages := (@execute_stages QD Ext Loc TickType cls).

(** Every stage runs when asked and reports done after running. *)
Definition willing : Prop :=
  forall n S q l x,
    get (stages cls) n = Some S ->
    eff_ret (condition S q l x) = true /\ eff_ret (is_done S q l x) = true.

(** No call on a stage changes [complete]. *)
Definition hooks_leave_complete : Prop :=
  hooks_respect cls (fun b a => a = b).

Lemma willing_not_held_back (q : Quest QD) (tick : TickType) (x : Ext)
    (q' : Quest QD) (x' : Ext) (t : list Event) (r : result unit) :
  willing ->
  execute_stages q tick x = (q', x', t, r) ->
  forall h, ~ held_back h t.
Proof.
  intros Hw E.
  cut (exists todo : list string, forall h, ~ held_back h t).
  { intros (_ & H). exact H. }
  refine (@execute_stages_invariant _ _ _ TickType cls
    (fun _ _ _ tr => forall h, ~ held_back h tr)
    _ _ _ q tick x q' x' t r _ E).
  - intros q1 x1 tr g rr H _ _ h Hh. apply held_back_app in Hh.
    destruct Hh as [Hh|(c & Hh)]; [exact (H h Hh)|].
    destruct rr as [batch| |].
    + destruct Hh as [Hh|Hh]; apply in_map_iff in Hh;
        destruct Hh as (m & [=] & _).
    + destruct Hh as [[]|[]].
    + destruct Hh as [[]|[]].
  - intros node rest q1 x1 tr g rr H _ _ _ h Hh. apply held_back_app in Hh.
    destruct Hh as [Hh|(c & Hh)]; [exact (H h Hh)|].
    destruct rr as [[]| |].
    + destruct Hh as [[[=]|[]]|[[=]|[]]].
    + destruct Hh as [[]|[]].
    + destruct Hh as [[]|[]].
  - intros node rest q1 x1 tr S q2 x2 t2 r2 H _ _ Hs Er h Hh.
    apply held_back_app in Hh.
    destruct Hh as [Hh|(c & Hh)]; [exact (H h Hh)|].
    revert Er. unfold_run_stage. cbv zeta. unfold called.
    rewrite (proj1 (Hw node S _ _ _ Hs)), (proj2 (Hw node S _ _ _ Hs)).
    destruct (graphlib.done _ node) as [g1 [[]|e|]];
      intros [= <- <- <- <-]; simpl in Hh;
      repeat match goal with
             | H' : _ \/ _ |- _ => destruct H' as [H'|H']
             | H' : Called _ _ _ _ = Called _ _ _ _ |- _ => discriminate H'
             | H' : MarkedDone _ = Called _ _ _ _ |- _ => discriminate H'
             | H' : In _ (_ ++ _) |- _ => apply in_app_or in H'
             | H' : In _ (_ :: _) |- _ => simpl in H'
             | H' : In _ [] |- _ => destruct H'
             | H' : False |- _ => destruct H'
             end.
  - intros h (c & [[]|[]]).
Qed.

Lemma execute_stages_key (q : Quest QD) (tick : TickType) (x : Ext)
    (q' : Quest QD) (x' : Ext) (t : list Event) (r : result unit) :
  execute_stages q tick x = (q', x', t, r) -> key q' = key q.
Proof.
  intros E.
  cut (exists todo : list string, key q' = key q).
  { intros (_ & H). exact H. }
  refine (@execute_stages_invariant _ _ _ TickType cls
    (fun _ q1 _ _ => key q1 = key q)
    _ _ _ q tick x q' x' t r _ E).
  - intros q1 x1 tr g rr H _ _. exact H.
  - intros node rest q1 x1 tr g rr H _ _ _. exact H.
  - intros node rest q1 x1 tr S q2 x2 t2 r2 H _ _ _ Er.
    apply run_stage_frame in Er. destruct Er as [Hk _]. congruence.
  - reflexivity.
Qed.

(** No call on a stage changes the payload. *)
Definition hooks_leave_data : Prop :=
  forall n S q x,
    get (stages cls) n = Some S ->
    eff_quest_data (stage_init S q x) = quest_data q /\
    forall l,
      eff_quest_data (prepare S q l x) = quest_data q /\
      eff_quest_data (condition S q l x) = quest_data q /\
      eff_quest_data (execute S q l x) = quest_data q /\
      eff_quest_data (is_done S q l x) = quest_data q.

(** The engine itself never touches the key, the payload or the
    [complete] flag: the key is the same after every pass, and the
    payload and the flag are the same whenever no call on a stage
    changes them. *)
Theorem pass_changes_only_through_hooks (q : Quest QD) (tick : TickType)
    (x : Ext) (q' : Quest QD) (x' : Ext) (t : list Event)
    (r : result unit) :
  execute_stages q tick x = (q', x', t, r) ->
  key q' = key q /\
  (hooks_leave_complete -> complete q' = complete q) /\
  (hooks_leave_data -> quest_data q' = quest_data q).
Proof.
  intros E. split; [exact (@execute_stages_key q tick x q' x' t r E)|]. split.
  - intros Hl. pose proof (execute_stages_trace q tick x Hl E) as Ht.
    now apply pass_trace_same in Ht.
  - intros Hd.
    cut (exists todo : list string, quest_data q' = quest_data q).
    { intros (_ & H). exact H. }
    refine (@execute_stages_invariant _ _ _ TickType cls
      (fun _ q1 _ _ => quest_data q1 = quest_data q)
      _ _ _ q tick x q' x' t r _ E).
    + intros q1 x1 tr g rr H _ _. exact H.
    + intros node rest q1 x1 tr g rr H _ _ _. exact H.
    + intros node rest q1 x1 tr S q2 x2 t2 r2 H _ _ Hs Er.
      rewrite <- H. clear H.
      pose proof (fun q0 x0 => proj1 (Hd node S q0 x0 Hs)) as H0.
      pose proof (fun q0 l x0 => proj1 (proj2 (Hd node S q0 x0 Hs) l)) as H1.
      pose proof (fun q0 l x0 =>
                    proj1 (proj2 (proj2 (Hd node S q0 x0 Hs) l))) as H2.
      pose proof (fun q0 l x0 =>
                    proj1 (proj2 (proj2 (proj2 (Hd node S q0 x0 Hs) l))))
        as H3.
      pose proof (fun q0 l x0 =>
                    proj2 (proj2 (proj2 (proj2 (Hd node S q0 x0 Hs) l))))
        as H4.
      split_run_stage Er; simpl;
        rewrite ?H4; simpl; rewrite ?H3; simpl; rewrite ?H2; simpl;
        rewrite ?H1; simpl; rewrite ?H0; reflexivity.
    + reflexivity.
Qed.

End WholePass.

Section WholeQuest.

Context {QD Ext Loc Doc TickType : Type}.
Variable parse_obj : Doc -> string + StorageModel.
Variable VersionInfo_parse : string -> option VersionInfo.
Variable dict_of : StorageModel -> Doc.
Variable cls : QuestClass QD Ext Loc.

Local Abbreviation Quest_init db := (Quest_init parse_obj VersionInfo_parse cls db).
Local Abbreviation execute_stages := (@execute_stages QD Ext Loc TickType cls).
Local Abbreviation save := (save dict_of cls).

(** When every stage runs when asked and reports done, and no stage
    touches [complete], one pass over a freshly constructed quest that
    is not complete runs the whole graph: it returns normally with
    every stage that takes part in a [children] declaration marked done
    and in [completed_stages], and [complete] still unset. *)
Theorem willing_stages_all_complete (db : string -> option Doc)
    (k : string) (o : option (Attrs QD)) (q : Quest QD) (tick : TickType)
    (x : Ext) (q' : Quest QD) (x' : Ext) (t : list Event)
    (r : result unit) :
  willing cls ->
  hooks_leave_complete cls ->
  Quest_init db k = (o, Ok q) ->
  complete q = false ->
  execute_stages q tick x = (q', x', t, r) ->
  r = Ok tt /\ complete q' = false /\
  forall n, connected cls n ->
            In (MarkedDone n) t /\ In n (completed_stages q').
Proof.
  intros Hw Hl Hq Hc E.
  assert (Hc' : complete q' = false).
  { pose proof (execute_stages_trace q tick x Hl E) as Ht.
    apply pass_trace_same in Ht. congruence. }
  destruct (constructed_pass_ext parse_obj VersionInfo_parse cls
              db k tick x Hq E) as [Hr _].
  split; [assumption|]. split; [assumption|].
  intros n Hn.
  destruct (proj1 (pass_runs_to_a_standstill_core parse_obj
                     VersionInfo_parse cls db k tick x Hq E Hc') n Hn)
    as [H|(h & Hh & _)]; [exact H|].
  exfalso. exact (@willing_not_held_back _ _ _ _ cls _ _ _ _ _ _ _ Hw E h Hh).
Qed.

(** Progress survives a save and a reload: after a pass, saving the
    quest and constructing it again gives a quest with the same
    [completed_stages] and [complete]; a pass over the new object
    returns normally, runs none of the stages completed before, adds to
    [completed_stages] the stages that finish in it, and, when it ends
    with [complete] unset and holds no stage back, leaves every stage
    that takes part in a [children] declaration completed. *)
Theorem resume_after_reload (db db1 : string -> option Doc) (k : string)
    (o : option (Attrs QD)) (q : Quest QD) (tick : TickType) (x : Ext)
    (q1 : Quest QD) (x1 : Ext) (t1 : list Event) (r1 : result unit)
    (d : QD) :
  (forall sm, parse_obj (dict_of sm) = inr sm) ->
  VersionInfo_parse (semver.str (version cls)) = Some (version cls) ->
  parse_raw cls (json cls (quest_data q1)) = inr d ->
  Quest_init db k = (o, Ok q) ->
  execute_stages q tick x = (q1, x1, t1, r1) ->
  exists o2 q2,
    Quest_init (save db1 q1) k = (o2, Ok q2) /\
    completed_stages q2 = completed_stages q1 /\
    complete q2 = complete q1 /\
    forall tick2 y q3 x3 t2 r2,
      execute_stages q2 tick2 y = (q3, x3, t2, r2) ->
      r2 = Ok tt /\
      (forall n, In n (completed_stages q1) ->
                 forall h ret c, ~ In (Called n h ret c) t2) /\
      completed_stages q3 = completed_stages q1 ++ finished t2 /\
      (complete q3 = false -> (forall h, ~ held_back h t2) ->
       forall n, connected cls n -> In n (completed_stages q3)).
Proof.
  intros Hdict Hver Hraw Hq E.
  pose proof (@execute_stages_key _ _ _ _ cls _ _ _ _ _ _ _ E) as Hkey.
  destruct (Quest_init_Ok parse_obj VersionInfo_parse cls db k Hq)
    as (_ & Hk & _).
  assert (Hq' : Quest_init db (key q1) = (o, Ok q)) by congruence.
  destruct (proj1 (save_then_load_core parse_obj VersionInfo_parse dict_of
                     cls db1 db q1 Hdict Hver Hraw Hq'))
    as (o2 & q2 & Hq2 & _ & _ & Hcs & Hc & _).
  assert (Ek : key q1 = k) by congruence. rewrite Ek in Hq2.
  exists o2, q2. split; [assumption|]. split; [assumption|].
  split; [assumption|].
  intros tick2 y q3 x3 t2 r2 E2.
  destruct (constructed_pass_ext parse_obj VersionInfo_parse cls
              _ k tick2 y Hq2 E2) as [Hr _].
  split; [assumption|]. split; [|split].
  - intros n Hn. rewrite <- Hcs in Hn.
    exact (completed_stage_not_rerun_core cls q2 tick2 y E2 n Hn).
  - rewrite <- Hcs.
    exact (proj1 (completed_stages_are_finished_core cls q2 tick2 y E2)).
  - intros Hc3 Hnone.
    exact (proj2 (pass_runs_to_a_standstill_core parse_obj
                    VersionInfo_parse cls _ k tick2 y Hq2 E2 Hc3) Hnone).
Qed.

End WholeQuest.

(** * Instances of the further properties *)

Module Samples.

(** A registry with one class, under its own name. *)
Definition all_quests : dict (QuestClass Demo.QD Demo.Ext Demo.Loc) :=
  [("DemoQuest", Demo.A_then_B)].

(** Documents are storage models ([Demo.Doc]). *)
Definition dict_of (sm : StorageModel) : Demo.Doc := sm.

(** The same quest at version 0.2.0. *)
Definition A_then_B_v020 : QuestClass Demo.QD Demo.Ext Demo.Loc :=
  Demo.quest "0.2.0" [("A", Demo.stage "A" ["B"] true true false);
                      ("B", Demo.stage "B" [] true true false)].

(** Two stages without children. *)
Definition loose : QuestClass Demo.QD Demo.Ext Demo.Loc :=
  Demo.quest "0.1.0" [("A", Demo.stage "A" [] true true false);
                      ("B", Demo.stage "B" [] true true false)].

Definition iterate (db : string -> option Demo.Doc) (docs : list string) :=
  iterate_all Demo.parse_obj Demo.parse_plain all_quests db docs.

(** An instance of [create_new_game]: events are user ids, any non-empty
    one validates; the quest object is the list of its saved fields. *)
Definition create (event : string) (s : main.Store string) :=
  main.create_new_game
    (fun ev : string => if String.eqb ev "" then inl "empty" else inr ev)
    (fun d : string => d)
    (fun d : string => [("userId", d)])
    "now" "IntroQuest"
    (fun name : string => @inr unit string name)
    (fun c : string => c)
    (fun _ : string => @inr unit (dict string) [])
    (fun (_ : dict string) (d : dict string) => @inr unit (dict string) d)
    (fun _ : dict string => @inr unit (dict string) [("version", "0.1.0")])
    (fun o : dict string => @inr unit (dict string) o)
    event s.

Definition empty_store : main.Store string := fun _ _ => None.

End Samples.

Lemma key_to_quest_name_make_key_witness :
  key_to_quest_name (make_key Demo.A_then_B "github:1:2") = Some "DemoQuest".
Proof.
  apply (key_to_quest_name_make_key Demo.A_then_B "github:1:2").
  simpl. intuition discriminate.
Defined.

Lemma iterate_all_yields_witness :
  exists ys r,
    Samples.iterate Demo.empty_db ["g:DemoQuest"; "g:Other"] = (ys, r) /\
    Forall (fun q => exists name c o,
                key_to_quest_name (key q) = Some name /\
                get Samples.all_quests name = Some c /\
                Quest_init Demo.parse_obj Demo.parse_plain c Demo.empty_db
                  (key q) = (o, Ok q)) ys.
Proof.
  do 2 eexists.
  match goal with
  | |- ?A /\ _ => assert (HA : A) by (vm_compute; reflexivity)
  end.
  split; [exact HA|].
  exact (proj1 (iterate_all_yields Demo.parse_obj Demo.parse_plain
                  Samples.all_quests _ _ HA)).
Defined.

Lemma iterate_all_finds_from_game_witness :
  exists o q,
    from_game Demo.parse_obj Demo.parse_plain Demo.A_then_B Demo.empty_db "g"
    = (o, Ok q) /\
    Samples.iterate Demo.empty_db [key q] = ([q], Finished).
Proof.
  do 2 eexists.
  match goal with
  | |- ?A /\ _ => assert (HA : A) by (vm_compute; reflexivity)
  end.
  split; [exact HA|].
  refine (proj2 (@iterate_all_finds_from_game _ _ _ _ Demo.parse_obj
                   Demo.parse_plain Samples.all_quests Demo.A_then_B
                   Demo.empty_db "g" _ _ _ _ HA)).
  - reflexivity.
  - simpl. intuition discriminate.
Defined.

Ltac run_sample :=
  match goal with
  | |- ?A /\ _ => assert (HA : A) by (vm_compute; reflexivity)
  end;
  match goal with
  | |- _ /\ ?B /\ _ => assert (HB : B) by (vm_compute; reflexivity)
  end;
  split; [assumption|]; split; [assumption|].

Lemma save_then_load_witness :
  exists o0 q0 q x t r,
    Demo.construct Demo.A_then_B Demo.empty_db Demo.key = (o0, Ok q0) /\
    execute_stages Demo.A_then_B q0 Demo.FULL [] = (q, x, t, r) /\
    exists_ (save Samples.dict_of Demo.A_then_B Demo.empty_db q) q = true.
Proof.
  do 6 eexists. run_sample.
  match type of HB with
  | _ = (?Q, _, _, _) =>
      refine (proj1 (proj2 (@save_then_load _ _ _ _ Demo.parse_obj
                       Demo.parse_plain Samples.dict_of Demo.A_then_B
                       Demo.empty_db Demo.empty_db Q _ _ 2 _ _ _ HA)))
  end.
  - reflexivity.
  - vm_compute. reflexivity.
  - vm_compute. reflexivity.
Defined.

Lemma save_then_load_other_version_witness :
  exists ow qw q x t r o0 q0,
    Demo.construct Demo.A_then_B Demo.empty_db Demo.key = (ow, Ok qw) /\
    execute_stages Demo.A_then_B qw Demo.FULL [] = (q, x, t, r) /\
    Demo.construct Samples.A_then_B_v020 Demo.empty_db (key q) = (o0, Ok q0) /\
    exists o2 q2,
      Demo.construct Samples.A_then_B_v020
        (save Samples.dict_of Demo.A_then_B Demo.empty_db q) (key q)
      = (o2, Ok q2) /\
      completed_stages q2 = ["A"; "B"].
Proof.
  do 8 eexists. run_sample.
  match goal with
  | |- ?C /\ _ => assert (HC : C) by (vm_compute; reflexivity)
  end.
  split; [exact HC|].
  match type of HB with
  | _ = (?Q, _, _, _) =>
      destruct (proj1 (@save_then_load_other_version _ _ _ _ Demo.parse_obj
                  Demo.parse_plain Samples.dict_of Demo.A_then_B
                  Samples.A_then_B_v020 Demo.empty_db Demo.empty_db Q _ _
                  (fun sm => eq_refl) eq_refl HC) eq_refl 2 eq_refl)
        as (o2 & q2 & H1 & _ & _ & H2 & _)
  end.
  exists o2, q2. split; [exact H1 | exact H2].
Defined.

Lemma hooks_in_order_witness :
  exists o q q' x' t r,
    Demo.construct Demo.A_then_B Demo.empty_db Demo.key = (o, Ok q) /\
    execute_stages Demo.A_then_B q Demo.FULL [] = (q', x', t, r) /\
    exists t1 t2,
      t = t1 ++ Called "A" Execute None false :: t2 /\
      in_order t1 "A" Execute None t2.
Proof.
  do 6 eexists. run_sample.
  eexists [_; _; _; _], _.
  match goal with
  | |- ?S /\ _ => assert (HS : S) by reflexivity
  end.
  split; [exact HS|].
  exact (@hooks_in_order _ _ _ _ Demo.A_then_B _ Demo.FULL [] _ _ _ _ HB
           _ _ _ _ _ _ HS).
Defined.

Lemma completed_stages_are_finished_witness :
  exists o q q' x' t r,
    Demo.construct Demo.stuck Demo.empty_db Demo.key = (o, Ok q) /\
    execute_stages Demo.stuck q Demo.FULL [] = (q', x', t, r) /\
    completed_stages q' = completed_stages q ++ finished t.
Proof.
  do 6 eexists. run_sample.
  exact (proj1 (@completed_stages_are_finished _ _ _ _ Demo.stuck _
                  Demo.FULL [] _ _ _ _ HB)).
Defined.

Lemma completed_stage_not_rerun_witness :
  exists o q q' x' t r,
    Demo.construct Demo.A_then_B
      (Demo.db_with Demo.key (mkStorageModel "0.1.0" ["A"] "1" false))
      Demo.key = (o, Ok q) /\
    execute_stages Demo.A_then_B q Demo.FULL [] = (q', x', t, r) /\
    In "A" (completed_stages q) /\
    forall h ret c, ~ In (Called "A" h ret c) t.
Proof.
  do 6 eexists. run_sample.
  match goal with
  | |- ?C /\ _ => assert (HC : C) by (simpl; auto)
  end.
  split; [exact HC|].
  exact (@completed_stage_not_rerun _ _ _ _ Demo.A_then_B _ Demo.FULL []
           _ _ _ _ HB "A" HC).
Defined.

Lemma stage_runs_once_witness :
  exists o q q' x' t r,
    Demo.construct Demo.fork Demo.empty_db Demo.key = (o, Ok q) /\
    execute_stages Demo.fork q Demo.FULL [] = (q', x', t, r) /\
    NoDup (started t).
Proof.
  do 6 eexists. run_sample.
  exact (proj1 (proj2 (@stage_runs_once _ _ _ _ _ Demo.parse_obj
                         Demo.parse_plain Demo.fork Demo.empty_db Demo.key
                         _ _ Demo.FULL [] _ _ _ _ HA HB))).
Defined.

Lemma only_connected_stages_run_witness :
  exists o q q' x' t r,
    Demo.construct Samples.loose Demo.empty_db Demo.key = (o, Ok q) /\
    execute_stages Samples.loose q Demo.FULL [] = (q', x', t, r) /\
    t = [].
Proof.
  do 6 eexists. run_sample.
  refine (proj2 (@only_connected_stages_run _ _ _ _ _ Demo.parse_obj
                   Demo.parse_plain Samples.loose Demo.empty_db Demo.key
                   _ _ Demo.FULL [] _ _ _ _ HA HB) _).
  intros s S [[= <- <-]|[[= <- <-]|[]]]; reflexivity.
Defined.

Lemma pass_runs_to_a_standstill_witness :
  exists o q q' x' t r,
    Demo.construct Demo.stuck Demo.empty_db Demo.key = (o, Ok q) /\
    execute_stages Demo.stuck q Demo.FULL [] = (q', x', t, r) /\
    complete q' = false /\
    exists h, held_back h t /\
              clos_refl_trans string (child_of Demo.stuck) h "B".
Proof.
  do 6 eexists. run_sample.
  match goal with
  | |- ?C /\ _ => assert (HC : C) by reflexivity
  end.
  split; [exact HC|].
  destruct (proj1 (@pass_runs_to_a_standstill _ _ _ _ _ Demo.parse_obj
                     Demo.parse_plain Demo.stuck Demo.empty_db Demo.key
                     _ _ Demo.FULL [] _ _ _ _ HA HB HC) "B")
    as [[Hd _]|H].
  - exists "A". right. eexists. split; [left; reflexivity | simpl; auto].
  - exfalso. simpl in Hd.
    repeat (destruct Hd as [Hd|Hd]; [discriminate|]). exact Hd.
  - exact H.
Defined.

Lemma second_pass_is_inert_witness :
  exists o q q1 x1 t1 r1 q2 x2 t2 r2,
    Demo.construct Demo.stuck Demo.empty_db Demo.key = (o, Ok q) /\
    execute_stages Demo.stuck q Demo.FULL [] = (q1, x1, t1, r1) /\
    execute_stages Demo.stuck q1 Demo.ISSUE x1 = (q2, x2, t2, r2) /\
    forall n h ret c, ~ In (Called n h ret c) t2.
Proof.
  do 10 eexists. run_sample.
  match goal with
  | |- ?C /\ _ => assert (HC : C) by (vm_compute; reflexivity)
  end.
  split; [exact HC|].
  exact (proj1 (proj2 (@second_pass_is_inert _ _ _ _ _ Demo.parse_obj
                         Demo.parse_plain Demo.stuck Demo.empty_db Demo.key
                         _ _ Demo.FULL [] _ _ _ _ Demo.ISSUE _ _ _ _ _
                         HA HB HC))).
Defined.

Lemma create_new_game_writes_witness :
  exists s' r,
    Samples.create "42" Samples.empty_store = (s', r) /\
    s' "quest" "github:42:IntroQuest" = None.
Proof.
  do 2 eexists.
  match goal with
  | |- ?A /\ _ => assert (HA : A) by reflexivity
  end.
  split; [exact HA|].
  pose proof (main.create_new_game_writes _ _ _ _ _ _ _ _ _ _ _ _ _ HA) as H.
  simpl in H. destruct H as [H _].
  rewrite H; [reflexivity | left; discriminate].
Defined.

Lemma Quest_init_restores_witness :
  exists o q,
    Demo.construct Demo.A_then_B
      (Demo.db_with Demo.key Demo.concluded_doc) Demo.key = (o, Ok q) /\
    completed_stages q = sm_completed_stages Demo.concluded_doc /\
    complete q = sm_complete Demo.concluded_doc.
Proof.
  do 2 eexists.
  match goal with
  | |- ?A /\ _ => assert (HA : A) by (vm_compute; reflexivity)
  end.
  split; [exact HA|].
  exact (proj2 (proj1 (proj2 (proj2 (@Quest_init_restores _ _ _ _
           Demo.parse_obj Demo.parse_plain Demo.A_then_B
           (Demo.db_with Demo.key Demo.concluded_doc) Demo.key _ _ HA)))
           Demo.concluded_doc Demo.concluded_doc eq_refl eq_refl)).
Defined.

Lemma first_batch_is_roots_witness :
  exists o q q' x' t r,
    Demo.construct Demo.fork Demo.empty_db Demo.key = (o, Ok q) /\
    execute_stages Demo.fork q Demo.FULL [] = (q', x', t, r) /\
    exists roots rest,
      t = map Ready roots ++ rest /\ NoDup roots /\
      (forall n, In n roots <-> root Demo.fork n) /\
      (roots = [] -> t = []).
Proof.
  do 6 eexists. run_sample.
  exact (@first_batch_is_roots _ _ _ _ _ Demo.parse_obj Demo.parse_plain
           Demo.fork Demo.empty_db Demo.key _ _ Demo.FULL [] _ _ _ _ HA HB).
Defined.

Lemma Demo_A_then_B_willing : willing Demo.A_then_B.
Proof.
  intros n S q l x H. apply get_In in H. simpl in H.
  destruct H as [[= <- <-]|[[= <- <-]|[]]]; split; reflexivity.
Qed.

Lemma Demo_A_then_B_leaves_complete : hooks_leave_complete Demo.A_then_B.
Proof.
  intros n S q l x H. apply get_In in H. simpl in H.
  destruct H as [[= <- <-]|[[= <- <-]|[]]]; repeat split.
Qed.

Lemma willing_stages_all_complete_witness :
  exists o q q' x' t r,
    Demo.construct Demo.A_then_B Demo.empty_db Demo.key = (o, Ok q) /\
    execute_stages Demo.A_then_B q Demo.FULL [] = (q', x', t, r) /\
    In (MarkedDone "B") t /\ In "B" (completed_stages q').
Proof.
  do 6 eexists. run_sample.
  refine (proj2 (proj2 (@willing_stages_all_complete _ _ _ _ _ Demo.parse_obj
                          Demo.parse_plain Demo.A_then_B Demo.empty_db
                          Demo.key _ _ Demo.FULL [] _ _ _ _
                          Demo_A_then_B_willing Demo_A_then_B_leaves_complete
                          HA eq_refl HB)) "B" _).
  exists "A". right. eexists. split; [left; reflexivity | now left].
Defined.

Lemma resume_after_reload_witness :
  exists o q q1 x1 t1 r1,
    Demo.construct Demo.stuck Demo.empty_db Demo.key = (o, Ok q) /\
    execute_stages Demo.stuck q Demo.FULL [] = (q1, x1, t1, r1) /\
    exists o2 q2,
      Demo.construct Demo.stuck
        (save Samples.dict_of Demo.stuck Demo.empty_db q1) Demo.key
      = (o2, Ok q2) /\
      completed_stages q2 = completed_stages q1.
Proof.
  do 6 eexists. run_sample.
  match type of HB with
  | _ = (?Q, _, _, _) =>
      destruct (@resume_after_reload _ _ _ _ _ Demo.parse_obj Demo.parse_plain
                  Samples.dict_of Demo.stuck Demo.empty_db Demo.empty_db
                  Demo.key _ _ Demo.FULL [] Q _ _ _ 1
                  (fun sm => eq_refl) eq_refl eq_refl HA HB)
        as (o2 & q2 & H1 & H2 & _)
  end.
  exists o2, q2. split; [exact H1 | exact H2].
Defined.

Lemma load_then_save_witness :
  exists o q,
    Demo.construct Samples.A_then_B_v020
      (Demo.db_with Demo.key Demo.concluded_doc) Demo.key = (o, Ok q) /\
    sm_version (get_storage_model Samples.A_then_B_v020 q) = "0.2.0" /\
    sm_completed_stages (get_storage_model Samples.A_then_B_v020 q)
    = ["A"; "B"].
Proof.
  do 2 eexists.
  match goal with
  | |- ?A /\ _ => assert (HA : A) by (vm_compute; reflexivity)
  end.
  split; [exact HA|].
  destruct (@load_then_save _ _ _ _ Demo.parse_obj Demo.parse_plain
              Samples.A_then_B_v020
              (Demo.db_with Demo.key Demo.concluded_doc) Demo.key _ _
              Demo.concluded_doc Demo.concluded_doc HA eq_refl eq_refl)
    as (v & d & _ & _ & _ & H).
  rewrite H. split; reflexivity.
Defined.

Lemma pass_changes_only_through_hooks_witness :
  exists o q q' x' t r,
    Demo.construct Demo.A_then_B Demo.empty_db Demo.key = (o, Ok q) /\
    execute_stages Demo.A_then_B q Demo.FULL [] = (q', x', t, r) /\
    key q' = key q /\ complete q' = complete q.
Proof.
  do 6 eexists. run_sample.
  pose proof (@pass_changes_only_through_hooks _ _ _ _ Demo.A_then_B _
                Demo.FULL [] _ _ _ _ HB) as (H1 & H2 & _).
  split; [exact H1 | exact (H2 Demo_A_then_B_leaves_complete)].
Defined.
